(** * Urban Networks II: commute simulation, route efficiency and network
    perturbation (notebook [workshop2.ipynb]).

    A shallow embedding of the notebook's own cells: [calc_efficiency], the
    batch routing cells, the perturbation cell and the two before/after
    metrics.  The libraries the cells call (networkx, osmnx, pandas, numpy) are
    represented by the few operations the cells use, each modelled after the
    library's documented behaviour and marked as such.

    Numbers.  Distances, lengths and the two metrics are modelled by
    [float64] below: a real number or one of the three IEEE special values.
    There rounding, overflow and the sign of zero are not modelled; what is
    modelled is where a special value appears and where an exception is raised
    instead.  The one float that decides an integer, the product
    [len(G.nodes) * frac] whose truncation is the sample size, is computed in
    IEEE binary64 itself, with the primitive floats of [Floats]. *)

From Stdlib Require Import Floats.
From Stdlib Require Import List ZArith Lia Bool String Permutation.
From Stdlib Require Import Reals Lra.
Import ListNotations.

Set Warnings "-inexact-float".

Local Open Scope Z_scope.

(** ** Exceptions and results *)

(** The Python exceptions the modelled calls can raise. *)
Inductive exn : Type :=
| KeyError
| ValueError
| IndexError
| ZeroDivisionError
| OverflowError
| NodeNotFound.

(** A computation that returns a value or raises. *)
Inductive result (A : Type) : Type :=
| Ok (a : A)
| Raise (e : exn).

Arguments Ok {A} a.
Arguments Raise {A} e.

Definition bind {A B : Type} (m : result A) (k : A -> result B) : result B :=
  match m with
  | Ok a => k a
  | Raise e => Raise e
  end.

Notation "x <- m ;; k" := (bind m (fun x => k))
  (at level 61, m at next level, right associativity).

(** A list comprehension whose body can raise: the first exception aborts. *)
Fixpoint mapM {A B : Type} (f : A -> result B) (l : list A) : result (list B) :=
  match l with
  | [] => Ok []
  | a :: l' => b <- f a ;; bs <- mapM f l' ;; Ok (b :: bs)
  end.

(** ** Floating-point values *)

Inductive float64 : Type :=
| Fin (r : R)
| PInf
| NInf
| NaN.

Definition is_finite (a : float64) : bool :=
  match a with Fin _ => true | _ => false end.

Definition is_nan (a : float64) : bool :=
  match a with NaN => true | _ => false end.

Definition f_neg (a : float64) : float64 :=
  match a with
  | Fin r => Fin (- r)
  | PInf => NInf
  | NInf => PInf
  | NaN => NaN
  end.

Definition f_add (a b : float64) : float64 :=
  match a, b with
  | NaN, _ | _, NaN => NaN
  | Fin r, Fin s => Fin (r + s)
  | PInf, NInf | NInf, PInf => NaN
  | PInf, _ | _, PInf => PInf
  | NInf, _ | _, NInf => NInf
  end.

Definition f_sub (a b : float64) : float64 := f_add a (f_neg b).

(** The infinity carrying the sign of [r]; [r = 0] counts as positive. *)
Definition inf_of_sign (r : R) : float64 :=
  if Rlt_dec r 0 then NInf else PInf.

(** numpy's float64 division: a zero divisor raises nothing, it yields an
    infinity or [nan] (with a RuntimeWarning that is not an exception). *)
Definition f_div (a b : float64) : float64 :=
  match a, b with
  | NaN, _ | _, NaN => NaN
  | Fin r, Fin s =>
      if Req_EM_T s 0
      then (if Req_EM_T r 0 then NaN else inf_of_sign r)
      else Fin (r / s)
  | Fin _, _ => Fin 0
  | PInf, Fin s => inf_of_sign s
  | NInf, Fin s => f_neg (inf_of_sign s)
  | _, _ => NaN
  end.

Arguments f_div : simpl never.

(** Python's [int / int]: a zero divisor raises [ZeroDivisionError]. *)
Definition py_truediv (a b : Z) : result float64 :=
  if b =? 0 then Raise ZeroDivisionError else Ok (Fin (IZR a / IZR b)).

(** ** Binary64 arithmetic for the sample size *)

(** Python's conversion of an [int] to a [float], as [int * float] performs
    it on its left operand: the nearest binary64 number, ties to even;
    [OverflowError] when the integer is too large for a float. *)
Definition py_float (z : Z) : result float :=
  match binary_normalize prec emax z 0 false with
  | S754_infinity _ => Raise OverflowError
  | x => Ok (SF2Prim x)
  end.

(** Truncation towards zero of a binary64 number given by its sign,
    mantissa and exponent; an infinity gives [OverflowError], [nan] gives
    [ValueError]. *)
Definition int_of_spec (x : spec_float) : result Z :=
  match x with
  | S754_nan => Raise ValueError
  | S754_infinity _ => Raise OverflowError
  | S754_zero _ => Ok 0
  | S754_finite s m e =>
      let a := if 0 <=? e then Zpos m * 2 ^ e else Zpos m / 2 ^ (- e) in
      Ok (if s then - a else a)
  end.

(** Python's [int(x)] for a float. *)
Definition py_int (x : float) : result Z := int_of_spec (Prim2SF x).

(** [int(len(G.nodes) * frac)] for a graph of [N] nodes: the product is one
    binary64 multiplication, rounded to nearest. *)
Definition sample_size (N : nat) (frac : float) : result Z :=
  x <- py_float (Z.of_nat N) ;;
  py_int (x * frac)%float.

(** Python's builtin [sum]: a left fold of [+] starting from [0]. *)
Definition py_sum (l : list float64) : float64 :=
  fold_left f_add l (Fin 0).

(** pandas' [Series.mean()]: [nan] entries are skipped ([skipna=True]); the
    mean of nothing is [nan]. *)
Definition pd_mean (l : list float64) : float64 :=
  let vals := filter (fun a => negb (is_nan a)) l in
  match vals with
  | [] => NaN
  | _ => f_div (py_sum vals) (Fin (INR (List.length vals)))
  end.

(** ** Great-circle distance (osmnx.distance.great_circle) *)

Definition EARTH_RADIUS_M : R := 6371009.

Definition deg2rad (d : R) : R := (d * PI / 180)%R.

(** The haversine formula on a sphere of the Earth's mean radius, as the
    library computes it (the [Rmin 1] is its guard against rounding). *)
Definition great_circle (lat1 lon1 lat2 lon2 : R) : R :=
  let y1 := deg2rad lat1 in
  let y2 := deg2rad lat2 in
  let delta_y := (y2 - y1)%R in
  let x1 := deg2rad lon1 in
  let x2 := deg2rad lon2 in
  let delta_x := (x2 - x1)%R in
  let h := ((sin (delta_y / 2))² + cos y1 * cos y2 * (sin (delta_x / 2))²)%R in
  let h := Rmin 1 h in
  let arc := (2 * asin (sqrt h))%R in
  (arc * EARTH_RADIUS_M)%R.

Arguments great_circle : simpl never.

(** ** The street network (networkx.MultiDiGraph as osmnx builds it) *)

Definition node : Type := Z.

(** A node's attributes: [G.nodes[n]["y"]] (latitude), [G.nodes[n]["x"]]
    (longitude). *)
Record node_data : Type := mk_node_data {
  node_y : R;
  node_x : R
}.

(** An edge's attribute dictionary: attribute name to numeric value. *)
Definition attrs : Type := list (string * R).

Fixpoint get_attr (k : string) (d : attrs) : option R :=
  match d with
  | [] => None
  | (k', v) :: d' => if String.eqb k k' then Some v else get_attr k d'
  end.

(** One edge [(u, v, key, data)]; parallel edges differ in their key. *)
Record edge : Type := mk_edge {
  edge_u : node;
  edge_v : node;
  edge_key : Z;
  edge_data : attrs
}.

(** Nodes and edges in insertion order, which is the order networkx iterates
    them in. *)
Record graph : Type := mk_graph {
  nodes : list (node * node_data);
  edges : list edge
}.

Definition node_ids (G : graph) : list node := map fst (nodes G).

Definition mem (n : node) (l : list node) : bool := existsb (Z.eqb n) l.

Fixpoint get_node (n : node) (l : list (node * node_data)) : option node_data :=
  match l with
  | [] => None
  | (n', d) :: l' => if n =? n' then Some d else get_node n l'
  end.

(** [G.nodes[n]]: [KeyError] for a node that is not in the graph. *)
Definition G_nodes (G : graph) (n : node) : result node_data :=
  match get_node n (nodes G) with
  | Some d => Ok d
  | None => Raise KeyError
  end.

(** networkx's invariant: every edge joins two nodes of the graph, and a node
    identifier occurs once. *)
Definition wf_graph (G : graph) : Prop :=
  NoDup (node_ids G) /\
  forall e, In e (edges G) -> In (edge_u e) (node_ids G) /\ In (edge_v e) (node_ids G).

Definition route : Type := list node.

(** ** osmnx.routing.route_to_gdf *)

(** The edges of [G.subgraph(route)]: those of [G] with both ends on the
    route. *)
Definition subgraph_edges (G : graph) (r : route) : list edge :=
  filter (fun e => mem (edge_u e) r && mem (edge_v e) r) (edges G).

(** [G[u][v].items()]: the parallel edges from [u] to [v]. *)
Definition parallel_edges (G : graph) (u v : node) : list edge :=
  filter (fun e => (edge_u e =? u) && (edge_v e =? v)) (edges G).

(** [min(items, key=lambda i: i[1][weight])], continued after a first item:
    the key is read on every item ([KeyError] when it is missing) and the
    first item with the least key is kept. *)
Fixpoint min_by_weight (weight : string) (best : edge) (bw : R) (l : list edge)
  : result edge :=
  match l with
  | [] => Ok best
  | e :: l' =>
      match get_attr weight (edge_data e) with
      | None => Raise KeyError
      | Some w =>
          if Rlt_dec w bw then min_by_weight weight e w l'
          else min_by_weight weight best bw l'
      end
  end.

(** The edge the library picks between [u] and [v]: [G[u][v]] raises
    [KeyError] when there is none. *)
Definition pick_edge (G : graph) (weight : string) (uv : node * node) : result edge :=
  match parallel_edges G (fst uv) (snd uv) with
  | [] => Raise KeyError
  | e :: l =>
      match get_attr weight (edge_data e) with
      | None => Raise KeyError
      | Some w => min_by_weight weight e w l
      end
  end.

(** [zip(route[:-1], route[1:])] *)
Definition pairs (r : route) : list (node * node) :=
  combine (removelast r) (tl r).

(** The rows of the route's GeoDataFrame, one edge per consecutive pair.
    [graph_to_gdfs] is evaluated first and raises [ValueError] for a subgraph
    with no edge; the pairs are resolved afterwards. *)
Definition route_to_gdf (G : graph) (r : route) (weight : string) : result (list edge) :=
  match subgraph_edges G r with
  | [] => Raise ValueError
  | _ => mapM (pick_edge G weight) (pairs r)
  end.

(** [gdf[attr]]: the column exists when some edge of the subgraph carries the
    attribute ([KeyError] otherwise); a row without it holds [nan]. *)
Definition column (G : graph) (r : route) (rows : list edge) (attr : string)
  : result (list float64) :=
  if existsb (fun e => match get_attr attr (edge_data e) with Some _ => true | None => false end)
       (subgraph_edges G r)
  then Ok (map (fun e => match get_attr attr (edge_data e) with
                         | Some v => Fin v
                         | None => NaN
                         end) rows)
  else Raise KeyError.

(** [route[0]] and [route[-1]] *)
Definition route_first (r : route) : result node :=
  match r with
  | [] => Raise IndexError
  | n :: _ => Ok n
  end.

Definition route_last (r : route) : result node :=
  match r with
  | [] => Raise IndexError
  | n :: r' => Ok (last r' n)
  end.

(** ** calc_efficiency *)

(** [sum(ox.routing.route_to_gdf(G, route=route)[attr])] *)
Definition trip_distance (G : graph) (r : route) (attr : string) : result float64 :=
  rows <- route_to_gdf G r "length" ;;
  col <- column G r rows attr ;;
  Ok (py_sum col).

Definition calc_efficiency (G : graph) (r : route) (attr : string) : result float64 :=
  trip_distance <- trip_distance G r attr ;;
  n0 <- route_first r ;;
  d0 <- G_nodes G n0 ;;
  n1 <- route_last r ;;
  d1 <- G_nodes G n1 ;;
  let gc_distance := great_circle (node_y d0) (node_x d0) (node_y d1) (node_x d1) in
  Ok (f_div (Fin gc_distance) trip_distance).

(** ** Nearest node (osmnx.distance.nearest_nodes) *)

(** The scan for the node nearest to [(lat, lon)] by great-circle distance,
    continued after a first candidate.  Among equally near nodes the first is
    kept; equally near nodes play no part in what is proved below. *)
Fixpoint nearest_from (lat lon : R) (best : node) (bd : R)
  (l : list (node * node_data)) : node :=
  match l with
  | [] => best
  | (n, d) :: l' =>
      let dn := great_circle lat lon (node_y d) (node_x d) in
      if Rlt_dec dn bd then nearest_from lat lon n dn l'
      else nearest_from lat lon best bd l'
  end.

(** One query point on a graph with nodes. *)
Definition nearest_node (G : graph) (X Y : R) : result node :=
  match nodes G with
  | [] => Raise ValueError
  | (n, d) :: l =>
      Ok (nearest_from Y X n (great_circle Y X (node_y d) (node_x d)) l)
  end.

(** [ox.distance.nearest_nodes(G, X=..., Y=...)] on two columns.  The node
    table is built first, which raises [ValueError] on a graph without nodes;
    the nearest-neighbour query then raises [ValueError] when there is no
    point to look up. *)
Definition nearest_nodes (G : graph) (X Y : list R) : result (list node) :=
  match nodes G with
  | [] => Raise ValueError
  | _ =>
      match combine X Y with
      | [] => Raise ValueError
      | points => mapM (fun xy => nearest_node G (fst xy) (snd xy)) points
      end
  end.

(** ** Origin-destination table ([od.csv]) *)

Record od_row : Type := mk_od {
  home_lat : R;
  home_lng : R;
  work_lat : R;
  work_lng : R
}.

(** ** Removing nodes (networkx) *)

(** One step of [remove_nodes_from]: the node goes together with the edges
    that leave or enter it; a node that is not in the graph is skipped. *)
Definition remove_node (G : graph) (n : node) : graph :=
  if mem n (node_ids G)
  then mk_graph
         (filter (fun p => negb (fst p =? n)) (nodes G))
         (filter (fun e => negb (edge_u e =? n) && negb (edge_v e =? n)) (edges G))
  else G.

Definition remove_nodes_from (G : graph) (ns : list node) : graph :=
  fold_left remove_node ns G.

(** [G.copy()]: a new graph built from the nodes and edges of [G], each with a
    new attribute dictionary holding the same entries. *)
Definition copy (G : graph) : graph :=
  mk_graph
    (map (fun p => (fst p, mk_node_data (node_y (snd p)) (node_x (snd p)))) (nodes G))
    (map (fun e => mk_edge (edge_u e) (edge_v e) (edge_key e) (map (fun kv => kv) (edge_data e)))
       (edges G)).

(** ** Solved trips and the two metrics *)

(** [[path for path in paths if path is not None and len(path) > 1]] *)
Definition solved (paths : list (option route)) : list route :=
  flat_map (fun p => match p with
                     | Some r => if (1 <? Z.of_nat (List.length r)) then [r] else []
                     | None => []
                     end) paths.

(** [pd.Series([calc_efficiency(G, path) for path in paths])] *)
Definition trip_efficiency (G : graph) (paths : list route) : result (list float64) :=
  mapM (fun path => calc_efficiency G path "length") paths.

(** [1 - (len(paths_per) / len(paths))] *)
Definition fraction_unsolvable (paths_per paths : list route) : result float64 :=
  q <- py_truediv (Z.of_nat (List.length paths_per)) (Z.of_nat (List.length paths)) ;;
  Ok (f_sub (Fin 1) q).

(** [1 - (trip_efficiency_per.mean() / trip_efficiency.mean())] *)
Definition efficiency_degradation (trip_efficiency_per trip_efficiency : list float64)
  : float64 :=
  f_sub (Fin 1) (f_div (pd_mean trip_efficiency_per) (pd_mean trip_efficiency)).

(** ** Objects and references: what a copy shares

    The value model above cannot tell a copy from an alias.  For the question
    of what [G.copy()] shares with [G], graphs are also modelled as Python has
    them: objects in a store, held by reference. *)

Definition loc : Type := nat.

(** An attribute value: a number, or a reference to a list object (osmnx
    keeps a list under ["osmid"], ["name"], ... for an edge merged from several
    ways). *)
Inductive value : Type :=
| VNum (r : R)
| VRef (l : loc).

Inductive obj : Type :=
| ODict (entries : list (string * value))
| OList (items : list Z)
| OGraph (node_dicts : list (node * loc)) (edge_dicts : list (node * node * Z * loc)).

(** The store: the object at location [l] is the [l]-th entry. *)
Definition heap : Type := list obj.

Definition alloc (h : heap) (o : obj) : heap * loc := (h ++ [o], List.length h).

(** Overwrite the object at [l]. *)
Fixpoint update (h : heap) (l : loc) (o : obj) : heap :=
  match h, l with
  | [], _ => []
  | _ :: h', O => o :: h'
  | a :: h', S l' => a :: update h' l' o
  end.

Definition dict_at (h : heap) (l : loc) : list (string * value) :=
  match nth_error h l with
  | Some (ODict entries) => entries
  | _ => []
  end.

(** [d.copy()] for each listed dictionary: a new dictionary object with the
    same entries; the values are not copied.  A location that holds no
    dictionary gives no result (a Python store has no such reference). *)
Fixpoint copy_dicts {K : Type} (h : heap) (items : list (K * loc))
  : option (heap * list (K * loc)) :=
  match items with
  | [] => Some (h, [])
  | (k, l) :: rest =>
      match nth_error h l with
      | Some (ODict entries) =>
          match copy_dicts (fst (alloc h (ODict entries))) rest with
          | Some (h2, rest') => Some (h2, (k, snd (alloc h (ODict entries))) :: rest')
          | None => None
          end
      | _ => None
      end
  end.

(** networkx's [G.copy()]: a new graph object; every node and every edge gets
    a new attribute dictionary filled from a [dict.copy()] of the old one. *)
Definition store_copy (h : heap) (G : loc) : option (heap * loc) :=
  match nth_error h G with
  | Some (OGraph ns es) =>
      match copy_dicts h ns with
      | Some (h1, ns') =>
          match copy_dicts h1 es with
          | Some (h2, es') => Some (alloc h2 (OGraph ns' es'))
          | None => None
          end
      | None => None
      end
  | _ => None
  end.

(** One step of [remove_nodes_from] on the graph object's own tables. *)
Definition store_remove_node
  (g : list (node * loc) * list (node * node * Z * loc)) (n : node)
  : list (node * loc) * list (node * node * Z * loc) :=
  if mem n (map fst (fst g))
  then (filter (fun p => negb (fst p =? n)) (fst g),
        filter (fun e => negb (fst (fst (fst e)) =? n) && negb (snd (fst (fst e)) =? n))
          (snd g))
  else g.

(** [G.remove_nodes_from(ns)]: the graph object at [G] is changed in place. *)
Definition store_remove_nodes_from (h : heap) (G : loc) (ns : list node) : option heap :=
  match nth_error h G with
  | Some (OGraph nds eds) =>
      let g := fold_left store_remove_node ns (nds, eds) in
      Some (update h G (OGraph (fst g) (snd g)))
  | _ => None
  end.

(** The numeric entries of an attribute dictionary. *)
Definition num_entries (entries : list (string * value)) : attrs :=
  flat_map (fun kv => match snd kv with
                      | VNum r => [(fst kv, r)]
                      | VRef _ => []
                      end) entries.

Definition num_at (k : string) (entries : list (string * value)) : R :=
  match get_attr k (num_entries entries) with
  | Some r => r
  | None => 0%R
  end.

(** The graph value held at [G]: what the value model sees of the store. *)
Definition view_node (h : heap) (p : node * loc) : node * node_data :=
  (fst p, mk_node_data (num_at "y" (dict_at h (snd p))) (num_at "x" (dict_at h (snd p)))).

Definition view_edge (h : heap) (e : node * node * Z * loc) : edge :=
  mk_edge (fst (fst (fst e))) (snd (fst (fst e))) (snd (fst e))
    (num_entries (dict_at h (snd e))).

Definition view (h : heap) (G : loc) : graph :=
  match nth_error h G with
  | Some (OGraph ns es) => mk_graph (map (view_node h) ns) (map (view_edge h) es)
  | _ => mk_graph [] []
  end.

(** The objects a graph reaches: itself, its attribute dictionaries, and the
    objects those hold as values. *)
Definition value_refs (entries : list (string * value)) : list loc :=
  flat_map (fun kv => match snd kv with
                      | VRef l => [l]
                      | VNum _ => []
                      end) entries.

Definition graph_dicts (h : heap) (G : loc) : list loc :=
  match nth_error h G with
  | Some (OGraph ns es) => map snd ns ++ map snd es
  | _ => []
  end.

Definition graph_values (h : heap) (G : loc) : list loc :=
  flat_map (fun l => value_refs (dict_at h l)) (graph_dicts h G).

Definition reachable (h : heap) (G : loc) : list loc :=
  G :: graph_dicts h G ++ graph_values h G.

(** ** The cells that depend on the routing oracle and on the random state *)

(** The largest [numpy.intp], the C [long] of a 64-bit Linux. *)
Definition intp_max : Z := 2 ^ 63 - 1.

Section Notebook.

(** networkx's weighted shortest path between two nodes of the graph: a
    route, or [None] where networkx raises [NetworkXNoPath]. *)
Variable shortest_path : graph -> node -> node -> string -> option route.

(** numpy's global random state. *)
Variable rng : Type.

(** The state [np.random.seed(s)] installs. *)
Variable mt_seed : Z -> rng.

(** [RandomState.permutation(n)]: a shuffle of [0 .. n-1] and the next
    state. *)
Variable rng_permutation : rng -> nat -> list nat * rng.

(** A cell that reads and advances the global random state and may raise. *)
Definition M (A : Type) : Type := rng -> result (A * rng).

Definition ret {A : Type} (a : A) : M A := fun st => Ok (a, st).

Definition bindM {A B : Type} (m : M A) (k : A -> M B) : M B :=
  fun st => match m st with
            | Ok (a, st') => k a st'
            | Raise e => Raise e
            end.

(** [np.random.seed(s)] *)
Definition np_random_seed (s : Z) : M unit := fun _ => Ok (tt, mt_seed s).

(** The positions [obj.sample(n)] takes from an object of [pop_size] rows.
    pandas refuses a negative [n] with [ValueError] and hands [n] to numpy's
    [choice(pop_size, size=n, replace=False)].  That refuses an empty
    population unless [n] is 0 ([ValueError]), converts [n] to an [intp]
    ([OverflowError] beyond its range), refuses [n] above the population
    ([ValueError]) and otherwise takes the first [n] entries of a
    permutation of all positions. *)
Definition sample_positions (pop_size : nat) (n : Z) : M (list nat) :=
  fun st =>
    if n <? 0 then Raise ValueError
    else if (pop_size =? 0)%nat && negb (n =? 0) then Raise ValueError
    else if intp_max <? n then Raise OverflowError
    else if Z.of_nat pop_size <? n then Raise ValueError
    else
      let (perm, st') := rng_permutation st pop_size in
      Ok (firstn (Z.to_nat n) perm, st').

(** [pd.Series(labelled).sample(n).index]: the labels at the sampled
    positions. *)
Definition sample_index (labels : list node) (n : Z) : M (list node) :=
  bindM (sample_positions (List.length labels) n) (fun positions =>
  ret (map (fun i => nth i labels 0) positions)).

(** [pd.read_csv("data/od.csv").sample(1000)], with the rows of the file as
    its parameter: the rows at the sampled positions. *)
Definition od_sample (rows : list od_row) : M (list od_row) :=
  bindM (sample_positions (List.length rows) 1000) (fun positions =>
  ret (flat_map (fun i => match nth_error rows i with
                          | Some row => [row]
                          | None => []
                          end) positions)).

(** The perturbation cell, with [frac] as its parameter.  It yields
    [nodes_to_remove] and [G_per]. *)
Definition perturb (G : graph) (frac : float) : M (list node * graph) :=
  fun st =>
    n <- sample_size (List.length (nodes G)) frac ;;
    bindM (sample_index (node_ids G) n) (fun nodes_to_remove =>
    let G_per := copy G in
    ret (nodes_to_remove, remove_nodes_from G_per nodes_to_remove)) st.

(** The same cell on the store: [G] is a reference to the base graph; the
    cell yields [nodes_to_remove], a reference to [G_per] and the store it
    leaves behind. *)
Definition perturb_store (h : heap) (G : loc) (frac : float)
  : M (list node * loc * heap) :=
  fun st =>
    match nth_error h G with
    | Some (OGraph ns es) =>
        n <- sample_size (List.length ns) frac ;;
        match sample_index (map fst ns) n st with
        | Ok (nodes_to_remove, st') =>
            match store_copy h G with
            | Some (h1, G_per) =>
                match store_remove_nodes_from h1 G_per nodes_to_remove with
                | Some h2 => Ok ((nodes_to_remove, G_per, h2), st')
                | None => Raise KeyError
                end
            | None => Raise KeyError
            end
        | Raise e => Raise e
        end
    | _ => Raise KeyError
    end.

(** The notebook from its first cell to the perturbation, as far as the
    random state goes: [np.random.seed(seed)], the sample of the
    origin-destination file, the perturbation cell.  It yields the sampled
    rows, [nodes_to_remove] and [G_per]. *)
Definition seeded_perturbation (seed : Z) (rows : list od_row) (G : graph) (frac : float)
  : M (list od_row * (list node * graph)) :=
  bindM (np_random_seed seed) (fun _ =>
  bindM (od_sample rows) (fun od =>
  bindM (perturb G frac) (fun res => ret (od, res)))).

(** One call [ox.routing.shortest_path(G, orig, dest, weight=weight)].  The
    weight column of the edge table is checked first, which raises
    [IndexError] on a graph without edges; networkx then raises
    [NodeNotFound] for an endpoint that is not in the graph; a missing path
    is caught and returned as [None]. *)
Definition ox_shortest_path (G : graph) (orig dest : node) (weight : string)
  : result (option route) :=
  match edges G with
  | [] => Raise IndexError
  | _ =>
      if mem orig (node_ids G) && mem dest (node_ids G)
      then Ok (shortest_path G orig dest weight)
      else Raise NodeNotFound
  end.

(** The routing cells: nearest nodes of the homes and of the workplaces in
    the graph being simulated, one routing call per row. *)
Definition simulate_trips (G : graph) (od : list od_row)
  : result (list node * list node * list (option route)) :=
  home_nodes <- nearest_nodes G (map home_lng od) (map home_lat od) ;;
  work_nodes <- nearest_nodes G (map work_lng od) (map work_lat od) ;;
  paths <- mapM (fun p => ox_shortest_path G (fst p) (snd p) "travel_time")
             (combine home_nodes work_nodes) ;;
  Ok (home_nodes, work_nodes, paths).

End Notebook.

Arguments ret {rng A} a st.
Arguments bindM {rng A B} m k st.
Arguments np_random_seed {rng} mt_seed s st.
Arguments sample_positions {rng} rng_permutation pop_size n st.
Arguments sample_index {rng} rng_permutation labels n st.
Arguments od_sample {rng} rng_permutation rows st.
Arguments perturb {rng} rng_permutation G frac st.
Arguments perturb_store {rng} rng_permutation h G frac st.
Arguments seeded_perturbation {rng} mt_seed rng_permutation seed rows G frac st.

(** ** The walking network: a uniform speed and the travel times *)

(** [walk_time = 20] (minutes), [walk_speed = 4.5] (km per hour),
    [maxdist = walk_time * 60] (seconds). *)
Definition walk_time : Z := 20.

Definition walk_speed : R := 4.5.

Definition maxdist : Z := walk_time * 60.

(** [data[k] = v] on an attribute dictionary: an entry under [k] is
    overwritten where it stands, otherwise the entry is added at the end. *)
Fixpoint set_attr (k : string) (v : R) (d : attrs) : attrs :=
  match d with
  | [] => [(k, v)]
  | (k', v') :: d' =>
      if String.eqb k k' then (k', v) :: d' else (k', v') :: set_attr k v d'
  end.

(** [for _, _, data in G_walk.edges(data=True): data["speed_kph"] = walk_speed] *)
Definition set_walk_speed (G : graph) : graph :=
  mk_graph (nodes G)
    (map (fun e => mk_edge (edge_u e) (edge_v e) (edge_key e)
                     (set_attr "speed_kph" walk_speed (edge_data e)))
       (edges G)).

Definition has_attr (k : string) (e : edge) : bool :=
  match get_attr k (edge_data e) with
  | Some _ => true
  | None => false
  end.

(** The [travel_time] column of [ox.routing.add_edge_travel_times], one value
    per edge in edge order; the function then stores it on the edges under
    ["travel_time"].  The edge table is built first ([ValueError] on a graph
    without edges); a missing ["length"] or ["speed_kph"] column raises
    [KeyError], a null in either column [ValueError]; the value is
    [(length / 1000) / (speed_kph / (60 * 60))], in seconds. *)
Definition edge_travel_times (G : graph) : result (list float64) :=
  match edges G with
  | [] => Raise ValueError
  | _ =>
      if negb (existsb (has_attr "length") (edges G) &&
               existsb (has_attr "speed_kph") (edges G))
      then Raise KeyError
      else if negb (forallb (has_attr "length") (edges G) &&
                    forallb (has_attr "speed_kph") (edges G))
      then Raise ValueError
      else Ok (map (fun e =>
                      match get_attr "length" (edge_data e),
                            get_attr "speed_kph" (edge_data e) with
                      | Some l, Some s => f_div (Fin (l / 1000)) (Fin (s / (60 * 60)))
                      | _, _ => NaN
                      end) (edges G))
  end.

(** ** The table of routes and colours for the before/after plot *)

(** [pd.DataFrame({"path": c1, "color": c2})]: columns of unequal length are
    refused with [ValueError]. *)
Definition pd_DataFrame {A B : Type} (c1 : list A) (c2 : list B) : result (list (A * B)) :=
  if (List.length c1 =? List.length c2)%nat then Ok (combine c1 c2)
  else Raise ValueError.

Section MoreCells.

Variable rng : Type.
Variable rng_permutation : rng -> nat -> list nat * rng.

(** [np.random.randint(low, high, size)]: [size] integers and the next
    state. *)
Variable rng_randint : rng -> Z -> Z -> nat -> list Z * rng.

(** [df.sample(frac=1)]: as many rows as the table has, taken at the
    positions of a permutation of all positions. *)
Definition sample_all {A : Type} (rows : list A) : M rng (list A) :=
  fun st =>
    let (perm, st') := rng_permutation st (List.length rows) in
    match mapM (fun i => match nth_error rows i with
                         | Some a => Ok a
                         | None => Raise IndexError
                         end) perm with
    | Ok taken => Ok (taken, st')
    | Raise e => Raise e
    end.

(** The plotting cell up to the shuffled table, with [n] (100 in the
    notebook) as its parameter:
    [all_paths = paths[:n] + paths_per[:n]],
    [colors = ["c"] * n + ["y"] * n],
    [pd.DataFrame({"path": all_paths, "color": colors}).sample(frac=1)]. *)
Definition routes_table (n : nat) (paths paths_per : list route)
  : M rng (list (route * string)) :=
  fun st =>
    let all_paths := firstn n paths ++ firstn n paths_per in
    let colors := repeat "c"%string n ++ repeat "y"%string n in
    match pd_DataFrame all_paths colors with
    | Ok table => sample_all table st
    | Raise e => Raise e
    end.

(** The social network's edge weights (notebook "Urban Networks I"):
    [hangout_counts = np.random.randint(low=1, high=100, size=len(G.edges))],
    [distances = {edge: 1 / hangout_count for edge, hangout_count in
    zip(G.edges, hangout_counts)}]; [G_edges] is [G.edges], the division is
    numpy's. *)
Definition social_distances (G_edges : list (node * node))
  : M rng (list ((node * node) * float64)) :=
  fun st =>
    let (hangout_counts, st') := rng_randint st 1 100 (List.length G_edges) in
    Ok (map (fun p => (fst p, f_div (Fin 1) (Fin (IZR (snd p)))))
          (combine G_edges hangout_counts), st').

End MoreCells.

Arguments sample_all {rng} rng_permutation {A} rows st.
Arguments routes_table {rng} rng_permutation n paths paths_per st.
Arguments social_distances {rng} rng_randint G_edges st.

(** ** Vocabulary of the properties *)

(** The sum of a list of reals, as mathematics writes it. *)
Definition Rsum (l : list R) : R := fold_right Rplus 0%R l.

(** The edge carries a ["length"] attribute. *)
Definition has_length (e : edge) : Prop :=
  exists l, get_attr "length" (edge_data e) = Some l.

(** A route the efficiency computation is meant for: at least two nodes, and
    every consecutive pair joined by at least one edge, each of the parallel
    edges carrying a ["length"]. *)
Definition valid_route (G : graph) (r : route) : Prop :=
  (2 <= List.length r)%nat /\
  Forall (fun uv =>
            parallel_edges G (fst uv) (snd uv) <> [] /\
            Forall has_length (parallel_edges G (fst uv) (snd uv)))
    (pairs r).

(** [e] is an edge from [u] to [v] of least ["length"] among the parallel
    ones: the edge traversed between two consecutive nodes of a route. *)
Definition traversed (G : graph) (uv : node * node) (e : edge) (l : R) : Prop :=
  In e (parallel_edges G (fst uv) (snd uv)) /\
  get_attr "length" (edge_data e) = Some l /\
  forall e' l', In e' (parallel_edges G (fst uv) (snd uv)) ->
                get_attr "length" (edge_data e') = Some l' -> (l <= l')%R.

(** Every two consecutive nodes of the route are joined by an edge of [G]:
    what a routing oracle promises of the routes it returns. *)
Definition follows_edges (G : graph) (r : route) : Prop :=
  Forall (fun uv => parallel_edges G (fst uv) (snd uv) <> []) (pairs r).

(** The edges of [G] join nodes of [G]. *)
Definition edges_closed (G : graph) : Prop :=
  forall e, In e (edges G) -> In (edge_u e) (node_ids G) /\ In (edge_v e) (node_ids G).

(** An oracle result that counts as a solved trip: a route, not [None], of
    at least two nodes. *)
Definition is_solved (p : option route) : bool :=
  match p with
  | Some r => (2 <=? List.length r)%nat
  | None => false
  end.

(** [p'] is the copy in [h2] of the dictionary entry [p] of [h]: same key, a
    location allocated after [h], the same entries. *)
Definition copied {K : Type} (h h2 : heap) (p p' : K * loc) : Prop :=
  fst p' = fst p /\
  (List.length h <= snd p' < List.length h2)%nat /\
  dict_at h2 (snd p') = dict_at h (snd p).

Definition is_dict (h : heap) (l : loc) : Prop :=
  exists entries, nth_error h l = Some (ODict entries).

(** The store a graph lives in is well formed: [G] refers to a graph object,
    its tables refer to dictionaries, and the references those hold refer to
    list objects. *)
Definition wf_store (h : heap) (G : loc) : Prop :=
  (exists ns es, nth_error h G = Some (OGraph ns es)) /\
  (forall l, In l (graph_dicts h G) -> is_dict h l) /\
  (forall l, In l (graph_values h G) -> exists items, nth_error h l = Some (OList items)).

(** The exact product [N * x] of an integer and a finite float, rounded down
    and rounded up to an integer; [None] for an infinity or [nan]. *)
Definition exact_product_floor (N : Z) (x : float) : option Z :=
  match Prim2SF x with
  | S754_zero _ => Some 0
  | S754_finite s m e =>
      let num := N * (if s then Zneg m else Zpos m) in
      Some (if 0 <=? e then num * 2 ^ e else num / 2 ^ (- e))
  | _ => None
  end.

Definition exact_product_ceil (N : Z) (x : float) : option Z :=
  match Prim2SF x with
  | S754_zero _ => Some 0
  | S754_finite s m e =>
      let num := N * (if s then Zneg m else Zpos m) in
      Some (if 0 <=? e then num * 2 ^ e else - ((- num) / 2 ^ (- e)))
  | _ => None
  end.

(** The node found for a query point is a nearest one: a node of the graph
    no node of which is nearer to [(X, Y)] by great-circle distance. *)
Definition is_nearest (G : graph) (X Y : R) (n : node) : Prop :=
  exists d, In (n, d) (nodes G) /\
    forall m d', In (m, d') (nodes G) ->
      (great_circle Y X (node_y d) (node_x d) <=
       great_circle Y X (node_y d') (node_x d'))%R.

(** What the routing cells hold for a row: the route the oracle finds
    between a node nearest to the row's home and a node nearest to its
    workplace, both looked up in the graph being simulated. *)
Definition row_route (shortest_path : graph -> node -> node -> string -> option route)
  (G : graph) (row : od_row) (p : option route) : Prop :=
  exists h w,
    nearest_node G (home_lng row) (home_lat row) = Ok h /\
    nearest_node G (work_lng row) (work_lat row) = Ok w /\
    is_nearest G (home_lng row) (home_lat row) h /\
    is_nearest G (work_lng row) (work_lat row) w /\
    p = shortest_path G h w "travel_time"%string.

(** The position of a label among the labels. *)
Fixpoint index_of (x : node) (l : list node) : nat :=
  match l with
  | [] => 0%nat
  | y :: l' => if x =? y then 0%nat else S (index_of x l')
  end.

Definition same_nats (a b : list nat) : bool :=
  if list_eq_dec Nat.eq_dec a b then true else false.

Definition same_nodes (a b : list node) : bool :=
  if list_eq_dec Z.eq_dec a b then true else false.

(** How many members of a list pass a test. *)
Definition tally {A : Type} (P : A -> bool) (l : list A) : nat :=
  List.length (filter P l).

(** How many of the states shuffle [0 .. N-1] into a permutation that
    starts with [p]. *)
Definition prefix_tally {S : Type} (perm : S -> list nat) (states : list S)
  (p : list nat) : nat :=
  tally (fun st => same_nats (firstn (List.length p) (perm st)) p) states.

(** [n] distinct positions below [N], in some order. *)
Definition arrangement (N n : nat) (p : list nat) : Prop :=
  NoDup p /\ List.length p = n /\ forall x, In x p -> (x < N)%nat.

(** The positions below [N] that [p] does not hold. *)
Definition unused_positions (N : nat) (p : list nat) : list nat :=
  filter (fun x => negb (existsb (Nat.eqb x) p)) (seq 0 N).

(** The random state shuffles [0 .. N-1] uniformly, as far as a finite
    family [states] of equally likely states tells: every permutation is the
    shuffle of the same number of them. *)
Definition uniform_permutations {rng : Type}
  (rng_permutation : rng -> nat -> list nat * rng) (states : list rng) (N : nat) : Prop :=
  forall p q, Permutation p (seq 0 N) -> Permutation q (seq 0 N) ->
    tally (fun st => same_nats (fst (rng_permutation st N)) p) states =
    tally (fun st => same_nats (fst (rng_permutation st N)) q) states.

(** From how many of the states the perturbation cell removes exactly the
    nodes [s], in that order. *)
Definition times_removed {rng : Type}
  (rng_permutation : rng -> nat -> list nat * rng) (states : list rng)
  (G : graph) (frac : float) (s : list node) : nat :=
  tally (fun st => match perturb rng_permutation G frac st with
                   | Ok ((removed, _), _) => same_nodes removed s
                   | Raise _ => false
                   end) states.

(** The removed nodes of a run of the perturbation cell. *)
Definition removed_nodes {rng : Type} (r : result ((list node * graph) * rng))
  : result (list node) :=
  match r with
  | Ok ((removed, _), _) => Ok removed
  | Raise e => Raise e
  end.

(** What a run from the seeding to the perturbation shows of the sampling:
    the removed nodes and the random state left behind. *)
Definition removed_and_state {rng : Type}
  (r : result ((list od_row * (list node * graph)) * rng)) : result (list node * rng) :=
  match r with
  | Ok ((_, (removed, _)), st') => Ok (removed, st')
  | Raise e => Raise e
  end.

(** Replace the powers of two of a goal by variables, for [lia]. *)
Ltac hide_pow :=
  repeat match goal with
         | |- context [2 ^ ?e] => let a := fresh "pw" in set (a := 2 ^ e) in *; clearbody a
         | H : context [2 ^ ?e] |- _ => let a := fresh "pw" in set (a := 2 ^ e) in *; clearbody a
         end.

(** Evaluate the efficiency computation on a concrete graph and route. *)
Ltac eval_route := unfold calc_efficiency, trip_distance, py_sum; simpl.

Ltac wf_by_cases :=
  split;
  [ simpl; repeat constructor; simpl; intuition lia
  | let e := fresh "e" in let He := fresh "He" in
    intros e He; simpl in He;
    repeat (destruct He as [<- | He]; [simpl; intuition lia|]); destruct He ].

(** ** Example networks *)

(** An edge of unit length and unit travel time. *)
Definition unit_edge (u v : node) : edge :=
  mk_edge u v 0 [("length"%string, 1%R); ("travel_time"%string, 1%R)].

(** The four corners of a one-degree square, joined both ways along its
    sides. *)
Definition square_graph : graph :=
  mk_graph
    [(1, mk_node_data 0 0); (2, mk_node_data 0 1);
     (3, mk_node_data 1 1); (4, mk_node_data 1 0)]
    [unit_edge 1 2; unit_edge 2 1; unit_edge 2 3; unit_edge 3 2;
     unit_edge 3 4; unit_edge 4 3; unit_edge 4 1; unit_edge 1 4].

(** Two nodes joined both ways: a route can go out and come back. *)
Definition loop_graph : graph :=
  mk_graph
    [(1, mk_node_data 0 0); (2, mk_node_data 0 1)]
    [unit_edge 1 2; unit_edge 2 1].

(** The great-circle distance from longitude 0 to longitude 180 on the
    equator. *)
Definition half_equator : R := great_circle 0 0 0 180.

Definition arc_edge (u v : node) : edge :=
  mk_edge u v 0 [("length"%string, (half_equator / 2)%R)].

(** Half of the equator in two edges whose lengths add up to the
    great-circle distance between the ends. *)
Definition arc_graph : graph :=
  mk_graph
    [(1, mk_node_data 0 0); (2, mk_node_data 0 90); (3, mk_node_data 0 180)]
    [arc_edge 1 2; arc_edge 2 3].

(** Two nodes at the same place, joined by an edge of length zero. *)
Definition coincident_graph : graph :=
  mk_graph
    [(1, mk_node_data 0 0); (2, mk_node_data 0 0)]
    [mk_edge 1 2 0 [("length"%string, 0%R)]].

(** A single node with a self-loop. *)
Definition selfloop_graph : graph :=
  mk_graph [(1, mk_node_data 0 0)] [unit_edge 1 1].

(** A stand-in for the random state in the examples: a counter, whose
    permutation of [0 .. n-1] is the rotation by the counter. *)
Definition rot_permutation (st : nat) (n : nat) : list nat * nat :=
  (skipn (st mod n) (seq 0 n) ++ firstn (st mod n) (seq 0 n), S st).

(** A stand-in for the routing oracle in the examples: the direct edge, when
    there is one. *)
Definition direct_path (G : graph) (orig dest : node) (weight : string) : option route :=
  if orig =? dest then Some [orig]
  else match parallel_edges G orig dest with
       | [] => None
       | _ => Some [orig; dest]
       end.

(** A store holding a graph of two nodes and one edge whose ["osmid"] is a
    list: the list at 0, the node dictionaries at 1 and 2, the edge dictionary
    at 3, the graph at 4. *)
Definition shared_heap : heap :=
  [ OList [101; 102];
    ODict [("y"%string, VNum 0); ("x"%string, VNum 0)];
    ODict [("y"%string, VNum 0); ("x"%string, VNum 1)];
    ODict [("length"%string, VNum 1); ("osmid"%string, VRef 0%nat)];
    OGraph [(1, 1%nat); (2, 2%nat)] [(1, 2, 0, 3%nat)] ].

Definition shared_G : loc := 4%nat.

(** Where the shared list of [shared_heap] lives. *)
Definition shared_list : loc := 0%nat.

(** A stand-in for [randint] in the examples: the counter's state folded
    into the range, the same value for every draw. *)
Definition const_randint (st : nat) (low high : Z) (size : nat) : list Z * nat :=
  (repeat (low + Z.of_nat st mod (high - low)) size, S st).

(** [n] nodes numbered from 1, all at the same place, and no edge. *)
Definition dots (n : nat) : graph :=
  mk_graph (map (fun i => (Z.of_nat i, mk_node_data 0 0)) (seq 1 n)) [].

(** The nodes of the square, without its edges. *)
Definition square_dots : graph := mk_graph (nodes square_graph) [].

(** A stand-in for the seeding in the examples: the seed is the counter. *)
Definition counter_seed (s : Z) : nat := Z.to_nat s.

(** * Properties *)

(** ** Routes and their consecutive pairs *)

Lemma pairs_cons2 (a b : node) (r : route) :
  pairs (a :: b :: r) = (a, b) :: pairs (b :: r).
Proof. reflexivity. Qed.

Lemma pairs_in_route (r : route) (uv : node * node) :
  In uv (pairs r) -> In (fst uv) r /\ In (snd uv) r.
Proof.
  induction r as [|a [|b r'] IH]; try (simpl; tauto).
  rewrite pairs_cons2. intros [<- | Hin].
  - simpl. auto.
  - destruct (IH Hin) as [H1 H2]. split; right; assumption.
Qed.

Lemma route_node_in_pair (r : route) (n : node) :
  (2 <= List.length r)%nat -> In n r ->
  exists uv, In uv (pairs r) /\ (fst uv = n \/ snd uv = n).
Proof.
  induction r as [|a [|b r'] IH]; simpl List.length; try lia.
  intros _ Hn. rewrite pairs_cons2.
  destruct Hn as [<- | Hn].
  - exists (a, b). simpl. auto.
  - destruct r' as [|c r''].
    + destruct Hn as [<- | []]. exists (a, b). simpl. auto.
    + destruct (IH ltac:(simpl; lia) Hn) as (uv & Hin & Huv).
      exists uv. split; [right; exact Hin | exact Huv].
Qed.

Lemma mem_In (n : node) (l : list node) : mem n l = true <-> In n l.
Proof.
  unfold mem. rewrite existsb_exists. split.
  - intros (m & Hin & Heq). apply Z.eqb_eq in Heq. now subst.
  - intros Hin. exists n. split; [assumption | apply Z.eqb_refl].
Qed.

Lemma parallel_edges_In (G : graph) (u v : node) (e : edge) :
  In e (parallel_edges G u v) <-> In e (edges G) /\ edge_u e = u /\ edge_v e = v.
Proof.
  unfold parallel_edges. rewrite filter_In, andb_true_iff, !Z.eqb_eq. tauto.
Qed.

Lemma get_node_In (n : node) (l : list (node * node_data)) :
  In n (map fst l) -> exists d, get_node n l = Some d.
Proof.
  induction l as [|[n' d] l IH]; simpl; [tauto|].
  intros [-> | Hin].
  - rewrite Z.eqb_refl. eauto.
  - destruct (n =? n'); eauto.
Qed.

Lemma get_node_Some_In (n : node) (l : list (node * node_data)) (d : node_data) :
  get_node n l = Some d -> In (n, d) l.
Proof.
  induction l as [|[n' d'] l IH]; simpl; [discriminate|].
  destruct (n =? n') eqn:E.
  - apply Z.eqb_eq in E. intros [= ->]. subst. now left.
  - intros H. right. auto.
Qed.

(** ** Arithmetic of the float model *)

Lemma py_sum_from (l : list R) (acc : R) :
  fold_left f_add (map Fin l) (Fin acc) = Fin (acc + Rsum l).
Proof.
  revert acc. induction l as [|a l IH]; intros acc; simpl.
  - f_equal. lra.
  - rewrite IH. f_equal. lra.
Qed.

Lemma py_sum_Fin (l : list R) : py_sum (map Fin l) = Fin (Rsum l).
Proof. unfold py_sum. rewrite py_sum_from. f_equal. lra. Qed.

Lemma f_div_Fin (a b : R) : b <> 0%R -> f_div (Fin a) (Fin b) = Fin (a / b).
Proof.
  intros Hb. unfold f_div. destruct (Req_EM_T b 0) as [E|_]; [contradiction|reflexivity].
Qed.

Lemma f_div_zero (a : R) : is_finite (f_div (Fin a) (Fin 0)) = false.
Proof.
  unfold f_div. destruct (Req_EM_T 0 0) as [_|N]; [|now elim N].
  destruct (Req_EM_T a 0); [reflexivity|].
  unfold inf_of_sign. destruct (Rlt_dec a 0); reflexivity.
Qed.

(** ** The great-circle distance *)

Lemma great_circle_nonneg (lat1 lon1 lat2 lon2 : R) :
  (0 <= great_circle lat1 lon1 lat2 lon2)%R.
Proof.
  unfold great_circle. cbv zeta.
  set (h := Rmin 1 _).
  assert (Hh0 : (0 <= sqrt h)%R) by apply sqrt_pos.
  assert (Hh1 : (sqrt h <= 1)%R).
  { rewrite <- sqrt_1. apply sqrt_le_1_alt. apply Rmin_l. }
  assert (Ha : (0 <= asin (sqrt h))%R).
  { destruct (Rle_dec 0 (asin (sqrt h))) as [Hle | Hneg]; [exact Hle|].
    pose proof (asin_bound (sqrt h)) as Hb.
    pose proof PI_RGT_0 as Hpi.
    assert (Hs : (sin (asin (sqrt h)) < 0)%R) by (apply sin_lt_0_var; lra).
    rewrite sin_asin in Hs by lra. lra. }
  unfold EARTH_RADIUS_M. nra.
Qed.

Lemma great_circle_same (lat lon : R) : great_circle lat lon lat lon = 0%R.
Proof.
  unfold great_circle. cbv zeta.
  replace (deg2rad lat - deg2rad lat)%R with 0%R by lra.
  replace (deg2rad lon - deg2rad lon)%R with 0%R by lra.
  replace (0 / 2)%R with 0%R by lra.
  rewrite sin_0. unfold Rsqr.
  replace (0 * 0 + cos (deg2rad lat) * cos (deg2rad lat) * (0 * 0))%R with 0%R by lra.
  rewrite Rmin_right by lra.
  rewrite sqrt_0, asin_0. lra.
Qed.

(** ** The rows of a valid route *)

Lemma mapM_Forall {A B : Type} (f : A -> result B) (P : A -> B -> Prop) (l : list A) :
  Forall (fun a => exists b, f a = Ok b /\ P a b) l ->
  exists bs, mapM f l = Ok bs /\ Forall2 P l bs.
Proof.
  induction 1 as [|a l (b & Hb & HP) _ (bs & Hbs & HF)]; simpl.
  - exists []. split; [reflexivity | constructor].
  - exists (b :: bs). rewrite Hb. simpl. rewrite Hbs. simpl.
    split; [reflexivity | now constructor].
Qed.

Lemma min_by_weight_spec (weight : string) (l : list edge) :
  forall (best : edge) (bw : R),
    get_attr weight (edge_data best) = Some bw ->
    Forall (fun e => exists w, get_attr weight (edge_data e) = Some w) l ->
    exists e w,
      min_by_weight weight best bw l = Ok e /\
      In e (best :: l) /\
      get_attr weight (edge_data e) = Some w /\
      (w <= bw)%R /\
      forall e' w', In e' l -> get_attr weight (edge_data e') = Some w' -> (w <= w')%R.
Proof.
  induction l as [|a l IH]; intros best bw Hbest Hall.
  - exists best, bw. simpl.
    split; [reflexivity|]. split; [now left|]. split; [exact Hbest|].
    split; [lra|]. intros e' w' [].
  - inversion Hall as [|? ? (wa & Hwa) Hall']; subst. simpl. rewrite Hwa.
    destruct (Rlt_dec wa bw) as [Hlt | Hge].
    + destruct (IH a wa Hwa Hall') as (e & w & Hmin & Hin & Hw & Hle & Hleast).
      exists e, w.
      split; [exact Hmin|]. split; [right; exact Hin|]. split; [exact Hw|].
      split; [lra|].
      intros e' w' [<- | Hin'] Hw'; [|eauto].
      rewrite Hwa in Hw'. injection Hw' as <-. exact Hle.
    + destruct (IH best bw Hbest Hall') as (e & w & Hmin & Hin & Hw & Hle & Hleast).
      exists e, w.
      split; [exact Hmin|].
      split; [destruct Hin as [<- | Hin]; [now left | right; now right]|].
      split; [exact Hw|]. split; [exact Hle|].
      intros e' w' [<- | Hin'] Hw'; [|eauto].
      rewrite Hwa in Hw'. injection Hw' as <-. lra.
Qed.

Lemma pick_edge_traversed (G : graph) (uv : node * node) :
  parallel_edges G (fst uv) (snd uv) <> [] ->
  Forall has_length (parallel_edges G (fst uv) (snd uv)) ->
  exists el, pick_edge G "length" uv = Ok (fst el) /\ traversed G uv (fst el) (snd el).
Proof.
  unfold pick_edge, traversed.
  destruct (parallel_edges G (fst uv) (snd uv)) as [|e0 l]; [congruence|].
  intros _ Hall. inversion Hall as [|? ? (w0 & Hw0) Hall']; subst.
  rewrite Hw0.
  destruct (min_by_weight_spec "length" l e0 w0 Hw0 Hall')
    as (e & w & Hmin & Hin & Hw & Hle & Hleast).
  exists (e, w). simpl.
  split; [exact Hmin|]. split; [exact Hin|]. split; [exact Hw|].
  intros e' l' [<- | Hin'] Hl'; [|eauto].
  rewrite Hw0 in Hl'. injection Hl' as <-. exact Hle.
Qed.

Lemma route_to_gdf_valid (G : graph) (r : route) :
  valid_route G r ->
  exists els : list (edge * R),
    route_to_gdf G r "length" = Ok (map fst els) /\
    Forall2 (fun uv el => traversed G uv (fst el) (snd el)) (pairs r) els /\
    column G r (map fst els) "length" = Ok (map Fin (map snd els)).
Proof.
  intros [Hlen Hall].
  assert (Hpick : Forall (fun uv => exists el, pick_edge G "length" uv = Ok (fst el) /\
                                   traversed G uv (fst el) (snd el)) (pairs r)).
  { eapply Forall_impl; [|exact Hall]. intros uv [Hne Hl].
    now apply pick_edge_traversed. }
  assert (Hels : exists els, mapM (pick_edge G "length") (pairs r) = Ok (map fst els) /\
                 Forall2 (fun uv el => traversed G uv (fst el) (snd el)) (pairs r) els).
  { clear Hall Hlen. induction Hpick as [|uv l (el & Hp & Ht) _ (els & Hm & HF)]; simpl.
    - exists []. split; [reflexivity | constructor].
    - exists (el :: els). rewrite Hp. simpl. rewrite Hm. simpl.
      split; [reflexivity | now constructor]. }
  destruct Hels as (els & Hm & HF).
  (* the first pair's edge lies in the subgraph and carries a length *)
  assert (Hsub : exists e l, In e (subgraph_edges G r) /\
                             get_attr "length" (edge_data e) = Some l).
  { destruct r as [|a [|b r']]; simpl in Hlen; try lia.
    rewrite pairs_cons2 in HF. inversion HF as [|? el ? ? (Hin & Hl & _) _]; subst.
    exists (fst el), (snd el). split; [|exact Hl].
    apply parallel_edges_In in Hin. destruct Hin as (HinG & Hu & Hv). simpl in Hu, Hv.
    unfold subgraph_edges. apply filter_In. split; [exact HinG|].
    rewrite Hu, Hv. simpl. rewrite !Z.eqb_refl. simpl. now rewrite orb_true_r. }
  destruct Hsub as (e & l & Hin & Hl).
  exists els. split; [|split; [exact HF|]].
  - unfold route_to_gdf. destruct (subgraph_edges G r); [destruct Hin | exact Hm].
  - unfold column.
    replace (existsb _ (subgraph_edges G r)) with true.
    2:{ symmetry. apply existsb_exists. exists e. rewrite Hl. auto. }
    f_equal. rewrite !map_map.
    clear - HF. induction HF as [|uv el ? ? (_ & Hl & _) _ IH]; simpl; [reflexivity|].
    rewrite Hl. now f_equal.
Qed.

(** The ends of a valid route are nodes of a well-formed graph. *)
Lemma valid_route_ends (G : graph) (r : route) :
  wf_graph G -> valid_route G r ->
  exists n0 d0 d1,
    hd_error r = Some n0 /\
    route_first r = Ok n0 /\ route_last r = Ok (last r n0) /\
    G_nodes G n0 = Ok d0 /\ G_nodes G (last r n0) = Ok d1 /\
    In (n0, d0) (nodes G) /\ In (last r n0, d1) (nodes G).
Proof.
  intros [_ Hwf] [Hlen Hall].
  assert (Hnode : forall n, In n r -> In n (node_ids G)).
  { intros n Hn. destruct (route_node_in_pair r n Hlen Hn) as (uv & Hin & Hfs).
    rewrite Forall_forall in Hall. destruct (Hall uv Hin) as [Hne _].
    destruct (parallel_edges G (fst uv) (snd uv)) as [|e l] eqn:E; [congruence|].
    assert (He : In e (parallel_edges G (fst uv) (snd uv))) by (rewrite E; now left).
    apply parallel_edges_In in He. destruct He as (HeG & Hu & Hv).
    destruct (Hwf e HeG) as [H1 H2]. destruct Hfs as [<- | <-]; congruence. }
  destruct r as [|n0 r']; simpl in Hlen; [lia|].
  assert (H0 : In n0 (n0 :: r')) by now left.
  assert (H1 : In (last (n0 :: r') n0) (n0 :: r')).
  { destruct r' as [|b r'']; [now left|]. right.
    change (last (n0 :: b :: r'') n0) with (last (b :: r'') n0).
    clear. revert b. induction r'' as [|c r IH]; intros b; [now left|].
    change (last (b :: c :: r) n0) with (last (c :: r) n0). right. apply IH. }
  destruct (get_node_In _ _ (Hnode _ H0)) as [d0 Hd0].
  destruct (get_node_In _ _ (Hnode _ H1)) as [d1 Hd1].
  exists n0, d0, d1. unfold G_nodes. rewrite Hd0, Hd1.
  repeat split; auto using get_node_Some_In.
  simpl. f_equal. destruct r'; reflexivity.
Qed.

(** What [calc_efficiency] returns on a valid route. *)
Lemma calc_efficiency_valid (G : graph) (r : route) :
  wf_graph G -> valid_route G r ->
  exists (els : list (edge * R)) (n0 : node) (d0 d1 : node_data),
    Forall2 (fun uv el => traversed G uv (fst el) (snd el)) (pairs r) els /\
    hd_error r = Some n0 /\
    In (n0, d0) (nodes G) /\ In (last r n0, d1) (nodes G) /\
    trip_distance G r "length" = Ok (Fin (Rsum (map snd els))) /\
    calc_efficiency G r "length" =
      Ok (f_div (Fin (great_circle (node_y d0) (node_x d0) (node_y d1) (node_x d1)))
            (Fin (Rsum (map snd els)))).
Proof.
  intros Hwf Hval.
  destruct (route_to_gdf_valid G r Hval) as (els & Hgdf & HF & Hcol).
  destruct (valid_route_ends G r Hwf Hval)
    as (n0 & d0 & d1 & Hhd & Hfirst & Hlast & Hg0 & Hg1 & Hin0 & Hin1).
  exists els, n0, d0, d1. repeat split; auto.
  - unfold trip_distance. rewrite Hgdf. simpl. rewrite Hcol. simpl.
    now rewrite py_sum_Fin.
  - unfold calc_efficiency, trip_distance. rewrite Hgdf. simpl. rewrite Hcol. simpl.
    rewrite Hfirst. simpl. rewrite Hg0. simpl. rewrite Hlast. simpl. rewrite Hg1. simpl.
    now rewrite py_sum_Fin.
Qed.

(** ** Efficiency of a valid route *)

(** C1.  On a well-formed graph, for a route of at least two nodes whose
    consecutive pairs are joined by edges carrying a ["length"],
    [calc_efficiency] returns (it does not raise) the great-circle distance
    between the coordinates of the route's first and last node divided by the
    sum of the ["length"] of the edges traversed, one per consecutive pair (of
    parallel edges, one of least length).  The division is the float division:
    when the sum is not zero the result is the real quotient. *)
Theorem C1_efficiency_is_great_circle_over_trip_distance (G : graph) (r : route) :
  wf_graph G -> valid_route G r ->
  exists (els : list (edge * R)) (n0 : node) (d0 d1 : node_data),
    Forall2 (fun uv el => traversed G uv (fst el) (snd el)) (pairs r) els /\
    hd_error r = Some n0 /\
    In (n0, d0) (nodes G) /\ In (last r n0, d1) (nodes G) /\
    let trip := Rsum (map snd els) in
    let gc := great_circle (node_y d0) (node_x d0) (node_y d1) (node_x d1) in
    calc_efficiency G r "length" = Ok (f_div (Fin gc) (Fin trip)) /\
    (trip <> 0%R -> calc_efficiency G r "length" = Ok (Fin (gc / trip))).
Proof.
  intros Hwf Hval.
  destruct (calc_efficiency_valid G r Hwf Hval)
    as (els & n0 & d0 & d1 & HF & Hhd & Hin0 & Hin1 & _ & Heff).
  exists els, n0, d0, d1. cbv zeta.
  split; [exact HF|]. split; [exact Hhd|]. split; [exact Hin0|]. split; [exact Hin1|].
  split; [exact Heff|].
  intros Hne. rewrite Heff. now rewrite f_div_Fin.
Qed.

Lemma square_graph_wf : wf_graph square_graph.
Proof.
  split.
  - simpl. repeat constructor; simpl; intuition lia.
  - intros e He. simpl in He.
    repeat (destruct He as [<- | He]; [simpl; intuition lia|]). destruct He.
Qed.

Lemma unit_edge_has_length (u v : node) : has_length (unit_edge u v).
Proof. exists 1%R. reflexivity. Qed.

Lemma square_route_valid : valid_route square_graph [1; 2; 3].
Proof.
  split; [simpl; lia|].
  repeat constructor; simpl; try discriminate; apply unit_edge_has_length.
Qed.

(** The theorem at the route 1-2-3 along two sides of the square. *)
Lemma C1_witness :
  exists v, calc_efficiency square_graph [1; 2; 3] "length" = Ok v.
Proof.
  destruct (C1_efficiency_is_great_circle_over_trip_distance
              square_graph [1; 2; 3] square_graph_wf square_route_valid)
    as (els & n0 & d0 & d1 & _ & _ & _ & _ & Heff & _).
  eexists. exact Heff.
Defined.

Lemma half_equator_value : half_equator = (PI * EARTH_RADIUS_M)%R.
Proof.
  unfold half_equator, great_circle, deg2rad. cbv zeta.
  replace (0 * PI / 180 - 0 * PI / 180)%R with 0%R by lra.
  replace ((180 * PI / 180 - 0 * PI / 180) / 2)%R with (PI / 2)%R by lra.
  replace (0 / 2)%R with 0%R by lra.
  replace (0 * PI / 180)%R with 0%R by lra.
  rewrite sin_0, sin_PI2, cos_0. unfold Rsqr.
  replace (0 * 0 + 1 * 1 * (1 * 1))%R with 1%R by lra.
  rewrite Rmin_left by lra.
  rewrite sqrt_1, asin_1. lra.
Qed.

Lemma half_equator_pos : (0 < half_equator)%R.
Proof.
  rewrite half_equator_value. pose proof PI_RGT_0. unfold EARTH_RADIUS_M. nra.
Qed.

Lemma loop_graph_wf : wf_graph loop_graph.
Proof. wf_by_cases. Qed.

Lemma arc_graph_wf : wf_graph arc_graph.
Proof. wf_by_cases. Qed.

Lemma coincident_graph_wf : wf_graph coincident_graph.
Proof. wf_by_cases. Qed.

Lemma loop_route_valid : valid_route loop_graph [1; 2; 1].
Proof.
  split; [simpl; lia|].
  repeat constructor; simpl; try discriminate; apply unit_edge_has_length.
Qed.

Lemma arc_route_valid : valid_route arc_graph [1; 2; 3].
Proof.
  split; [simpl; lia|].
  repeat constructor; simpl; try discriminate; eexists; reflexivity.
Qed.

Lemma coincident_route_valid : valid_route coincident_graph [1; 2].
Proof.
  split; [simpl; lia|].
  repeat constructor; simpl; try discriminate; eexists; reflexivity.
Qed.

(** C2, as stated, fails twice.  A route that returns to its origin is valid
    and has a positive trip distance, yet its efficiency is 0, not above 0.
    And a route of two edges whose lengths add up to the great-circle distance
    between its ends has efficiency 1 without being a single segment. *)
Lemma C2_counterexample :
  (wf_graph loop_graph /\ valid_route loop_graph [1; 2; 1] /\
   trip_distance loop_graph [1; 2; 1] "length" = Ok (Fin 2) /\
   calc_efficiency loop_graph [1; 2; 1] "length" = Ok (Fin 0) /\
   ~ (0 < 0)%R) /\
  (wf_graph arc_graph /\ valid_route arc_graph [1; 2; 3] /\
   List.length (pairs [1; 2; 3]) = 2%nat /\
   trip_distance arc_graph [1; 2; 3] "length" = Ok (Fin half_equator) /\
   (0 < half_equator)%R /\
   calc_efficiency arc_graph [1; 2; 3] "length" = Ok (Fin 1)).
Proof.
  split.
  - split; [exact loop_graph_wf|]. split; [exact loop_route_valid|].
    split; [|split].
    + eval_route. do 2 f_equal. lra.
    + eval_route.
      rewrite great_circle_same, f_div_Fin by lra. do 2 f_equal. lra.
    + lra.
  - pose proof half_equator_pos as Hpos.
    split; [exact arc_graph_wf|]. split; [exact arc_route_valid|].
    split; [reflexivity|]. split; [|split; [exact Hpos|]].
    + eval_route. do 2 f_equal. lra.
    + eval_route.
      fold half_equator. rewrite f_div_Fin by lra. do 2 f_equal. field. lra.
Qed.

(** C2, amended.  For a valid route with a positive trip distance [d],
    [calc_efficiency] returns the quotient [gc / d] of the great-circle
    distance between the route's ends by [d]; the quotient is never negative,
    it is positive exactly when the great-circle distance is, and it is 1
    exactly when the trip distance equals the great-circle distance, as it
    does for a single segment whose edge length is that distance. *)
Theorem C2_efficiency_sign_and_unity (G : graph) (r : route) (d : R) :
  wf_graph G -> valid_route G r ->
  trip_distance G r "length" = Ok (Fin d) -> (0 < d)%R ->
  exists (n0 : node) (d0 d1 : node_data),
    hd_error r = Some n0 /\
    In (n0, d0) (nodes G) /\ In (last r n0, d1) (nodes G) /\
    let gc := great_circle (node_y d0) (node_x d0) (node_y d1) (node_x d1) in
    calc_efficiency G r "length" = Ok (Fin (gc / d)) /\
    (0 <= gc / d)%R /\
    ((0 < gc / d)%R <-> (0 < gc)%R) /\
    ((gc / d)%R = 1%R <-> gc = d).
Proof.
  intros Hwf Hval Htrip Hd.
  destruct (calc_efficiency_valid G r Hwf Hval)
    as (els & n0 & d0 & d1 & _ & Hhd & Hin0 & Hin1 & Htrip' & Heff).
  rewrite Htrip in Htrip'. injection Htrip' as Hsum.
  exists n0, d0, d1. cbv zeta.
  pose proof (great_circle_nonneg (node_y d0) (node_x d0) (node_y d1) (node_x d1)) as Hgc.
  set (gc := great_circle _ _ _ _) in *.
  split; [exact Hhd|]. split; [exact Hin0|]. split; [exact Hin1|].
  split; [rewrite Heff, <- Hsum; now rewrite f_div_Fin by lra|].
  assert (Hq : (gc / d * d = gc)%R) by (field; lra).
  split; [apply Rmult_le_reg_r with d; [exact Hd | lra]|].
  split; split; intros H.
  - nra.
  - apply Rmult_lt_reg_r with d; [exact Hd | lra].
  - rewrite H in Hq. lra.
  - rewrite H. field. lra.
Qed.

Lemma square_trip_distance :
  trip_distance square_graph [1; 2; 3] "length" = Ok (Fin (0 + 1 + 1)).
Proof. reflexivity. Qed.

(** The theorem at the route 1-2-3 of the square, whose trip distance is 2. *)
Lemma C2_witness :
  exists v, calc_efficiency square_graph [1; 2; 3] "length" = Ok (Fin v) /\ (0 <= v)%R.
Proof.
  destruct (C2_efficiency_sign_and_unity square_graph [1; 2; 3] (0 + 1 + 1)
              square_graph_wf square_route_valid square_trip_distance
              ltac:(lra))
    as (n0 & d0 & d1 & _ & _ & _ & Heff & Hnonneg & _).
  eexists. split; [exact Heff | exact Hnonneg].
Defined.

(** ** Degenerate routes *)

Lemma f_div_zero_zero : f_div (Fin 0) (Fin 0) = NaN.
Proof.
  unfold f_div. destruct (Req_EM_T 0 0) as [_|N]; [|now elim N]. reflexivity.
Qed.

Lemma selfloop_graph_wf : wf_graph selfloop_graph.
Proof. wf_by_cases. Qed.

(** Without a self-loop, fewer than two route nodes span no edge. *)
Lemma short_route_no_edges (G : graph) (r : route) :
  (List.length r < 2)%nat ->
  (forall e, In e (edges G) -> edge_u e <> edge_v e) ->
  subgraph_edges G r = [].
Proof.
  intros Hlen Hloop.
  destruct (subgraph_edges G r) as [|e l] eqn:E; [reflexivity|].
  assert (He : In e (subgraph_edges G r)) by (rewrite E; now left).
  unfold subgraph_edges in He. apply filter_In in He. destruct He as [HeG Hm].
  apply andb_true_iff in Hm. destruct Hm as [Hu Hv].
  apply mem_In in Hu. apply mem_In in Hv.
  destruct r as [|a [|b r']]; simpl in Hlen; try lia.
  - destruct Hu.
  - destruct Hu as [Hu | []]. destruct Hv as [Hv | []].
    exfalso. apply (Hloop e HeG). congruence.
Qed.

(** C6, as stated, fails.  An edge of length zero between two nodes at the
    same place gives a trip distance of 0, and the computation raises nothing:
    it returns [nan].  A route of one node raises nothing either when the node
    carries a self-loop: it returns [nan] too. *)
Lemma C6_counterexample :
  (wf_graph coincident_graph /\ valid_route coincident_graph [1; 2] /\
   trip_distance coincident_graph [1; 2] "length" = Ok (Fin 0) /\
   calc_efficiency coincident_graph [1; 2] "length" = Ok NaN) /\
  (wf_graph selfloop_graph /\ (List.length [1] < 2)%nat /\
   calc_efficiency selfloop_graph [1] "length" = Ok NaN).
Proof.
  split.
  - split; [exact coincident_graph_wf|]. split; [exact coincident_route_valid|].
    split.
    + eval_route. do 2 f_equal. lra.
    + eval_route. rewrite great_circle_same.
      replace (0 + 0)%R with 0%R by lra. now rewrite f_div_zero_zero.
  - split; [exact selfloop_graph_wf|]. split; [simpl; lia|].
    eval_route. rewrite great_circle_same. now rewrite f_div_zero_zero.
Qed.

(** C6, amended.  [calc_efficiency] validates nothing itself.  A route of
    fewer than two nodes fails only through the library call: on a graph
    without self-loops the route's nodes span no edge and [ValueError] is
    raised.  A valid route whose trip distance is 0 raises nothing: the
    division is the float division, and the value returned is [nan] or an
    infinity. *)
Theorem C6_degenerate_routes (G : graph) (r : route) :
  ((List.length r < 2)%nat ->
   (forall e, In e (edges G) -> edge_u e <> edge_v e) ->
   calc_efficiency G r "length" = Raise ValueError) /\
  (wf_graph G -> valid_route G r ->
   trip_distance G r "length" = Ok (Fin 0) ->
   exists v, calc_efficiency G r "length" = Ok v /\ is_finite v = false).
Proof.
  split.
  - intros Hlen Hloop.
    unfold calc_efficiency, trip_distance, route_to_gdf.
    now rewrite (short_route_no_edges G r Hlen Hloop).
  - intros Hwf Hval Htrip.
    destruct (calc_efficiency_valid G r Hwf Hval)
      as (els & n0 & d0 & d1 & _ & _ & _ & _ & Htrip' & Heff).
    rewrite Htrip in Htrip'. injection Htrip' as Hsum.
    rewrite <- Hsum in Heff.
    eexists. split; [exact Heff | apply f_div_zero].
Qed.

Lemma coincident_trip_distance :
  trip_distance coincident_graph [1; 2] "length" = Ok (Fin 0).
Proof. eval_route. do 2 f_equal. lra. Qed.

Lemma square_graph_no_selfloop (e : edge) :
  In e (edges square_graph) -> edge_u e <> edge_v e.
Proof.
  simpl. intros He.
  repeat (destruct He as [<- | He]; [simpl; lia|]). destruct He.
Qed.

(** The theorem at a one-node route on the square (no self-loops) and at the
    zero-length edge between coincident nodes. *)
Lemma C6_witness :
  calc_efficiency square_graph [1] "length" = Raise ValueError /\
  exists v, calc_efficiency coincident_graph [1; 2] "length" = Ok v /\
            is_finite v = false.
Proof.
  split.
  - apply (proj1 (C6_degenerate_routes square_graph [1])).
    + simpl. lia.
    + exact square_graph_no_selfloop.
  - apply (proj2 (C6_degenerate_routes coincident_graph [1; 2])).
    + exact coincident_graph_wf.
    + exact coincident_route_valid.
    + exact coincident_trip_distance.
Defined.

(** ** The before/after metrics *)

Lemma f_sub_not_finite (a b : float64) :
  is_finite b = false -> is_finite (f_sub a b) = false.
Proof. destruct a, b; simpl; auto; discriminate. Qed.

Lemma f_div_by_zero_not_finite (a : float64) :
  is_finite (f_div a (Fin 0)) = false.
Proof.
  destruct a as [r| | |]; [apply f_div_zero| | |reflexivity];
    unfold f_div, inf_of_sign; destruct (Rlt_dec 0 0); reflexivity.
Qed.

Lemma pd_mean_single (a : R) : pd_mean [Fin a] = Fin ((0 + a) / 1).
Proof.
  unfold pd_mean, py_sum. simpl. now rewrite f_div_Fin by lra.
Qed.

(** C9.  With at least one trip solved before the perturbation, the share of
    formerly solvable trips now unsolvable is [1 - solved_after /
    solved_before]; with a positive mean efficiency before, the relative
    degradation is [1 - mean_after / mean_before], the real quotient when the
    mean after is a number.  100 trips before and 80 after give 0.20.  With a
    zero denominator neither quantity is a number: the first raises
    [ZeroDivisionError], the second is [nan] or an infinity. *)
Theorem C9_before_after_metrics :
  (forall paths_per paths : list route,
      (0 < List.length paths)%nat ->
      fraction_unsolvable paths_per paths =
        Ok (Fin (1 - INR (List.length paths_per) / INR (List.length paths)))) /\
  (forall (eff_per eff : list float64) (mb : R),
      pd_mean eff = Fin mb -> (0 < mb)%R ->
      efficiency_degradation eff_per eff =
        f_sub (Fin 1) (f_div (pd_mean eff_per) (Fin mb)) /\
      forall ma, pd_mean eff_per = Fin ma ->
                 efficiency_degradation eff_per eff = Fin (1 - ma / mb)) /\
  (forall paths_per paths : list route,
      List.length paths = 100%nat -> List.length paths_per = 80%nat ->
      fraction_unsolvable paths_per paths = Ok (Fin 0.20)) /\
  (forall paths_per : list route,
      fraction_unsolvable paths_per [] = Raise ZeroDivisionError) /\
  (forall eff_per eff : list float64,
      pd_mean eff = Fin 0 ->
      is_finite (efficiency_degradation eff_per eff) = false).
Proof.
  assert (Hfrac : forall paths_per paths : list route,
             (0 < List.length paths)%nat ->
             fraction_unsolvable paths_per paths =
               Ok (Fin (1 - INR (List.length paths_per) / INR (List.length paths)))).
  { intros paths_per paths Hpos. unfold fraction_unsolvable, py_truediv.
    destruct (Z.of_nat (List.length paths) =? 0) eqn:E; [apply Z.eqb_eq in E; lia|].
    simpl. rewrite <- !INR_IZR_INZ. reflexivity. }
  split; [exact Hfrac|]. split; [|split; [|split]].
  - intros eff_per eff mb Hmb Hpos. unfold efficiency_degradation. rewrite Hmb.
    split; [reflexivity|]. intros ma Hma. rewrite Hma.
    rewrite f_div_Fin by lra. reflexivity.
  - intros paths_per paths H100 H80. rewrite Hfrac by lia.
    rewrite H100, H80. do 2 f_equal.
    change 100%nat with (Z.to_nat 100). change 80%nat with (Z.to_nat 80).
    rewrite !INR_IZR_INZ, !Z2Nat.id by lia. lra.
  - intros paths_per. reflexivity.
  - intros eff_per eff H0. unfold efficiency_degradation. rewrite H0.
    apply f_sub_not_finite, f_div_by_zero_not_finite.
Qed.

(** The theorem at one trip left of two, and at mean efficiencies 1 after
    and 2 before. *)
Lemma C9_witness :
  fraction_unsolvable [[1; 2]] [[1; 2]; [2; 3]] = Ok (Fin (1 - INR 1 / INR 2)) /\
  efficiency_degradation [Fin 1] [Fin 2] = Fin (1 - (0 + 1) / 1 / ((0 + 2) / 1)).
Proof.
  split.
  - apply (proj1 C9_before_after_metrics [[1; 2]] [[1; 2]; [2; 3]]). simpl. lia.
  - apply (proj1 (proj2 C9_before_after_metrics) [Fin 1] [Fin 2] ((0 + 2) / 1)%R).
    + apply pd_mean_single.
    + lra.
    + apply pd_mean_single.
Defined.

(** ** Copying a graph and removing nodes *)

Lemma copy_eq (G : graph) : copy G = G.
Proof.
  destruct G as [ns es]. unfold copy. simpl. f_equal.
  - induction ns as [|[n [y x]] ns IH]; simpl; [reflexivity | now rewrite IH].
  - induction es as [|[u v k d] es IH]; simpl; [reflexivity|].
    now rewrite IH, map_id.
Qed.

Lemma filter_filter {A : Type} (f g : A -> bool) (l : list A) :
  filter f (filter g l) = filter (fun a => g a && f a) l.
Proof.
  induction l as [|a l IH]; simpl; [reflexivity|].
  destruct (g a); simpl; [destruct (f a)|]; now rewrite IH.
Qed.

Lemma filter_partition_length {A : Type} (f : A -> bool) (l : list A) :
  (List.length (filter f l) + List.length (filter (fun a => negb (f a)) l)
   = List.length l)%nat.
Proof.
  induction l as [|a l IH]; simpl; [reflexivity|].
  destruct (f a); simpl; lia.
Qed.

Lemma remove_node_nodes (G : graph) (n : node) :
  nodes (remove_node G n) = filter (fun p => negb (fst p =? n)) (nodes G).
Proof.
  unfold remove_node. destruct (mem n (node_ids G)) eqn:E; [reflexivity|].
  symmetry. apply forallb_filter_id. apply forallb_forall. intros [m d] Hin. simpl.
  destruct (m =? n) eqn:Em; [|reflexivity].
  apply Z.eqb_eq in Em. subst m.
  assert (Hn : In n (node_ids G)) by (unfold node_ids; apply in_map_iff; now exists (n, d)).
  apply mem_In in Hn. congruence.
Qed.

Lemma remove_node_edges (G : graph) (n : node) :
  edges_closed G ->
  edges (remove_node G n) =
    filter (fun e => negb (edge_u e =? n) && negb (edge_v e =? n)) (edges G).
Proof.
  intros Hcl. unfold remove_node. destruct (mem n (node_ids G)) eqn:E; [reflexivity|].
  symmetry. apply forallb_filter_id. apply forallb_forall. intros e He.
  destruct (Hcl e He) as [Hu Hv].
  destruct (edge_u e =? n) eqn:Eu.
  { apply Z.eqb_eq in Eu. rewrite Eu in Hu. apply mem_In in Hu. congruence. }
  destruct (edge_v e =? n) eqn:Ev; [|reflexivity].
  apply Z.eqb_eq in Ev. rewrite Ev in Hv. apply mem_In in Hv. congruence.
Qed.

Lemma remove_node_closed (G : graph) (n : node) :
  edges_closed G -> edges_closed (remove_node G n).
Proof.
  intros Hcl e He. rewrite (remove_node_edges G n Hcl) in He.
  apply filter_In in He. destruct He as [He Hb].
  apply andb_true_iff in Hb. destruct Hb as [Hu Hv].
  apply negb_true_iff, Z.eqb_neq in Hu. apply negb_true_iff, Z.eqb_neq in Hv.
  destruct (Hcl e He) as [Iu Iv].
  unfold node_ids. rewrite remove_node_nodes. fold (node_ids G).
  unfold node_ids in *. rewrite !in_map_iff in *.
  destruct Iu as ([u du] & Hfu & Hinu). destruct Iv as ([v dv] & Hfv & Hinv).
  simpl in Hfu, Hfv. subst u v. split.
  - exists (edge_u e, du). split; [reflexivity|]. apply filter_In. split; [assumption|].
    simpl. now apply negb_true_iff, Z.eqb_neq.
  - exists (edge_v e, dv). split; [reflexivity|]. apply filter_In. split; [assumption|].
    simpl. now apply negb_true_iff, Z.eqb_neq.
Qed.

(** [remove_nodes_from] keeps exactly the nodes that are not listed. *)
Lemma remove_nodes_from_nodes (ns : list node) (G : graph) :
  nodes (remove_nodes_from G ns) = filter (fun p => negb (mem (fst p) ns)) (nodes G).
Proof.
  revert G. induction ns as [|n ns IH]; intros G; simpl.
  - symmetry. apply forallb_filter_id. apply forallb_forall. reflexivity.
  - unfold remove_nodes_from in *. simpl. rewrite IH, remove_node_nodes, filter_filter.
    apply filter_ext. intros [m d]. unfold mem. simpl.
    now rewrite negb_orb.
Qed.

(** ... and exactly the edges neither end of which is listed. *)
Lemma remove_nodes_from_edges (ns : list node) (G : graph) :
  edges_closed G ->
  edges (remove_nodes_from G ns) =
    filter (fun e => negb (mem (edge_u e) ns) && negb (mem (edge_v e) ns)) (edges G).
Proof.
  revert G. induction ns as [|n ns IH]; intros G Hcl; simpl.
  - symmetry. apply forallb_filter_id. apply forallb_forall. reflexivity.
  - unfold remove_nodes_from in *. simpl.
    rewrite IH by now apply remove_node_closed.
    rewrite (remove_node_edges G n Hcl), filter_filter.
    apply filter_ext. intros e. unfold mem. simpl. rewrite !negb_orb.
    destruct (edge_u e =? n), (edge_v e =? n),
      (existsb (Z.eqb (edge_u e)) ns), (existsb (Z.eqb (edge_v e)) ns);
      reflexivity.
Qed.

Lemma node_ids_filter (f : node -> bool) (l : list (node * node_data)) :
  map fst (filter (fun p => f (fst p)) l) = filter f (map fst l).
Proof.
  induction l as [|[n d] l IH]; simpl; [reflexivity|].
  destruct (f n); simpl; now rewrite IH.
Qed.

Lemma remove_nodes_from_node_ids (ns : list node) (G : graph) :
  node_ids (remove_nodes_from G ns) = filter (fun n => negb (mem n ns)) (node_ids G).
Proof.
  unfold node_ids. rewrite remove_nodes_from_nodes.
  apply (node_ids_filter (fun n => negb (mem n ns))).
Qed.

Lemma remove_nodes_from_closed (ns : list node) (G : graph) :
  edges_closed G -> edges_closed (remove_nodes_from G ns).
Proof.
  revert G. unfold remove_nodes_from.
  induction ns as [|n ns IH]; intros G Hcl; simpl; [exact Hcl|].
  apply IH. now apply remove_node_closed.
Qed.

(** Removing [k] distinct nodes of the graph leaves [k] nodes fewer. *)
Lemma length_filter_not_mem (l removed : list node) :
  NoDup l -> NoDup removed -> incl removed l ->
  (List.length (filter (fun n => negb (mem n removed)) l) + List.length removed
   = List.length l)%nat.
Proof.
  intros Hl Hr Hincl.
  pose proof (filter_partition_length (fun n => mem n removed) l) as Hpart.
  assert (Hperm : Permutation (filter (fun n => mem n removed) l) removed).
  { apply NoDup_Permutation; [now apply NoDup_filter | exact Hr |].
    intros x. rewrite filter_In, mem_In. split; [tauto|]. intros Hx. split; auto. }
  apply Permutation_length in Hperm. lia.
Qed.

(** ** Binary64: rounding a product and truncating it *)

Lemma pow2_pos (j : Z) : 0 <= j -> 0 < 2 ^ j.
Proof. intros H. apply Z.pow_pos_nonneg; lia. Qed.

Lemma pow2_split (a b : Z) : 0 <= a -> 0 <= b -> 2 ^ (a + b) = 2 ^ a * 2 ^ b.
Proof. intros. apply Z.pow_add_r; assumption. Qed.

Lemma fexp_eq (x : Z) : fexp prec emax x = Z.max (x - 53) (-1074).
Proof. reflexivity. Qed.

(** The number of binary digits of a mantissa. *)
Lemma digits2_pos_bounds (p : positive) :
  2 ^ (Zpos (digits2_pos p) - 1) <= Zpos p < 2 ^ Zpos (digits2_pos p).
Proof.
  induction p as [p IH | p IH |]; simpl digits2_pos.
  - rewrite Pos2Z.inj_succ, Pos2Z.inj_xI.
    replace (Z.succ (Zpos (digits2_pos p)) - 1) with (Z.succ (Zpos (digits2_pos p) - 1)) by lia.
    rewrite !Z.pow_succ_r by lia. hide_pow. lia.
  - rewrite Pos2Z.inj_succ, (Pos2Z.inj_xO p).
    replace (Z.succ (Zpos (digits2_pos p)) - 1) with (Z.succ (Zpos (digits2_pos p) - 1)) by lia.
    rewrite !Z.pow_succ_r by lia. hide_pow. lia.
  - simpl. lia.
Qed.

Lemma digits2_pos_le (p : positive) (j : Z) :
  0 <= j -> Zpos p < 2 ^ j -> Zpos (digits2_pos p) <= j.
Proof.
  intros Hj Hp. destruct (Z_le_gt_dec (Zpos (digits2_pos p)) j) as [H | H]; [exact H|].
  exfalso. pose proof (digits2_pos_bounds p) as [Hlo _].
  assert (2 ^ j <= 2 ^ (Zpos (digits2_pos p) - 1)) by (apply Z.pow_le_mono_r; lia).
  lia.
Qed.

(** One right shift halves the mantissa, and loses nothing of an even
    one. *)
Lemma shr_1_spec (m : Z) (r s : bool) :
  0 <= m ->
  shr_m (shr_1 (Build_shr_record m r s)) = m / 2 /\
  (r = false -> s = false -> m mod 2 = 0 ->
   shr_r (shr_1 (Build_shr_record m r s)) = false /\
   shr_s (shr_1 (Build_shr_record m r s)) = false).
Proof.
  intros Hm. destruct m as [|[p|p|]|p]; try lia; simpl shr_1; cbn [shr_m shr_r shr_s].
  - split; [reflexivity|]. intros -> -> _. auto.
  - split.
    + rewrite Pos2Z.inj_xI. apply Z.div_unique with 1; lia.
    + intros _ _ H. exfalso. rewrite Pos2Z.inj_xI in H.
      rewrite Z.add_comm, Z.mul_comm, Z.mod_add in H by lia. discriminate.
  - split; [|intros -> -> _; auto].
    rewrite (Pos2Z.inj_xO p). apply Z.div_unique with 0; lia.
  - split; [reflexivity|]. intros _ _ H. discriminate.
Qed.

Lemma div_pow2_twice (j m : Z) :
  0 < j -> 0 <= m ->
  m / 2 ^ j / 2 ^ j = m / 2 ^ (2 * j) /\
  (m mod 2 ^ (2 * j) = 0 -> m mod 2 ^ j = 0 /\ (m / 2 ^ j) mod 2 ^ j = 0).
Proof.
  intros Hj Hm. assert (Hp : 0 < 2 ^ j) by (apply pow2_pos; lia).
  replace (2 * j) with (j + j) by lia. rewrite pow2_split by lia.
  split; [apply Z.div_div; lia|].
  intros H. apply Z.mod_divide in H; [|lia]. destruct H as [c Hc]. subst m.
  split.
  - apply Z.mod_divide; [lia|]. exists (c * 2 ^ j). lia.
  - replace (c * (2 ^ j * 2 ^ j)) with (c * 2 ^ j * 2 ^ j) by lia.
    rewrite Z.div_mul by lia. apply Z.mod_mul. lia.
Qed.

(** [k] right shifts divide the mantissa by [2^k]; the round and sticky
    bits stay clear when the division is exact. *)
Lemma iter_shr_1 (k : positive) :
  forall (m : Z) (r s : bool),
    0 <= m ->
    shr_m (SpecFloat.iter_pos shr_1 k (Build_shr_record m r s)) = m / 2 ^ Zpos k /\
    (r = false -> s = false -> m mod 2 ^ Zpos k = 0 ->
     shr_r (SpecFloat.iter_pos shr_1 k (Build_shr_record m r s)) = false /\
     shr_s (SpecFloat.iter_pos shr_1 k (Build_shr_record m r s)) = false).
Proof.
  induction k as [k IH | k IH |]; intros m r s Hm; cbn [SpecFloat.iter_pos].
  - destruct (shr_1_spec m r s Hm) as [H1 H1e].
    destruct (shr_1 (Build_shr_record m r s)) as [m1 r1 s1]. cbn [shr_m shr_r shr_s] in *.
    assert (Hm1 : 0 <= m1) by (subst m1; apply Z.div_pos; lia).
    destruct (IH m1 r1 s1 Hm1) as [H2 H2e].
    destruct (SpecFloat.iter_pos shr_1 k (Build_shr_record m1 r1 s1)) as [m2 r2 s2].
    cbn [shr_m shr_r shr_s] in *.
    assert (Hp : 0 < 2 ^ Zpos k) by (apply pow2_pos; lia).
    assert (Hm2 : 0 <= m2) by (subst m2; apply Z.div_pos; lia).
    destruct (IH m2 r2 s2 Hm2) as [H3 H3e].
    destruct (div_pow2_twice (Zpos k) m1 ltac:(lia) Hm1) as [Hd Hde].
    assert (Hpow : 2 ^ Zpos k~1 = 2 * 2 ^ (2 * Zpos k)).
    { rewrite Pos2Z.inj_xI, Z.pow_add_r, Z.pow_1_r by lia. lia. }
    assert (Hp2 : 0 < 2 ^ (2 * Zpos k)) by (apply pow2_pos; lia).
    split.
    + rewrite H3, H2, Hd, H1, Hpow. apply Z.div_div; lia.
    + intros Hr Hs Hmod. rewrite Hpow in Hmod.
      apply Z.mod_divide in Hmod; [|lia]. destruct Hmod as [c Hc].
      assert (Hm2' : m mod 2 = 0).
      { apply Z.mod_divide; [lia|]. exists (c * 2 ^ (2 * Zpos k)). lia. }
      destruct (H1e Hr Hs Hm2') as [Hr1 Hs1].
      assert (Hm1' : m1 mod 2 ^ (2 * Zpos k) = 0).
      { subst m1. rewrite Hc.
        replace (c * (2 * 2 ^ (2 * Zpos k))) with (c * 2 ^ (2 * Zpos k) * 2) by lia.
        rewrite Z.div_mul by lia. apply Z.mod_mul. lia. }
      destruct (Hde Hm1') as [Ha Hb].
      destruct (H2e Hr1 Hs1 Ha) as [Hr2 Hs2].
      apply H3e; try assumption. rewrite H2. exact Hb.
  - destruct (IH m r s Hm) as [H2 H2e].
    destruct (SpecFloat.iter_pos shr_1 k (Build_shr_record m r s)) as [m2 r2 s2].
    cbn [shr_m shr_r shr_s] in *.
    assert (Hp : 0 < 2 ^ Zpos k) by (apply pow2_pos; lia).
    assert (Hm2 : 0 <= m2) by (subst m2; apply Z.div_pos; lia).
    destruct (IH m2 r2 s2 Hm2) as [H3 H3e].
    destruct (div_pow2_twice (Zpos k) m ltac:(lia) Hm) as [Hd Hde].
    rewrite (Pos2Z.inj_xO k). split.
    + rewrite H3, H2. exact Hd.
    + intros Hr Hs Hmod. destruct (Hde Hmod) as [Ha Hb].
      destruct (H2e Hr Hs Ha) as [Hr2 Hs2].
      apply H3e; try assumption. rewrite H2. exact Hb.
  - rewrite Z.pow_1_r. apply shr_1_spec. exact Hm.
Qed.

Lemma round_nearest_even_range (m : Z) (r s : bool) :
  let m2 := round_nearest_even m (loc_of_shr_record (Build_shr_record m r s)) in
  m <= m2 <= m + 1 /\ (r = false -> s = false -> m2 = m).
Proof.
  destruct r, s; simpl; try destruct (Z.even m); split; try lia; try discriminate; auto.
Qed.

(** First stage of the rounding of [M * 2^E], a value between the integers
    [L] and [B]: the shifted and rounded mantissa stays between [L] and [B]
    at the new exponent. *)
Lemma round_stage1 (M : positive) (E L B : Z) :
  E <= 0 -> B < 2 ^ 53 -> L * 2 ^ (- E) <= Zpos M <= B * 2 ^ (- E) ->
  forall mrs e1,
    shr_fexp prec emax (Zpos M) E loc_Exact = (mrs, e1) ->
    let m2 := round_nearest_even (shr_m mrs) (loc_of_shr_record mrs) in
    e1 <= 0 /\ L * 2 ^ (- e1) <= m2 <= B * 2 ^ (- e1).
Proof.
  intros HE HB [HL HM] mrs e1. unfold shr_fexp, shr. rewrite fexp_eq.
  cbn [shr_record_of_loc Zdigits2].
  assert (HpE : 0 < 2 ^ (- E)) by (apply pow2_pos; lia).
  assert (Hd : Zpos (digits2_pos M) <= 53 - E).
  { apply digits2_pos_le; [lia|]. replace (53 - E) with (53 + - E) by lia.
    rewrite pow2_split by lia.
    assert (B * 2 ^ (- E) < 2 ^ 53 * 2 ^ (- E)) by (apply Z.mul_lt_mono_pos_r; lia). lia. }
  destruct (Z.max (Zpos (digits2_pos M) + E - 53) (-1074) - E) as [|k|k] eqn:Hk.
  - intros [= <- <-]. simpl. lia.
  - intros [= <- <-].
    destruct (iter_shr_1 k (Zpos M) false false ltac:(lia)) as [Hm1 Hex].
    destruct (SpecFloat.iter_pos shr_1 k (Build_shr_record (Zpos M) false false)) as [m1 r1 s1].
    cbn [shr_m shr_r shr_s] in *.
    pose proof (round_nearest_even_range m1 r1 s1) as [Hrange Hexact].
    set (m2 := round_nearest_even m1 _) in *. cbv zeta.
    set (e1 := E + Zpos k) in *.
    assert (He1 : e1 <= 0) by lia.
    assert (Hpk : 0 < 2 ^ Zpos k) by (apply pow2_pos; lia).
    assert (Hpe : 0 < 2 ^ (- e1)) by (apply pow2_pos; lia).
    assert (Hsplit : 2 ^ (- E) = 2 ^ (- e1) * 2 ^ Zpos k).
    { rewrite <- pow2_split by lia. f_equal. lia. }
    rewrite Hsplit in HM, HL.
    assert (Hm1b : m1 <= B * 2 ^ (- e1)).
    { subst m1. apply Z.div_le_upper_bound; lia. }
    assert (Hm1l : L * 2 ^ (- e1) <= m1).
    { subst m1. apply Z.div_le_lower_bound; lia. }
    split; [exact He1|]. split; [lia|].
    destruct (Z.eq_dec m1 (B * 2 ^ (- e1))) as [Heq | Hne]; [|lia].
    assert (Hfull : Zpos M = B * 2 ^ (- e1) * 2 ^ Zpos k).
    { pose proof (Z.mul_div_le (Zpos M) (2 ^ Zpos k) Hpk) as Hle.
      rewrite <- Hm1, Heq in Hle. lia. }
    assert (Hmod : Zpos M mod 2 ^ Zpos k = 0) by (rewrite Hfull; apply Z.mod_mul; lia).
    destruct (Hex eq_refl eq_refl Hmod) as [-> ->].
    rewrite (Hexact eq_refl eq_refl). lia.
  - intros [= <- <-]. simpl. lia.
Qed.

Lemma magnitude_nonpos (m e : Z) :
  e <= 0 -> (if 0 <=? e then m * 2 ^ e else m / 2 ^ (- e)) = m / 2 ^ (- e).
Proof.
  intros He. destruct (0 <=? e) eqn:E0; [|reflexivity].
  apply Z.leb_le in E0. assert (e = 0) by lia. subst e. simpl.
  now rewrite Z.mul_1_r, Z.div_1_r.
Qed.

(** Second stage: the renormalising shift only drops bits that the
    truncation to an integer drops as well. *)
Lemma round_stage2 (m2 e1 B : Z) :
  e1 <= 0 -> B < 2 ^ 53 -> 0 <= m2 <= B * 2 ^ (- e1) ->
  forall mrs e3,
    shr_fexp prec emax m2 e1 loc_Exact = (mrs, e3) ->
    int_of_spec
      match shr_m mrs with
      | Z0 => S754_zero false
      | Zpos m => if e3 <=? emax - prec then S754_finite false m e3 else S754_infinity false
      | Zneg _ => S754_nan
      end = Ok (m2 / 2 ^ (- e1)).
Proof.
  intros He1 HB Hm2 mrs e3. unfold shr_fexp, shr. rewrite fexp_eq.
  cbn [shr_record_of_loc].
  assert (Hpe : 0 < 2 ^ (- e1)) by (apply pow2_pos; lia).
  assert (Hd : Zdigits2 m2 <= 53 - e1).
  { destruct m2 as [|q|q]; cbn [Zdigits2]; [lia| |lia].
    apply digits2_pos_le; [lia|]. replace (53 - e1) with (53 + - e1) by lia.
    rewrite pow2_split by lia.
    assert (B * 2 ^ (- e1) < 2 ^ 53 * 2 ^ (- e1)) by (apply Z.mul_lt_mono_pos_r; lia). lia. }
  assert (Hfin : forall m e, e <= 0 ->
            int_of_spec (if e <=? emax - prec then S754_finite false m e
                         else S754_infinity false) = Ok (Zpos m / 2 ^ (- e))).
  { intros m e He.
    assert (Hle : (e <=? emax - prec) = true)
      by (apply Z.leb_le; change (emax - prec) with 971; lia).
    rewrite Hle. cbn [int_of_spec]. cbv zeta. now rewrite magnitude_nonpos. }
  destruct (Z.max (Zdigits2 m2 + e1 - 53) (-1074) - e1) as [|k|k] eqn:Hk.
  - intros [= <- <-]. cbn [shr_m]. destruct m2 as [|q|q]; [|apply Hfin; lia|lia].
    simpl. now rewrite Z.div_0_l by lia.
  - intros [= <- <-].
    destruct (iter_shr_1 k m2 false false ltac:(lia)) as [Hm3 _].
    destruct (SpecFloat.iter_pos shr_1 k (Build_shr_record m2 false false)) as [m3 r3 s3].
    cbn [shr_m] in *.
    assert (Hpk : 0 < 2 ^ Zpos k) by (apply pow2_pos; lia).
    assert (He3 : e1 + Zpos k <= 0) by lia.
    assert (Hsplit : 2 ^ (- e1) = 2 ^ Zpos k * 2 ^ (- (e1 + Zpos k))).
    { rewrite <- pow2_split by lia. f_equal. lia. }
    assert (Hp3 : 0 < 2 ^ (- (e1 + Zpos k))) by (apply pow2_pos; lia).
    assert (Hdiv : m2 / 2 ^ (- e1) = m3 / 2 ^ (- (e1 + Zpos k))).
    { rewrite Hsplit, Hm3. symmetry. apply Z.div_div; lia. }
    rewrite Hdiv. destruct m3 as [|q|q].
    + simpl. now rewrite Z.div_0_l by lia.
    + apply Hfin. exact He3.
    + exfalso. assert (0 <= m2 / 2 ^ Zpos k) by (apply Z.div_pos; lia). lia.
  - intros [= <- <-]. cbn [shr_m]. destruct m2 as [|q|q]; [|apply Hfin; lia|lia].
    simpl. now rewrite Z.div_0_l by lia.
Qed.

(** Rounding a positive product to binary64 and truncating it to an
    integer: a value between the integers [L] and [B < 2^53] gives an integer
    between [L] and [B]. *)
Lemma round_then_truncate (M : positive) (E L B : Z) :
  E <= 0 -> 0 <= L -> B < 2 ^ 53 -> L * 2 ^ (- E) <= Zpos M <= B * 2 ^ (- E) ->
  exists n,
    int_of_spec (binary_round_aux prec emax false (Zpos M) E loc_Exact) = Ok n /\
    L <= n <= B.
Proof.
  intros HE HL HB HM. unfold binary_round_aux.
  destruct (shr_fexp prec emax (Zpos M) E loc_Exact) as [mrs e1] eqn:H1.
  destruct (round_stage1 M E L B HE HB HM mrs e1 H1) as (He1 & Hm2).
  set (m2 := round_nearest_even (shr_m mrs) (loc_of_shr_record mrs)) in *.
  destruct (shr_fexp prec emax m2 e1 loc_Exact) as [mrs' e3] eqn:H2.
  exists (m2 / 2 ^ (- e1)).
  assert (Hpe : 0 < 2 ^ (- e1)) by (apply pow2_pos; lia).
  assert (Hm2' : 0 <= m2 <= B * 2 ^ (- e1)) by nia.
  split; [exact (round_stage2 m2 e1 B He1 HB Hm2' mrs' e3 H2)|]. split.
  - apply Z.div_le_lower_bound; lia.
  - apply Z.div_le_upper_bound; lia.
Qed.

(** ** Binary64: a node count and a fraction *)

Lemma iter_xO (k p : positive) :
  Zpos (Pos.iter xO p k) = Zpos p * 2 ^ Zpos k /\
  Zpos (digits2_pos (Pos.iter xO p k)) = Zpos (digits2_pos p) + Zpos k.
Proof.
  induction k as [|k [IH1 IH2]] using Pos.peano_ind.
  - simpl. rewrite (Pos2Z.inj_xO p), Pos2Z.inj_succ. lia.
  - rewrite Pos.iter_succ. cbn [digits2_pos].
    rewrite (Pos2Z.inj_xO (Pos.iter xO p k)), !Pos2Z.inj_succ, IH1, IH2.
    rewrite Z.pow_succ_r by lia. lia.
Qed.

Lemma canonical_shr_fexp (m : positive) (e : Z) :
  canonical_mantissa prec emax m e = true ->
  shr_fexp prec emax (Zpos m) e loc_Exact = (Build_shr_record (Zpos m) false false, e).
Proof.
  unfold canonical_mantissa, shr_fexp. intros H. apply Z.eqb_eq in H.
  cbn [Zdigits2 shr_record_of_loc]. rewrite H, Z.sub_diag. reflexivity.
Qed.

Lemma binary_round_aux_canonical (s : bool) (m : positive) (e : Z) :
  SpecFloat.bounded prec emax m e = true ->
  binary_round_aux prec emax s (Zpos m) e loc_Exact = S754_finite s m e.
Proof.
  unfold SpecFloat.bounded. intros H. apply andb_true_iff in H. destruct H as [Hc He].
  unfold binary_round_aux. rewrite (canonical_shr_fexp m e Hc).
  cbn [shr_m loc_of_shr_record round_nearest_even].
  rewrite (canonical_shr_fexp m e Hc). cbn [shr_m]. now rewrite He.
Qed.

(** A positive integer below [2^53] is a binary64 number: its conversion is
    exact. *)
Lemma binary_normalize_exact (N : Z) :
  0 < N < 2 ^ 53 ->
  exists m e,
    binary_normalize prec emax N 0 false = S754_finite false m e /\
    SpecFloat.bounded prec emax m e = true /\ e <= 0 /\ Zpos m = N * 2 ^ (- e).
Proof.
  intros [H0 H53]. destruct N as [|p|p]; try lia. cbn [binary_normalize].
  unfold binary_round, shl_align. rewrite fexp_eq.
  pose proof (digits2_pos_le p 53 ltac:(lia) H53) as Hd.
  assert (Hmax : Z.max (Zpos (digits2_pos p) + 0 - 53) (-1074) - 0
                 = Zpos (digits2_pos p) - 53) by lia.
  rewrite Hmax.
  destruct (Zpos (digits2_pos p) - 53) as [|k|k] eqn:Hk; [|lia|].
  - assert (Hb : SpecFloat.bounded prec emax p 0 = true).
    { unfold SpecFloat.bounded, canonical_mantissa. rewrite fexp_eq.
      apply andb_true_iff. split; [apply Z.eqb_eq; lia | reflexivity]. }
    exists p, 0. rewrite (binary_round_aux_canonical false p 0 Hb).
    split; [reflexivity|]. split; [exact Hb|]. split; [lia|]. simpl. lia.
  - destruct (iter_xO k p) as [Hv Hdk].
    assert (Hb : SpecFloat.bounded prec emax (Pos.iter xO p k)
                   (Z.max (Zpos (digits2_pos p) + 0 - 53) (-1074)) = true).
    { unfold SpecFloat.bounded, canonical_mantissa. rewrite fexp_eq, Hdk.
      apply andb_true_iff.
      split; [apply Z.eqb_eq; lia | apply Z.leb_le; change (emax - prec) with 971; lia]. }
    exists (Pos.iter xO p k), (Z.max (Zpos (digits2_pos p) + 0 - 53) (-1074)).
    rewrite (binary_round_aux_canonical false _ _ Hb).
    split; [reflexivity|]. split; [exact Hb|]. split; [lia|].
    rewrite Hv. f_equal. f_equal. lia.
Qed.

Lemma Prim2SF_py_float (N : Z) (m : positive) (e : Z) :
  binary_normalize prec emax N 0 false = S754_finite false m e ->
  SpecFloat.bounded prec emax m e = true ->
  exists x, py_float N = Ok x /\ Prim2SF x = S754_finite false m e.
Proof.
  intros Hn Hb. unfold py_float. rewrite Hn. eexists. split; [reflexivity|].
  now apply Prim2SF_SF2Prim.
Qed.

Lemma valid_mantissa_bound (m : positive) (e : Z) :
  SpecFloat.bounded prec emax m e = true -> Zpos m < 2 ^ 53.
Proof.
  unfold SpecFloat.bounded, canonical_mantissa. rewrite fexp_eq. intros H.
  apply andb_true_iff in H. destruct H as [Hc _]. apply Z.eqb_eq in Hc.
  pose proof (digits2_pos_bounds m) as [_ Hhi].
  assert (2 ^ Zpos (digits2_pos m) <= 2 ^ 53) by (apply Z.pow_le_mono_r; lia).
  lia.
Qed.

Lemma compare_cont_Eq (m n : positive) :
  Pos.compare_cont Eq m n = (Zpos m ?= Zpos n).
Proof. reflexivity. Qed.

(** What [0 <= frac <= 1] says of the bits of [frac]: a zero, or a positive
    number [m * 2^e] with [m <= 2^(-e)]. *)
Lemma unit_fraction_bits (frac : float) :
  (0 <=? frac)%float = true -> (frac <=? 1)%float = true ->
  (exists s, Prim2SF frac = S754_zero s) \/
  (exists m e, Prim2SF frac = S754_finite false m e /\ e <= 0 /\ Zpos m <= 2 ^ (- e)).
Proof.
  rewrite !leb_spec. pose proof (Prim2SF_valid frac) as Hv.
  change (Prim2SF 0) with (S754_zero false).
  change (Prim2SF 1) with (S754_finite false 4503599627370496 (-52)).
  destruct (Prim2SF frac) as [s | s | | s m e]; unfold SFleb, SFcompare.
  - intros _ _. left. now exists s.
  - destruct s; discriminate.
  - discriminate.
  - destruct s; [discriminate|]. intros _ H. right. exists m, e.
    split; [reflexivity|]. cbn [valid_binary] in Hv.
    pose proof (valid_mantissa_bound m e Hv) as Hm.
    destruct (Z.compare_spec e (-52)) as [-> | Hlt | Hgt]; [| |discriminate].
    + rewrite compare_cont_Eq in H.
      destruct (Z.compare_spec (Zpos m) 4503599627370496); try discriminate;
        (split; [lia|]); change (2 ^ (- -52)) with 4503599627370496; lia.
    + split; [lia|].
      assert (2 ^ 53 <= 2 ^ (- e)) by (apply Z.pow_le_mono_r; lia). lia.
Qed.

Lemma sample_size_zero_fraction (N : nat) (frac : float) (s : bool) :
  Z.of_nat N < 2 ^ 53 -> Prim2SF frac = S754_zero s -> sample_size N frac = Ok 0.
Proof.
  intros HN Hf. unfold sample_size. destruct N as [|N'].
  - unfold py_float. cbn [Z.of_nat binary_normalize bind]. unfold py_int.
    rewrite mul_spec, Hf. reflexivity.
  - destruct (binary_normalize_exact (Z.of_nat (S N')) ltac:(lia)) as (m & e & Hn & Hb & _).
    destruct (Prim2SF_py_float _ m e Hn Hb) as (x & -> & Hx). cbn [bind].
    unfold py_int. rewrite mul_spec, Hx, Hf. reflexivity.
Qed.

(** The sample size for a positive fraction [m * 2^e] not above 1: it is
    computed, and lies between the exact product rounded down and the exact
    product rounded up. *)
Lemma sample_size_positive_fraction (N : nat) (frac : float) (m : positive) (e : Z) :
  Z.of_nat N < 2 ^ 53 ->
  Prim2SF frac = S754_finite false m e -> e <= 0 -> Zpos m <= 2 ^ (- e) ->
  exists n,
    sample_size N frac = Ok n /\
    Z.of_nat N * Zpos m / 2 ^ (- e) <= n <= - (- (Z.of_nat N * Zpos m) / 2 ^ (- e)) /\
    0 <= Z.of_nat N * Zpos m / 2 ^ (- e) /\
    - (- (Z.of_nat N * Zpos m) / 2 ^ (- e)) <= Z.of_nat N.
Proof.
  intros HN Hf He Hm.
  assert (Hpy : 0 < 2 ^ (- e)) by (apply pow2_pos; lia).
  set (d := 2 ^ (- e)) in *.
  set (a := Z.of_nat N * Zpos m).
  assert (Ha : 0 <= a <= Z.of_nat N * d) by (unfold a; nia).
  pose proof (Z.mul_div_le a d Hpy) as Hfl.
  pose proof (Z.mul_div_le (- a) d Hpy) as Hcl.
  assert (Hfl0 : 0 <= a / d) by (apply Z.div_pos; lia).
  assert (HclN : - (- a / d) <= Z.of_nat N).
  { assert (- Z.of_nat N <= - a / d) by (apply Z.div_le_lower_bound; lia). lia. }
  unfold sample_size. destruct N as [|N'].
  - exists 0. unfold py_float. cbn [Z.of_nat binary_normalize bind]. unfold py_int.
    rewrite mul_spec, Hf. split; [reflexivity|].
    unfold a. cbn [Z.of_nat]. rewrite Z.mul_0_l. simpl (- 0).
    rewrite Z.div_0_l by lia. lia.
  - destruct (binary_normalize_exact (Z.of_nat (S N')) ltac:(lia))
      as (mx & ex & Hn & Hb & Hex & Hmx).
    destruct (Prim2SF_py_float _ mx ex Hn Hb) as (x & -> & Hx). cbn [bind].
    unfold py_int. rewrite mul_spec, Hx, Hf. unfold SF64mul, SFmul. cbn [xorb].
    assert (Hpx : 0 < 2 ^ (- ex)) by (apply pow2_pos; lia).
    assert (Hsplit : 2 ^ (- (ex + e)) = 2 ^ (- ex) * d).
    { unfold d. rewrite <- pow2_split by lia. f_equal. lia. }
    destruct (round_then_truncate (mx * m) (ex + e) (a / d) (- (- a / d)))
      as (n & Hn' & Hrange); [lia | lia | lia | |].
    { rewrite Pos2Z.inj_mul, Hsplit, Hmx. fold a in Hfl, Hcl.
      replace (Z.of_nat (S N') * 2 ^ (- ex) * Zpos m) with (a * 2 ^ (- ex))
        by (unfold a; lia).
      split.
      - replace (a / d * (2 ^ (- ex) * d)) with (d * (a / d) * 2 ^ (- ex)) by lia.
        apply Z.mul_le_mono_nonneg_r; lia.
      - replace (- (- a / d) * (2 ^ (- ex) * d)) with (- (d * (- a / d)) * 2 ^ (- ex)) by lia.
        apply Z.mul_le_mono_nonneg_r; lia. }
    exists n. split; [exact Hn'|]. split; [exact Hrange|]. split; assumption.
Qed.

Lemma ceil_le_floor_succ (a d : Z) : 0 < d -> - (- a / d) <= a / d + 1.
Proof.
  intros Hd. pose proof (Z.div_mod a d ltac:(lia)) as Ha.
  pose proof (Z.mod_pos_bound a d Hd) as Hm.
  assert (- (a / d) - 1 <= - a / d) by (apply Z.div_le_lower_bound; lia).
  lia.
Qed.

(** For a fraction in [0, 1], on fewer than [2^53] nodes, the sample size is
    computed; it is the exact product [node_count * frac] rounded down or
    rounded up, and lies between 0 and the node count. *)
Lemma sample_size_in_range (N : nat) (frac : float) :
  Z.of_nat N < 2 ^ 53 ->
  (0 <=? frac)%float = true -> (frac <=? 1)%float = true ->
  exists n lo hi,
    sample_size N frac = Ok n /\
    exact_product_floor (Z.of_nat N) frac = Some lo /\
    exact_product_ceil (Z.of_nat N) frac = Some hi /\
    lo <= n <= hi /\ hi <= lo + 1 /\ 0 <= lo /\ hi <= Z.of_nat N.
Proof.
  intros HN H0 H1. unfold exact_product_floor, exact_product_ceil.
  destruct (unit_fraction_bits frac H0 H1) as [[s Hs] | (m & e & Hf & He & Hm)].
  - exists 0, 0, 0. rewrite Hs.
    split; [now apply (sample_size_zero_fraction N frac s)|]. repeat split; lia.
  - destruct (sample_size_positive_fraction N frac m e HN Hf He Hm)
      as (n & Hn & Hr & Hlo & Hhi).
    pose proof (ceil_le_floor_succ (Z.of_nat N * Zpos m) (2 ^ (- e))
                  (pow2_pos (- e) ltac:(lia))) as Hclose.
    exists n. do 2 eexists. rewrite Hf. cbv zeta.
    split; [exact Hn|]. split; [reflexivity|]. split; [reflexivity|].
    rewrite magnitude_nonpos by exact He.
    destruct (0 <=? e) eqn:E0; [|auto].
    apply Z.leb_le in E0. assert (e = 0) by lia. subst e.
    change (2 ^ (- 0)) with 1 in *. change (2 ^ 0) with 1.
    rewrite !Z.div_1_r in *. rewrite Z.mul_1_r. repeat split; lia.
Qed.

(** The fraction 1 asks for every node. *)
Lemma sample_size_one (N : nat) :
  Z.of_nat N < 2 ^ 53 -> sample_size N 1 = Ok (Z.of_nat N).
Proof.
  intros HN.
  destruct (sample_size_positive_fraction N 1 4503599627370496 (-52) HN)
    as (n & Hn & Hr & _); [reflexivity | lia | reflexivity |].
  rewrite Hn. f_equal. change (2 ^ (- -52)) with 4503599627370496 in Hr.
  rewrite <- Z.mul_opp_l, !Z.div_mul in Hr by lia. lia.
Qed.

(** A float strictly between -1 and 1 truncates to 0. *)
Lemma py_int_small (p : float) :
  (-1 <? p)%float = true -> (p <? 1)%float = true -> py_int p = Ok 0.
Proof.
  rewrite !ltb_spec. unfold py_int. pose proof (Prim2SF_valid p) as Hv.
  change (Prim2SF (-1)) with (S754_finite true 4503599627370496 (-52)).
  change (Prim2SF 1) with (S754_finite false 4503599627370496 (-52)).
  destruct (Prim2SF p) as [s | s | | s m e]; unfold SFltb, SFcompare.
  - reflexivity.
  - destruct s; discriminate.
  - discriminate.
  - cbn [valid_binary] in Hv. pose proof (valid_mantissa_bound m e Hv) as Hm.
    assert (Hsmall : forall e', e' < -52 -> Zpos m / 2 ^ (- e') = 0).
    { intros e' He'. apply Z.div_small.
      assert (2 ^ 53 <= 2 ^ (- e')) by (apply Z.pow_le_mono_r; lia). lia. }
    assert (Hedge : Zpos m < 4503599627370496 -> Zpos m / 2 ^ (- -52) = 0).
    { intros Hlt. apply Z.div_small. change (2 ^ (- -52)) with 4503599627370496. lia. }
    cbn [int_of_spec]. cbv zeta.
    destruct s; intros Hlo Hhi.
    + destruct (Z.compare_spec (-52) e) as [<- | Hlt | Hgt]; [| discriminate |].
      * rewrite compare_cont_Eq in Hlo.
        destruct (Z.compare_spec 4503599627370496 (Zpos m)); try discriminate.
        change (0 <=? -52) with false. cbv iota. now rewrite Hedge by lia.
      * destruct (0 <=? e) eqn:E0; [apply Z.leb_le in E0; lia|]. now rewrite Hsmall by lia.
    + destruct (Z.compare_spec e (-52)) as [-> | Hlt | Hgt]; [| | discriminate].
      * rewrite compare_cont_Eq in Hhi.
        destruct (Z.compare_spec (Zpos m) 4503599627370496); try discriminate.
        change (0 <=? -52) with false. cbv iota. now rewrite Hedge by lia.
      * destruct (0 <=? e) eqn:E0; [apply Z.leb_le in E0; lia|]. now rewrite Hsmall by lia.
Qed.

(** ** The perturbation cell *)

Lemma NoDup_firstn {A : Type} (n : nat) (l : list A) : NoDup l -> NoDup (firstn n l).
Proof.
  intros H. rewrite <- (firstn_skipn n l) in H. now apply NoDup_app_remove_r in H.
Qed.

Lemma In_firstn {A : Type} (n : nat) (l : list A) (x : A) : In x (firstn n l) -> In x l.
Proof.
  intros H. rewrite <- (firstn_skipn n l). apply in_or_app. now left.
Qed.

Lemma NoDup_map_nth (labels : list node) (idx : list nat) :
  NoDup labels -> NoDup idx ->
  (forall i, In i idx -> (i < List.length labels)%nat) ->
  NoDup (map (fun i => nth i labels 0) idx).
Proof.
  intros Hl Hi Hlt. induction Hi as [|i idx Hni Hi IH]; simpl; [constructor|].
  constructor.
  - intros Hin. apply in_map_iff in Hin. destruct Hin as (j & Hj & Hjin).
    assert (j = i).
    { apply (proj1 (NoDup_nth labels 0) Hl); auto using in_eq, in_cons. }
    subst j. contradiction.
  - apply IH. intros j Hj. apply Hlt. now right.
Qed.

Lemma nodes_length_ids (G : graph) : List.length (node_ids G) = List.length (nodes G).
Proof. unfold node_ids. apply length_map. Qed.

(** On an empty graph the sample size, when there is one, is 0. *)
Lemma sample_size_empty (frac : float) (n : Z) : sample_size 0 frac = Ok n -> n = 0.
Proof.
  unfold sample_size, py_float. cbn [Z.of_nat binary_normalize bind]. unfold py_int.
  rewrite mul_spec. change (Prim2SF (SF2Prim (S754_zero false))) with (S754_zero false).
  destruct (Prim2SF frac) as [s | s | | s m e]; simpl; congruence.
Qed.

(** What the sample size computation can raise. *)
Lemma sample_size_raises (N : nat) (frac : float) (e : exn) :
  sample_size N frac = Raise e -> e = ValueError \/ e = OverflowError.
Proof.
  unfold sample_size, py_float.
  destruct (binary_normalize prec emax (Z.of_nat N) 0 false); cbn [bind];
    try (intros [= <-]; now right);
    unfold py_int; (destruct (Prim2SF _); simpl; intros [= <-]; auto).
Qed.

Section SamplingSteps.

Variable rng : Type.
Variable rng_permutation : rng -> nat -> list nat * rng.

(** The sampler accepts exactly the sizes from 0 to the population (and to
    the largest [intp]). *)
Lemma sample_positions_ok (N : nat) (n : Z) (st : rng) :
  0 <= n <= Z.of_nat N -> n <= intp_max ->
  sample_positions rng_permutation N n st =
    Ok (firstn (Z.to_nat n) (fst (rng_permutation st N)), snd (rng_permutation st N)).
Proof.
  intros [H0 HN] Hmax. unfold sample_positions.
  destruct (n <? 0) eqn:E0; [apply Z.ltb_lt in E0; lia|].
  destruct ((N =? 0)%nat && negb (n =? 0)) eqn:E1.
  { apply andb_true_iff in E1. destruct E1 as [EN En].
    apply Nat.eqb_eq in EN. apply negb_true_iff, Z.eqb_neq in En. lia. }
  destruct (intp_max <? n) eqn:E2; [apply Z.ltb_lt in E2; lia|].
  destruct (Z.of_nat N <? n) eqn:E3; [apply Z.ltb_lt in E3; lia|].
  destruct (rng_permutation st N) as [perm st']. reflexivity.
Qed.

Lemma sample_positions_raises (N : nat) (n : Z) (st : rng) :
  (n < 0 -> sample_positions rng_permutation N n st = Raise ValueError) /\
  (0 <= n -> N <> 0%nat -> intp_max < n ->
   sample_positions rng_permutation N n st = Raise OverflowError) /\
  (Z.of_nat N < n <= intp_max ->
   sample_positions rng_permutation N n st = Raise ValueError).
Proof.
  unfold sample_positions. split; [|split].
  - intros H. destruct (n <? 0) eqn:E0; [reflexivity | apply Z.ltb_ge in E0; lia].
  - intros H0 HN Hmax.
    destruct (n <? 0) eqn:E0; [apply Z.ltb_lt in E0; lia|].
    destruct (N =? 0)%nat eqn:EN; [apply Nat.eqb_eq in EN; contradiction|]. cbn [andb].
    destruct (intp_max <? n) eqn:E2; [reflexivity | apply Z.ltb_ge in E2; lia].
  - intros [HN Hmax].
    destruct (n <? 0) eqn:E0; [reflexivity|].
    destruct ((N =? 0)%nat && negb (n =? 0)); [reflexivity|].
    destruct (intp_max <? n) eqn:E2; [apply Z.ltb_lt in E2; lia|].
    destruct (Z.of_nat N <? n) eqn:E3; [reflexivity | apply Z.ltb_ge in E3; lia].
Qed.

(** The cell, once the sample size is known and in range: the labels at the
    first [n] positions of the permutation are removed from a copy. *)
Lemma perturb_run (G : graph) (frac : float) (n : Z) (st : rng) :
  sample_size (List.length (nodes G)) frac = Ok n ->
  0 <= n <= Z.of_nat (List.length (nodes G)) -> n <= intp_max ->
  let removed := map (fun i => nth i (node_ids G) 0)
                   (firstn (Z.to_nat n)
                      (fst (rng_permutation st (List.length (nodes G))))) in
  perturb rng_permutation G frac st =
    Ok ((removed, remove_nodes_from G removed),
        snd (rng_permutation st (List.length (nodes G)))).
Proof.
  intros Hn Hrange Hmax. cbv zeta. unfold perturb. rewrite Hn. cbn [bind].
  unfold bindM, sample_index, bindM, ret. rewrite nodes_length_ids.
  rewrite (sample_positions_ok _ n st Hrange Hmax). now rewrite copy_eq.
Qed.

Lemma perturb_raises (G : graph) (frac : float) (st : rng) :
  (forall e, sample_size (List.length (nodes G)) frac = Raise e ->
             perturb rng_permutation G frac st = Raise e) /\
  (forall n, sample_size (List.length (nodes G)) frac = Ok n ->
     (n < 0 -> perturb rng_permutation G frac st = Raise ValueError) /\
     (intp_max < n -> perturb rng_permutation G frac st = Raise OverflowError) /\
     (Z.of_nat (List.length (nodes G)) < n <= intp_max ->
      perturb rng_permutation G frac st = Raise ValueError)).
Proof.
  split.
  - intros e He. unfold perturb. now rewrite He.
  - intros n Hn.
    destruct (sample_positions_raises (List.length (nodes G)) n st) as (H1 & H2 & H3).
    assert (Hrun : forall e,
               sample_positions rng_permutation (List.length (nodes G)) n st = Raise e ->
               perturb rng_permutation G frac st = Raise e).
    { intros e He. unfold perturb. rewrite Hn. cbn [bind].
      unfold bindM, sample_index, bindM. rewrite nodes_length_ids. now rewrite He. }
    split; [|split].
    + intros H. apply Hrun, H1, H.
    + intros H. apply Hrun, H2; [unfold intp_max in H; lia| |exact H].
      intros E. rewrite E in Hn. apply sample_size_empty in Hn.
      unfold intp_max in H. lia.
    + intros H. apply Hrun, H3, H.
Qed.

End SamplingSteps.

Section Perturbation.

Variable rng : Type.
Variable rng_permutation : rng -> nat -> list nat * rng.

(** What numpy promises of [permutation(n)]: a rearrangement of
    [0 .. n-1]. *)
Hypothesis rng_permutation_spec :
  forall st n, Permutation (fst (rng_permutation st n)) (seq 0 n).

(** The labels at the first [n] positions of a permutation: [n] distinct
    labels. *)
Lemma sampled_labels (labels : list node) (n : nat) (st : rng) :
  NoDup labels -> (n <= List.length labels)%nat ->
  let removed := map (fun i => nth i labels 0)
                   (firstn n (fst (rng_permutation st (List.length labels)))) in
  List.length removed = n /\ NoDup removed /\ incl removed labels.
Proof.
  intros Hl Hn. cbv zeta.
  pose proof (rng_permutation_spec st (List.length labels)) as Hperm.
  set (perm := fst (rng_permutation st (List.length labels))) in *.
  assert (Hnd : NoDup perm).
  { apply Permutation_NoDup with (seq 0 (List.length labels));
      [now apply Permutation_sym | apply seq_NoDup]. }
  assert (Hlt : forall i, In i perm -> (i < List.length labels)%nat).
  { intros i Hi. apply (Permutation_in _ Hperm) in Hi. apply in_seq in Hi. lia. }
  assert (Hlen : List.length perm = List.length labels).
  { apply Permutation_length in Hperm. now rewrite length_seq in Hperm. }
  split; [|split].
  - rewrite length_map, length_firstn. lia.
  - apply NoDup_map_nth; [exact Hl | now apply NoDup_firstn |].
    intros i Hi. apply Hlt. now apply In_firstn in Hi.
  - intros x Hx. apply in_map_iff in Hx. destruct Hx as (i & <- & Hi).
    apply nth_In. apply Hlt. now apply In_firstn in Hi.
Qed.

(** The run of the cell for a sample size in range, with what it removes
    and what it leaves. *)
Lemma perturb_removes (G : graph) (frac : float) (n : Z) (st : rng) :
  wf_graph G ->
  sample_size (List.length (nodes G)) frac = Ok n ->
  0 <= n <= Z.of_nat (List.length (nodes G)) -> n <= intp_max ->
  exists (removed : list node) (G_per : graph) (st' : rng),
    perturb rng_permutation G frac st = Ok ((removed, G_per), st') /\
    G_per = remove_nodes_from G removed /\
    Z.of_nat (List.length removed) = n /\
    NoDup removed /\ incl removed (node_ids G) /\
    removed = map (fun i => nth i (node_ids G) 0)
                (firstn (List.length removed)
                   (fst (rng_permutation st (List.length (node_ids G))))) /\
    node_ids G_per = filter (fun n => negb (mem n removed)) (node_ids G) /\
    (List.length (nodes G_per) + List.length removed = List.length (nodes G))%nat /\
    edges G_per =
      filter (fun e => negb (mem (edge_u e) removed) && negb (mem (edge_v e) removed))
        (edges G) /\
    forall e, In e (edges G_per) ->
              ~ In (edge_u e) removed /\ ~ In (edge_v e) removed.
Proof.
  intros [Hnd Hcl] Hn Hrange Hmax.
  pose proof (perturb_run rng rng_permutation G frac n st Hn Hrange Hmax) as Hrun.
  cbv zeta in Hrun. rewrite <- nodes_length_ids in Hrun.
  destruct (sampled_labels (node_ids G) (Z.to_nat n) st Hnd) as (Hrlen & Hrnd & Hrincl).
  { rewrite nodes_length_ids. lia. }
  set (removed := map _ _) in *.
  assert (Hedges : edges (remove_nodes_from G removed) =
                   filter (fun e => negb (mem (edge_u e) removed) &&
                                    negb (mem (edge_v e) removed)) (edges G))
    by now apply remove_nodes_from_edges.
  exists removed, (remove_nodes_from G removed), (snd (rng_permutation st (List.length (node_ids G)))).
  split; [exact Hrun|]. split; [reflexivity|].
  split; [|split; [|split; [|split; [|split; [|split; [|split]]]]]].
  - rewrite Hrlen. lia.
  - exact Hrnd.
  - exact Hrincl.
  - rewrite Hrlen. reflexivity.
  - apply remove_nodes_from_node_ids.
  - pose proof (length_filter_not_mem (node_ids G) removed Hnd Hrnd Hrincl) as Hc.
    rewrite <- remove_nodes_from_node_ids in Hc. unfold node_ids in Hc.
    rewrite !length_map in Hc. exact Hc.
  - exact Hedges.
  - intros e He. rewrite Hedges in He. apply filter_In in He. destruct He as [_ Hb].
    apply andb_true_iff in Hb. destruct Hb as [Hu Hv].
    apply negb_true_iff in Hu. apply negb_true_iff in Hv.
    split; intros Hin; apply mem_In in Hin; congruence.
Qed.

End Perturbation.

Lemma rot_permutation_spec (st n : nat) :
  Permutation (fst (rot_permutation st n)) (seq 0 n).
Proof.
  unfold rot_permutation. simpl.
  rewrite Permutation_app_comm. now rewrite firstn_skipn.
Qed.

Lemma intp_covers_binary53 (n : Z) : n < 2 ^ 53 -> n <= intp_max.
Proof. unfold intp_max. intros H. assert (2 ^ 53 < 2 ^ 63) by reflexivity. lia. Qed.

(** ** Sampling without bias: counting states by what they draw *)

Lemma same_nats_true (a b : list nat) : same_nats a b = true <-> a = b.
Proof.
  unfold same_nats. destruct (list_eq_dec Nat.eq_dec a b); split; congruence.
Qed.

Lemma same_nodes_true (a b : list node) : same_nodes a b = true <-> a = b.
Proof.
  unfold same_nodes. destruct (list_eq_dec Z.eq_dec a b); split; congruence.
Qed.

Lemma bool_eq_iff (a b : bool) : (a = true <-> b = true) -> a = b.
Proof.
  destruct a, b; intros [H1 H2]; try reflexivity;
    [symmetry; now apply H1 | now apply H2].
Qed.

Lemma tally_cons {A : Type} (P : A -> bool) (a : A) (l : list A) :
  tally P (a :: l) = ((if P a then 1 else 0) + tally P l)%nat.
Proof. unfold tally. simpl. destruct (P a); reflexivity. Qed.

Lemma tally_ext {A : Type} (P Q : A -> bool) (l : list A) :
  (forall a, In a l -> P a = Q a) -> tally P l = tally Q l.
Proof. intros H. unfold tally. f_equal. now apply filter_ext_in. Qed.

Lemma list_sum_map_add {A : Type} (g h : A -> nat) (l : list A) :
  list_sum (map (fun x => g x + h x)%nat l) = (list_sum (map g l) + list_sum (map h l))%nat.
Proof. induction l as [|a l IH]; simpl; [reflexivity | rewrite IH; lia]. Qed.

Lemma list_sum_map_zero {A : Type} (g : A -> nat) (l : list A) :
  (forall x, In x l -> g x = 0%nat) -> list_sum (map g l) = 0%nat.
Proof.
  induction l as [|a l IH]; intros H; simpl; [reflexivity|].
  rewrite (H a (in_eq a l)), IH; [reflexivity|]. intros x Hx. apply H. now right.
Qed.

(** Two sums of as many terms, every term of the one equal to every term of
    the other. *)
Lemma list_sum_map_alike {A : Type} (g h : A -> nat) (l l' : list A) :
  List.length l = List.length l' ->
  (forall x y, In x l -> In y l' -> g x = h y) ->
  list_sum (map g l) = list_sum (map h l').
Proof.
  revert l'. induction l as [|a l IH]; intros [|b l'] Hlen H; simpl in *;
    try discriminate; [reflexivity|].
  rewrite (H a b) by auto. f_equal. apply IH; [lia|]. intros x y Hx Hy. apply H; auto.
Qed.

Lemma list_sum_indicator (a : nat) (l : list nat) :
  NoDup l -> In a l ->
  list_sum (map (fun x => if (a =? x)%nat then 1 else 0)%nat l) = 1%nat.
Proof.
  intros Hnd. induction Hnd as [|b l Hb Hnd IH]; intros Hin; [destruct Hin|]. simpl.
  destruct (a =? b)%nat eqn:E.
  - apply Nat.eqb_eq in E. subst b. rewrite list_sum_map_zero; [reflexivity|].
    intros x Hx. destruct (a =? x)%nat eqn:Ex; [|reflexivity].
    apply Nat.eqb_eq in Ex. subst x. contradiction.
  - destruct Hin as [-> | Hin]; [rewrite Nat.eqb_refl in E; discriminate|].
    now rewrite IH.
Qed.

Lemma firstn_succ_nth {A : Type} (d : A) (l : list A) :
  forall n, (n < List.length l)%nat -> firstn (S n) l = firstn n l ++ [nth n l d].
Proof.
  induction l as [|a l IH]; intros n Hn; simpl in Hn; [lia|].
  destruct n as [|n]; [reflexivity|].
  change (a :: firstn (S n) l = a :: (firstn n l ++ [nth n l d])).
  f_equal. apply IH. lia.
Qed.

Lemma nth_not_in_firstn (l : list nat) (n : nat) :
  NoDup l -> (n < List.length l)%nat -> ~ In (nth n l 0%nat) (firstn n l).
Proof.
  intros Hnd Hn Hin.
  assert (Hsplit : firstn (S n) l = firstn n l ++ [nth n l 0%nat])
    by now apply firstn_succ_nth.
  pose proof (NoDup_firstn (S n) l Hnd) as H. rewrite Hsplit in H.
  apply NoDup_remove_2 in H. rewrite app_nil_r in H. contradiction.
Qed.

Lemma not_existsb_eqb (x : nat) (p : list nat) :
  negb (existsb (Nat.eqb x) p) = true <-> ~ In x p.
Proof.
  rewrite negb_true_iff. split.
  - intros H Hin. assert (existsb (Nat.eqb x) p = true).
    { apply existsb_exists. exists x. split; [exact Hin | apply Nat.eqb_refl]. }
    congruence.
  - intros H. destruct (existsb (Nat.eqb x) p) eqn:E; [|reflexivity].
    apply existsb_exists in E. destruct E as (y & Hy & Exy).
    apply Nat.eqb_eq in Exy. subst y. contradiction.
Qed.

Lemma unused_positions_In (N : nat) (p : list nat) (x : nat) :
  In x (unused_positions N p) <-> (x < N)%nat /\ ~ In x p.
Proof.
  unfold unused_positions. rewrite filter_In, in_seq, not_existsb_eqb. intuition lia.
Qed.

Lemma unused_positions_NoDup (N : nat) (p : list nat) : NoDup (unused_positions N p).
Proof. apply NoDup_filter, seq_NoDup. Qed.

Lemma unused_positions_length (N n : nat) (p : list nat) :
  arrangement N n p -> (List.length (unused_positions N p) + n = N)%nat.
Proof.
  intros (Hnd & Hlen & Hlt).
  pose proof (filter_partition_length (fun x => existsb (Nat.eqb x) p) (seq 0 N)) as Hpart.
  rewrite length_seq in Hpart.
  assert (Hperm : Permutation (filter (fun x => existsb (Nat.eqb x) p) (seq 0 N)) p).
  { apply NoDup_Permutation; [apply NoDup_filter, seq_NoDup | exact Hnd |].
    intros x. rewrite filter_In, in_seq, existsb_exists. split.
    - intros (_ & y & Hy & Exy). apply Nat.eqb_eq in Exy. now subst y.
    - intros Hx. split; [specialize (Hlt x Hx); lia|].
      exists x. split; [exact Hx | apply Nat.eqb_refl]. }
  apply Permutation_length in Hperm. unfold unused_positions. lia.
Qed.

Lemma arrangement_snoc (N n : nat) (p : list nat) (x : nat) :
  arrangement N n p -> In x (unused_positions N p) -> arrangement N (S n) (p ++ [x]).
Proof.
  intros (Hnd & Hlen & Hlt) Hx. apply unused_positions_In in Hx. destruct Hx as [HxN Hxp].
  split; [|split].
  - apply Permutation_NoDup with (x :: p); [apply Permutation_cons_append|].
    now constructor.
  - rewrite length_app. simpl. lia.
  - intros y Hy. apply in_app_or in Hy. destruct Hy as [Hy | [<- | []]]; auto.
Qed.

(** A permutation that starts with [p] goes on with exactly one of the
    positions [p] does not hold. *)
Lemma next_position_split (N n : nat) (sigma p : list nat) :
  Permutation sigma (seq 0 N) -> (n < N)%nat -> List.length p = n ->
  (if same_nats (firstn n sigma) p then 1 else 0)%nat =
  list_sum (map (fun x => if same_nats (firstn (S n) sigma) (p ++ [x]) then 1 else 0)%nat
              (unused_positions N p)).
Proof.
  intros Hperm Hn Hlen.
  assert (HlenS : List.length sigma = N).
  { apply Permutation_length in Hperm. now rewrite length_seq in Hperm. }
  assert (Hnd : NoDup sigma).
  { apply Permutation_NoDup with (seq 0 N); [now apply Permutation_sym | apply seq_NoDup]. }
  rewrite (firstn_succ_nth 0%nat sigma n) by lia.
  set (a := nth n sigma 0%nat).
  destruct (same_nats (firstn n sigma) p) eqn:E.
  - apply same_nats_true in E. rewrite <- E. symmetry.
    rewrite (map_ext _ (fun x => if (a =? x)%nat then 1%nat else 0%nat)).
    + apply list_sum_indicator; [apply unused_positions_NoDup|].
      apply unused_positions_In. split.
      * assert (Ha : In a sigma) by (apply nth_In; lia).
        apply (Permutation_in _ Hperm) in Ha. apply in_seq in Ha. lia.
      * apply nth_not_in_firstn; [exact Hnd | lia].
    + intros x. destruct (a =? x)%nat eqn:Ex.
      * apply Nat.eqb_eq in Ex. subst x.
        assert (H : same_nats (firstn n sigma ++ [a]) (firstn n sigma ++ [a]) = true)
          by now apply same_nats_true.
        now rewrite H.
      * destruct (same_nats _ _) eqn:Es; [|reflexivity].
        apply same_nats_true, app_inj_tail in Es. destruct Es as [_ Es].
        subst x. rewrite Nat.eqb_refl in Ex. discriminate.
  - symmetry. apply list_sum_map_zero. intros x _.
    destruct (same_nats (firstn n sigma ++ [a]) (p ++ [x])) eqn:Es; [|reflexivity].
    apply same_nats_true, app_inj_tail in Es. destruct Es as [Es _].
    apply same_nats_true in Es. congruence.
Qed.

Section PrefixCounting.

Variable S : Type.
Variable perm : S -> list nat.
Variable N : nat.

Hypothesis perm_spec : forall st, Permutation (perm st) (seq 0 N).

Lemma prefix_tally_split (states : list S) (n : nat) (p : list nat) :
  (n < N)%nat -> List.length p = n ->
  prefix_tally perm states p =
  list_sum (map (fun x => prefix_tally perm states (p ++ [x])) (unused_positions N p)).
Proof.
  intros Hn Hlen. unfold prefix_tally.
  induction states as [|st states IH].
  - unfold tally. simpl. symmetry. now apply list_sum_map_zero.
  - rewrite tally_cons, IH.
    rewrite Hlen, (next_position_split N n (perm st) p (perm_spec st) Hn Hlen).
    rewrite <- list_sum_map_add. f_equal. apply map_ext. intros x.
    rewrite tally_cons, length_app. simpl. rewrite Hlen, Nat.add_1_r. reflexivity.
Qed.

(** With every full permutation the shuffle of equally many states, every
    arrangement of [n] positions starts the shuffle of equally many
    states. *)
Lemma prefix_tally_uniform (states : list S) :
  (forall p q, Permutation p (seq 0 N) -> Permutation q (seq 0 N) ->
     tally (fun st => same_nats (perm st) p) states =
     tally (fun st => same_nats (perm st) q) states) ->
  forall j n p q,
    (n + j = N)%nat -> arrangement N n p -> arrangement N n q ->
    prefix_tally perm states p = prefix_tally perm states q.
Proof.
  intros Huni j. induction j as [|j IH]; intros n p q Hj Hp Hq.
  - assert (Hfull : forall r, arrangement N n r ->
              prefix_tally perm states r = tally (fun st => same_nats (perm st) r) states /\
              Permutation r (seq 0 N)).
    { intros r (Hnd & Hlen & Hlt). split.
      - unfold prefix_tally. apply tally_ext. intros st _.
        rewrite firstn_all2; [reflexivity|].
        pose proof (Permutation_length (perm_spec st)) as Hl.
        rewrite length_seq in Hl. lia.
      - apply NoDup_Permutation_bis; [exact Hnd | rewrite length_seq; lia |].
        intros x Hx. apply in_seq. specialize (Hlt x Hx). lia. }
    destruct (Hfull p Hp) as [-> Hpp]. destruct (Hfull q Hq) as [-> Hqq].
    now apply Huni.
  - assert (Hn : (n < N)%nat) by lia.
    rewrite (prefix_tally_split states n p Hn (proj1 (proj2 Hp))).
    rewrite (prefix_tally_split states n q Hn (proj1 (proj2 Hq))).
    apply list_sum_map_alike.
    + pose proof (unused_positions_length N n p Hp).
      pose proof (unused_positions_length N n q Hq). lia.
    + intros x y Hx Hy. apply (IH (Datatypes.S n)); [lia | |];
        now apply arrangement_snoc.
Qed.

End PrefixCounting.

(** ** Labels and their positions *)

Lemma index_of_nth (l : list node) (x : node) :
  In x l -> (index_of x l < List.length l)%nat /\ nth (index_of x l) l 0 = x.
Proof.
  induction l as [|y l IH]; intros Hin; [destruct Hin|]. simpl.
  destruct (x =? y) eqn:E.
  - apply Z.eqb_eq in E. split; [lia | now symmetry].
  - destruct Hin as [-> | Hin]; [rewrite Z.eqb_refl in E; discriminate|].
    destruct (IH Hin) as [H1 H2]. split; [lia | exact H2].
Qed.

Lemma nth_index_of (l : list node) (i : nat) :
  NoDup l -> (i < List.length l)%nat -> index_of (nth i l 0) l = i.
Proof.
  intros Hnd. revert i. induction Hnd as [|y l Hy Hnd IH]; intros i Hi; simpl in Hi; [lia|].
  destruct i as [|i]; simpl.
  - now rewrite Z.eqb_refl.
  - destruct (nth i l 0 =? y) eqn:E.
    + apply Z.eqb_eq in E. exfalso. apply Hy. rewrite <- E. apply nth_In. lia.
    + f_equal. apply IH. lia.
Qed.

(** The labels drawn are [s] exactly when the positions drawn are the
    positions of [s]. *)
Lemma labels_at_positions (labels s : list node) (idx : list nat) :
  NoDup labels -> incl s labels ->
  (forall i, In i idx -> (i < List.length labels)%nat) ->
  (map (fun i => nth i labels 0) idx = s <-> idx = map (fun x => index_of x labels) s).
Proof.
  intros Hnd Hs Hidx. split; intros H; subst.
  - rewrite map_map. rewrite <- (map_id idx) at 1. apply map_ext_in.
    intros i Hi. symmetry. apply nth_index_of; auto.
  - rewrite map_map. rewrite <- (map_id s) at 2. apply map_ext_in.
    intros x Hx. apply index_of_nth. now apply Hs.
Qed.

Lemma positions_arrangement (labels s : list node) :
  NoDup s -> incl s labels ->
  arrangement (List.length labels) (List.length s) (map (fun x => index_of x labels) s).
Proof.
  intros Hnd Hs. split; [|split].
  - induction Hnd as [|x s Hx Hnd IH]; simpl; constructor.
    + intros Hin. apply in_map_iff in Hin. destruct Hin as (y & Hy & Hyin).
      assert (x = y).
      { rewrite <- (proj2 (index_of_nth labels x (Hs x (in_eq x s)))).
        rewrite <- (proj2 (index_of_nth labels y (Hs y (in_cons x y s Hyin)))).
        now rewrite Hy. }
      subst y. contradiction.
    + apply IH. intros y Hy. apply Hs. now right.
  - apply length_map.
  - intros i Hi. apply in_map_iff in Hi. destruct Hi as (x & <- & Hx).
    apply index_of_nth. now apply Hs.
Qed.

(** ** The perturbation cell: what it removes *)

Section PerturbationClaims.

Variable rng : Type.
Variable mt_seed : Z -> rng.
Variable rng_permutation : rng -> nat -> list nat * rng.

Hypothesis rng_permutation_spec :
  forall st n, Permutation (fst (rng_permutation st n)) (seq 0 n).

(** Under a uniform shuffle the cell is as likely to remove one list of [n]
    distinct nodes as another. *)
Lemma removed_unbiased (G : graph) (frac : float) (n : Z) (states : list rng) :
  wf_graph G ->
  sample_size (List.length (nodes G)) frac = Ok n ->
  0 <= n <= Z.of_nat (List.length (nodes G)) -> n <= intp_max ->
  uniform_permutations rng_permutation states (List.length (nodes G)) ->
  forall s1 s2,
    NoDup s1 -> NoDup s2 -> incl s1 (node_ids G) -> incl s2 (node_ids G) ->
    Z.of_nat (List.length s1) = n -> Z.of_nat (List.length s2) = n ->
    times_removed rng_permutation states G frac s1 =
    times_removed rng_permutation states G frac s2.
Proof.
  intros [Hnd Hcl] Hn Hrange Hmax Huni.
  set (N := List.length (nodes G)) in *.
  assert (HN : List.length (node_ids G) = N) by apply nodes_length_ids.
  assert (Hkey : forall s, NoDup s -> incl s (node_ids G) -> Z.of_nat (List.length s) = n ->
            times_removed rng_permutation states G frac s =
            prefix_tally (fun st => fst (rng_permutation st N)) states
              (map (fun x => index_of x (node_ids G)) s)).
  { intros s Hs Hincl Hlen. unfold times_removed, prefix_tally. apply tally_ext.
    intros st _.
    rewrite (perturb_run rng rng_permutation G frac n st Hn Hrange Hmax).
    fold N. rewrite length_map.
    replace (Z.to_nat n) with (List.length s) by lia.
    apply bool_eq_iff. rewrite same_nodes_true, same_nats_true.
    apply labels_at_positions; [exact Hnd | exact Hincl |].
    intros i Hi. apply In_firstn in Hi.
    apply (Permutation_in _ (rng_permutation_spec st N)) in Hi.
    apply in_seq in Hi. lia. }
  intros s1 s2 H1 H2 Hi1 Hi2 Hl1 Hl2.
  rewrite (Hkey s1 H1 Hi1 Hl1), (Hkey s2 H2 Hi2 Hl2).
  apply (prefix_tally_uniform rng (fun st => fst (rng_permutation st N)) N
           (fun st => rng_permutation_spec st N) states Huni
           (N - List.length s1)%nat (List.length s1)).
  - lia.
  - rewrite <- HN. now apply positions_arrangement.
  - replace (List.length s1) with (List.length s2) by lia.
    rewrite <- HN. now apply positions_arrangement.
Qed.

(** C3, amended.  For a fraction [frac] in [0, 1] (on a graph of fewer than
    [2^53] nodes, whose count is exact in binary64) the perturbation cell
    returns.  The number of nodes it removes is [n = int(node_count * frac)]
    with the product computed in binary64: the exact product rounded down or
    rounded up, so [floor(frac * node_count)] or one more, and never more
    than the node count.  The removed nodes are [n] distinct nodes of the
    graph, the labels at the first [n] positions of the random state's
    permutation of all node positions; where that permutation is uniform,
    every list of [n] distinct nodes is removed from equally many states.
    The perturbed graph holds the other nodes, [n] fewer, and exactly the
    edges neither end of which was removed. *)
Theorem C3_perturb_removes_truncated_product (G : graph) (frac : float) (st : rng) :
  wf_graph G -> Z.of_nat (List.length (nodes G)) < 2 ^ 53 ->
  (0 <=? frac)%float = true -> (frac <=? 1)%float = true ->
  exists (n lo hi : Z) (removed : list node) (G_per : graph) (st' : rng),
    sample_size (List.length (nodes G)) frac = Ok n /\
    exact_product_floor (Z.of_nat (List.length (nodes G))) frac = Some lo /\
    exact_product_ceil (Z.of_nat (List.length (nodes G))) frac = Some hi /\
    lo <= n <= hi /\ hi <= lo + 1 /\ 0 <= lo /\ hi <= Z.of_nat (List.length (nodes G)) /\
    perturb rng_permutation G frac st = Ok ((removed, G_per), st') /\
    Z.of_nat (List.length removed) = n /\
    NoDup removed /\ incl removed (node_ids G) /\
    removed = map (fun i => nth i (node_ids G) 0)
                (firstn (List.length removed)
                   (fst (rng_permutation st (List.length (node_ids G))))) /\
    node_ids G_per = filter (fun n => negb (mem n removed)) (node_ids G) /\
    (List.length (nodes G_per) + List.length removed = List.length (nodes G))%nat /\
    edges G_per =
      filter (fun e => negb (mem (edge_u e) removed) && negb (mem (edge_v e) removed))
        (edges G) /\
    (forall e, In e (edges G_per) ->
               ~ In (edge_u e) removed /\ ~ In (edge_v e) removed) /\
    forall states,
      uniform_permutations rng_permutation states (List.length (nodes G)) ->
      forall s1 s2,
        NoDup s1 -> NoDup s2 -> incl s1 (node_ids G) -> incl s2 (node_ids G) ->
        Z.of_nat (List.length s1) = n -> Z.of_nat (List.length s2) = n ->
        times_removed rng_permutation states G frac s1 =
        times_removed rng_permutation states G frac s2.
Proof.
  intros Hwf HN H0 H1.
  destruct (sample_size_in_range (List.length (nodes G)) frac HN H0 H1)
    as (n & lo & hi & Hn & Hlo & Hhi & Hbetween & Hclose & Hlo0 & HhiN).
  assert (Hrange : 0 <= n <= Z.of_nat (List.length (nodes G))) by lia.
  assert (Hmax : n <= intp_max) by (apply intp_covers_binary53; lia).
  destruct (perturb_removes rng rng_permutation rng_permutation_spec G frac n st
              Hwf Hn Hrange Hmax)
    as (removed & G_per & st' & Hrun & _ & Hlen & Hnd & Hincl & Hrem & Hids & Hcount &
        Hedges & Hgone).
  exists n, lo, hi, removed, G_per, st'.
  repeat (split; [assumption|]).
  intros states Huni. now apply removed_unbiased.
Qed.

(** The removed nodes depend on the graph through the order of its node
    identifiers only. *)
Lemma perturb_removed_by_ids (G1 G2 : graph) (frac : float) (st : rng) :
  node_ids G1 = node_ids G2 ->
  match perturb rng_permutation G1 frac st, perturb rng_permutation G2 frac st with
  | Ok ((removed1, _), st1), Ok ((removed2, _), st2) => removed1 = removed2 /\ st1 = st2
  | Raise e1, Raise e2 => e1 = e2
  | _, _ => False
  end.
Proof.
  intros Hids. unfold perturb.
  pose proof (f_equal (@List.length node) Hids) as Hlen.
  rewrite !nodes_length_ids in Hlen. rewrite Hlen.
  destruct (sample_size (List.length (nodes G2)) frac) as [n | e]; cbn [bind];
    [|reflexivity].
  unfold bindM, sample_index, bindM, ret. rewrite Hids.
  destruct (sample_positions rng_permutation (List.length (node_ids G2)) n st)
    as [[positions st'] | e]; [split|]; reflexivity.
Qed.

(** The run from the seeding to the perturbation, step by step. *)
Lemma seeded_perturbation_run
  (seed : Z) (rows : list od_row) (G : graph) (frac : float) (st : rng) :
  seeded_perturbation mt_seed rng_permutation seed rows G frac st =
  match sample_positions rng_permutation (List.length rows) 1000 (mt_seed seed) with
  | Ok (positions, st') =>
      match perturb rng_permutation G frac st' with
      | Ok (res, st'') =>
          Ok ((flat_map (fun i => match nth_error rows i with
                                  | Some row => [row]
                                  | None => []
                                  end) positions, res), st'')
      | Raise e => Raise e
      end
  | Raise e => Raise e
  end.
Proof.
  unfold seeded_perturbation, bindM, np_random_seed, od_sample, bindM, ret.
  destruct (sample_positions rng_permutation (List.length rows) 1000 (mt_seed seed))
    as [[positions st'] | e]; [|reflexivity].
  destruct (perturb rng_permutation G frac st') as [[res st''] | e]; reflexivity.
Qed.

(** Distinct labels: different positions give different labels. *)
Lemma labels_at_positions_inj (labels : list node) (idx1 idx2 : list nat) :
  NoDup labels ->
  (forall i, In i idx1 -> (i < List.length labels)%nat) ->
  (forall i, In i idx2 -> (i < List.length labels)%nat) ->
  map (fun i => nth i labels 0) idx1 = map (fun i => nth i labels 0) idx2 ->
  idx1 = idx2.
Proof.
  intros Hnd H1 H2 Heq.
  assert (Hincl : incl (map (fun i => nth i labels 0) idx2) labels).
  { intros x Hx. apply in_map_iff in Hx. destruct Hx as (i & <- & Hi).
    apply nth_In. now apply H2. }
  apply (labels_at_positions labels _ idx1 Hnd Hincl H1) in Heq.
  rewrite Heq. symmetry.
  now apply (labels_at_positions labels _ idx2 Hnd Hincl H2).
Qed.



End PerturbationClaims.

(** ** The perturbation cell on the example graphs *)

Lemma dots_length (n : nat) : List.length (nodes (dots n)) = n.
Proof. unfold dots. cbn [nodes]. now rewrite length_map, length_seq. Qed.

Lemma dots_wf (n : nat) : wf_graph (dots n).
Proof.
  split; [|intros e []].
  unfold node_ids, dots. cbn [nodes]. rewrite map_map. cbn [fst].
  generalize (seq_NoDup n 1). generalize (seq 1 n). intros l Hl.
  induction Hl as [|i l Hi Hl IH]; simpl; constructor; [|exact IH].
  intros Hin. apply in_map_iff in Hin. destruct Hin as (j & Hj & Hjin).
  apply Nat2Z.inj in Hj. now subst j.
Qed.

(** The run of the cell at a computed sample size, for the rotating
    stand-in for the random state. *)
Lemma rot_perturb_count (G : graph) (frac : float) (n : Z) (st : nat) :
  wf_graph G ->
  sample_size (List.length (nodes G)) frac = Ok n ->
  0 <= n <= Z.of_nat (List.length (nodes G)) -> n <= intp_max ->
  exists removed G_per st',
    perturb rot_permutation G frac st = Ok ((removed, G_per), st') /\
    List.length removed = Z.to_nat n.
Proof.
  intros Hwf Hn Hrange Hmax.
  destruct (perturb_removes nat rot_permutation rot_permutation_spec G frac n st
              Hwf Hn Hrange Hmax) as (removed & G_per & st' & Hrun & _ & Hlen & _).
  exists removed, G_per, st'. split; [exact Hrun | lia].
Qed.

(** C3, as stated, fails in the count.  On 50 nodes the fraction 0.58 is in
    [0, 1] and [floor(0.58 * 50) = 29], yet the cell removes 28 nodes: the
    double nearest to 0.58 lies below it, and so does the product.  Read as
    that double the fraction does not save the claim either: on 10 nodes the
    double nearest to 0.3 gives an exact product just below 3, of floor 2,
    and the cell removes 3 nodes, because the binary64 product rounds to
    3.0. *)
Lemma C3_counterexample :
  ((0 <=? 0.58)%float = true /\ (0.58 <=? 1)%float = true /\ wf_graph (dots 50) /\
   58 * 50 / 100 = 29 /\
   forall st, exists removed G_per st',
     perturb rot_permutation (dots 50) 0.58 st = Ok ((removed, G_per), st') /\
     List.length removed = 28%nat) /\
  ((0 <=? 0.3)%float = true /\ (0.3 <=? 1)%float = true /\ wf_graph (dots 10) /\
   exact_product_floor 10 0.3 = Some 2 /\
   forall st, exists removed G_per st',
     perturb rot_permutation (dots 10) 0.3 st = Ok ((removed, G_per), st') /\
     List.length removed = 3%nat).
Proof.
  split; (split; [reflexivity|]); (split; [reflexivity|]);
    (split; [apply dots_wf|]); (split; [reflexivity|]); intros st.
  - apply (rot_perturb_count (dots 50) 0.58 28 st (dots_wf 50)).
    + rewrite dots_length. reflexivity.
    + rewrite dots_length. lia.
    + unfold intp_max. lia.
  - apply (rot_perturb_count (dots 10) 0.3 3 st (dots_wf 10)).
    + rewrite dots_length. reflexivity.
    + rewrite dots_length. lia.
    + unfold intp_max. lia.
Qed.

(** On two positions the rotating stand-in, started at 0 and at 1, yields
    each of the two permutations once. *)
Lemma rot_uniform_2 : uniform_permutations rot_permutation [0%nat; 1%nat] 2.
Proof.
  intros p q Hp Hq.
  apply Permutation_sym, Permutation_length_2_inv in Hp.
  apply Permutation_sym, Permutation_length_2_inv in Hq.
  destruct Hp as [-> | ->], Hq as [-> | ->]; reflexivity.
Qed.

(** The theorem at two nodes, one of which is removed: the rotating
    stand-in started at 0, and the two states that make its shuffle of two
    positions uniform. *)
Lemma C3_witness :
  (exists removed G_per st',
     perturb rot_permutation loop_graph 0.5 0%nat = Ok ((removed, G_per), st') /\
     List.length removed = 1%nat) /\
  times_removed rot_permutation [0%nat; 1%nat] loop_graph 0.5 [1] =
  times_removed rot_permutation [0%nat; 1%nat] loop_graph 0.5 [2].
Proof.
  destruct (C3_perturb_removes_truncated_product nat rot_permutation rot_permutation_spec
              loop_graph 0.5 0%nat loop_graph_wf eq_refl eq_refl eq_refl)
    as (n & lo & hi & removed & G_per & st' & Hn & _ & _ & _ & _ & _ & _ &
        Hrun & Hlen & _ & _ & _ & _ & _ & _ & _ & Huni).
  assert (Hn1 : n = 1) by (vm_compute in Hn; congruence).
  split.
  - exists removed, G_per, st'. split; [exact Hrun | lia].
  - apply (Huni [0%nat; 1%nat] rot_uniform_2).
    + repeat constructor; simpl; tauto.
    + repeat constructor; simpl; tauto.
    + intros x [<- | []]. simpl. tauto.
    + intros x [<- | []]. simpl. tauto.
    + simpl. lia.
    + simpl. lia.
Defined.

Lemma square_dots_wf : wf_graph square_dots.
Proof. split; [exact (proj1 square_graph_wf) | intros e []]. Qed.




(** ** Nearest nodes *)

Lemma nearest_from_In (lat lon : R) (l : list (node * node_data)) :
  forall best bd,
    nearest_from lat lon best bd l = best \/
    In (nearest_from lat lon best bd l) (map fst l).
Proof.
  induction l as [|[n d] l IH]; intros best bd; simpl; [now left|].
  destruct (Rlt_dec _ bd).
  - destruct (IH n (great_circle lat lon (node_y d) (node_x d))) as [-> | H]; auto.
  - destruct (IH best bd) as [-> | H]; auto.
Qed.

(** A candidate at distance zero is kept: no node is nearer. *)
Lemma nearest_from_zero (lat lon : R) (l : list (node * node_data)) (best : node) :
  nearest_from lat lon best 0 l = best.
Proof.
  induction l as [|[n d] l IH]; simpl; [reflexivity|].
  destruct (Rlt_dec _ 0) as [Hlt | _]; [|exact IH].
  pose proof (great_circle_nonneg lat lon (node_y d) (node_x d)). lra.
Qed.

(** The scan keeps its candidate when no node of the list is nearer, and
    otherwise ends on a node of the list that is nearer than the candidate
    and as near as any node of the list. *)
Lemma nearest_from_min (lat lon : R) (l : list (node * node_data)) :
  forall best bd,
    (nearest_from lat lon best bd l = best /\
     forall n d, In (n, d) l -> (bd <= great_circle lat lon (node_y d) (node_x d))%R) \/
    (exists d0, In (nearest_from lat lon best bd l, d0) l /\
       (great_circle lat lon (node_y d0) (node_x d0) < bd)%R /\
       forall n d, In (n, d) l ->
         (great_circle lat lon (node_y d0) (node_x d0) <=
          great_circle lat lon (node_y d) (node_x d))%R).
Proof.
  induction l as [|[m dm] l IH]; intros best bd; simpl.
  - left. split; [reflexivity | intros n d []].
  - set (gm := great_circle lat lon (node_y dm) (node_x dm)).
    destruct (Rlt_dec gm bd) as [Hlt | Hge].
    + right. destruct (IH m gm) as [[-> Hall] | (d0 & Hin & Hd0 & Hall)].
      * exists dm. split; [now left|]. split; [exact Hlt|].
        intros n d [[= <- <-] | Hnd]; [fold gm; lra | now apply (Hall n)].
      * exists d0. split; [now right|]. split; [lra|].
        intros n d [[= <- <-] | Hnd]; [fold gm; lra | now apply (Hall n)].
    + destruct (IH best bd) as [[-> Hall] | (d0 & Hin & Hd0 & Hall)].
      * left. split; [reflexivity|].
        intros n d [[= <- <-] | Hnd]; [fold gm; lra | now apply (Hall n)].
      * right. exists d0. split; [now right|]. split; [exact Hd0|].
        intros n d [[= <- <-] | Hnd]; [fold gm; lra | now apply (Hall n)].
Qed.

Lemma nearest_node_In (G : graph) (X Y : R) (n : node) :
  nearest_node G X Y = Ok n -> In n (node_ids G).
Proof.
  unfold nearest_node, node_ids. destruct (nodes G) as [|[m d] l]; [discriminate|].
  intros [= <-]. simpl.
  destruct (nearest_from_In Y X l m (great_circle Y X (node_y d) (node_x d))) as [-> | H]; auto.
Qed.

(** The node the lookup returns is a nearest node of the graph. *)
Lemma nearest_node_nearest (G : graph) (X Y : R) (n : node) :
  nearest_node G X Y = Ok n -> is_nearest G X Y n.
Proof.
  unfold nearest_node, is_nearest. destruct (nodes G) as [|[m dm] l]; [discriminate|].
  intros [= <-].
  destruct (nearest_from_min Y X l m (great_circle Y X (node_y dm) (node_x dm)))
    as [[-> Hall] | (d0 & Hin & Hd0 & Hall)].
  - exists dm. split; [now left|].
    intros n d [[= <- <-] | Hnd]; [lra | now apply (Hall n)].
  - exists d0. split; [now right|].
    intros n d [[= <- <-] | Hnd]; [lra | now apply (Hall n)].
Qed.

Lemma nearest_node_total (G : graph) (X Y : R) :
  nodes G <> [] -> exists n, nearest_node G X Y = Ok n.
Proof.
  unfold nearest_node. destruct (nodes G) as [|[m d] l]; [congruence|]. eauto.
Qed.

Lemma nearest_nodes_rows (G : graph) (fx fy : od_row -> R) (od : list od_row) :
  nodes G <> [] -> od <> [] ->
  exists ns,
    nearest_nodes G (map fx od) (map fy od) = Ok ns /\
    Forall2 (fun row n => nearest_node G (fx row) (fy row) = Ok n) od ns.
Proof.
  intros Hne Hod.
  assert (Hall : exists ns,
             mapM (fun xy => nearest_node G (fst xy) (snd xy))
               (combine (map fx od) (map fy od)) = Ok ns /\
             Forall2 (fun row n => nearest_node G (fx row) (fy row) = Ok n) od ns).
  { clear Hod. induction od as [|row od (ns & Hns & HF)]; simpl.
    - exists []. split; [reflexivity | constructor].
    - destruct (nearest_node_total G (fx row) (fy row) Hne) as [n Hn].
      exists (n :: ns). rewrite Hn. simpl. rewrite Hns. simpl.
      split; [reflexivity | now constructor]. }
  destruct Hall as (ns & Hns & HF). exists ns. split; [|exact HF].
  unfold nearest_nodes. destruct (nodes G) as [|p l]; [congruence|].
  destruct od as [|row od]; [congruence|]. exact Hns.
Qed.

(** Without a point to look up, and on a graph without nodes, the lookup
    raises. *)
Lemma nearest_nodes_raises (G : graph) (fx fy : od_row -> R) (od : list od_row) :
  od = [] \/ nodes G = [] -> nearest_nodes G (map fx od) (map fy od) = Raise ValueError.
Proof.
  unfold nearest_nodes. intros [-> | ->]; [|reflexivity].
  destruct (nodes G); reflexivity.
Qed.

Lemma solved_filter (paths : list (option route)) :
  map Some (solved paths) =
    filter is_solved paths.
Proof.
  unfold solved.
  induction paths as [|[r|] paths IH]; cbn [flat_map filter map app is_solved];
    [reflexivity| |exact IH].
  destruct (1 <? Z.of_nat (List.length r)) eqn:E1;
    destruct (2 <=? List.length r)%nat eqn:E2;
    cbn [map app]; rewrite ?IH; try reflexivity.
  - apply Z.ltb_lt in E1. apply Nat.leb_gt in E2. lia.
  - apply Z.ltb_ge in E1. apply Nat.leb_le in E2. lia.
Qed.

Lemma solved_In (paths : list (option route)) (r : route) :
  In r (solved paths) <-> In (Some r) paths /\ (2 <= List.length r)%nat.
Proof.
  rewrite <- Nat.leb_le.
  transitivity (In (Some r) (map Some (solved paths))).
  - split; [apply in_map|]. intros H. apply in_map_iff in H.
    destruct H as (r' & [= ->] & H). exact H.
  - rewrite solved_filter, filter_In. reflexivity.
Qed.

Lemma Forall2_Forall_r {A B : Type} (P : A -> B -> Prop) (Q : B -> Prop)
  (l : list A) (l' : list B) :
  (forall a b, P a b -> Q b) -> Forall2 P l l' -> Forall Q l'.
Proof. intros HPQ HF. induction HF; constructor; eauto. Qed.

Lemma Forall2_weaken {A B : Type} (P Q : A -> B -> Prop) (l : list A) (l' : list B) :
  (forall a b, P a b -> Q a b) -> Forall2 P l l' -> Forall2 Q l l'.
Proof. intros HPQ HF. induction HF; constructor; auto. Qed.

(** Two columns computed row by row, the second avoiding [removed]: where
    the first lies in [removed] the two differ. *)
Lemma Forall2_differ {A : Type} (P Q : A -> node -> Prop) (removed : list node)
  (rows : list A) (xs ys : list node) :
  Forall2 P rows xs -> Forall2 Q rows ys ->
  Forall (fun n => ~ In n removed) ys ->
  Forall2 (fun a b => In a removed -> a <> b) xs ys.
Proof.
  intros HP. revert ys.
  induction HP as [|row a rows' xs' _ _ IH]; intros ys HQ Hys.
  - inversion HQ. constructor.
  - inversion HQ as [|? b ? ys' _ HQ']; subst. inversion Hys as [|? ? Hb Hys']; subst.
    constructor; [|now apply IH].
    intros Ha ->. contradiction.
Qed.

Lemma mapM_Ok_map {A B : Type} (f : A -> result B) (g : A -> B) (l : list A) :
  (forall a, In a l -> f a = Ok (g a)) -> mapM f l = Ok (map g l).
Proof.
  induction l as [|a l IH]; intros H; simpl; [reflexivity|].
  rewrite (H a (in_eq a l)). simpl. rewrite IH; [reflexivity|].
  intros b Hb. apply H. now right.
Qed.

Section Simulation.

Variable shortest_path : graph -> node -> node -> string -> option route.

(** On a graph with edges the routing call on two of its nodes returns what
    networkx finds. *)
Lemma ox_shortest_path_Ok (G : graph) (orig dest : node) (weight : string) :
  edges G <> [] -> In orig (node_ids G) -> In dest (node_ids G) ->
  ox_shortest_path shortest_path G orig dest weight =
    Ok (shortest_path G orig dest weight).
Proof.
  intros He Ho Hd. unfold ox_shortest_path. destruct (edges G); [congruence|].
  apply mem_In in Ho. apply mem_In in Hd. now rewrite Ho, Hd.
Qed.

(** The routing cells on a graph with nodes and edges and a table with
    rows: they return, row by row, the nearest nodes and what networkx finds
    between them. *)
Lemma simulate_trips_rows (G : graph) (od : list od_row) :
  od <> [] -> nodes G <> [] -> edges G <> [] ->
  exists home_nodes work_nodes,
    simulate_trips shortest_path G od =
      Ok (home_nodes, work_nodes,
          map (fun p => shortest_path G (fst p) (snd p) "travel_time")
            (combine home_nodes work_nodes)) /\
    Forall2 (fun row n => nearest_node G (home_lng row) (home_lat row) = Ok n)
      od home_nodes /\
    Forall2 (fun row n => nearest_node G (work_lng row) (work_lat row) = Ok n)
      od work_nodes.
Proof.
  intros Hod Hne Hedges.
  destruct (nearest_nodes_rows G home_lng home_lat od Hne Hod) as (home & Hh & HFh).
  destruct (nearest_nodes_rows G work_lng work_lat od Hne Hod) as (work & Hw & HFw).
  exists home, work. unfold simulate_trips. rewrite Hh. simpl. rewrite Hw. simpl.
  rewrite (mapM_Ok_map _ (fun p => shortest_path G (fst p) (snd p) "travel_time")).
  - simpl. auto.
  - intros [h w] Hin. simpl.
    assert (Hhin : In h home) by (eapply in_combine_l; exact Hin).
    assert (Hwin : In w work) by (eapply in_combine_r; exact Hin).
    apply ox_shortest_path_Ok; [exact Hedges | |].
    + pose proof (Forall2_Forall_r _ (fun n => In n (node_ids G)) od home
                    (fun row n => nearest_node_In G _ _ n) HFh) as HF.
      rewrite Forall_forall in HF. now apply HF.
    + pose proof (Forall2_Forall_r _ (fun n => In n (node_ids G)) od work
                    (fun row n => nearest_node_In G _ _ n) HFw) as HF.
      rewrite Forall_forall in HF. now apply HF.
Qed.

(** When the routing cells raise. *)
Lemma simulate_trips_raises (G : graph) (od : list od_row) :
  (od = [] \/ nodes G = [] -> simulate_trips shortest_path G od = Raise ValueError) /\
  (od <> [] -> nodes G <> [] -> edges G = [] ->
   simulate_trips shortest_path G od = Raise IndexError).
Proof.
  split.
  - intros H. unfold simulate_trips. now rewrite nearest_nodes_raises.
  - intros Hod Hne Hedges.
    destruct (nearest_nodes_rows G home_lng home_lat od Hne Hod) as (home & Hh & HFh).
    destruct (nearest_nodes_rows G work_lng work_lat od Hne Hod) as (work & Hw & HFw).
    unfold simulate_trips. rewrite Hh. simpl. rewrite Hw. simpl.
    destruct od as [|row od]; [congruence|].
    inversion HFh as [|? h ? home' _ _]; subst. inversion HFw as [|? w ? work' _ _]; subst.
    simpl. unfold ox_shortest_path. rewrite Hedges. reflexivity.
Qed.

(** The rows and their routes, put side by side. *)
Lemma rows_routed (G : graph) (od : list od_row) (home work : list node) :
  Forall2 (fun row n => nearest_node G (home_lng row) (home_lat row) = Ok n) od home ->
  Forall2 (fun row n => nearest_node G (work_lng row) (work_lat row) = Ok n) od work ->
  Forall2 (row_route shortest_path G) od
    (map (fun p => shortest_path G (fst p) (snd p) "travel_time") (combine home work)).
Proof.
  intros HFh. revert work. induction HFh as [|row h od home Hh HFh IH]; intros work HFw.
  - inversion HFw. constructor.
  - inversion HFw as [|? w ? work' Hw HFw']; subst. simpl. constructor.
    + exists h, w. repeat split; [exact Hh | exact Hw | now apply nearest_node_nearest
                                  | now apply nearest_node_nearest].
    + now apply IH.
Qed.

(** C8.  The routing cells raise on a table without rows and on a graph
    without nodes ([ValueError]) or without edges ([IndexError]).  Otherwise
    they return one result per origin-destination row, in order: for each
    row, what the routing oracle finds between the node nearest to the home
    and the node nearest to the workplace.  The filter keeps, in order,
    exactly the results that are a route (not [None]) of at least two nodes:
    a row whose result is [None] is left out, the rows left out are counted
    by the difference, and the solved trips are at most as many as the
    rows.  The filter does so on any list of results. *)
Theorem C8_solved_trips (G : graph) (od : list od_row) :
  (forall results : list (option route),
     map Some (solved results) = filter is_solved results /\
     (forall r, In r (solved results) <->
                In (Some r) results /\ (2 <= List.length r)%nat) /\
     (List.length (solved results) <= List.length results)%nat) /\
  (od = [] \/ nodes G = [] -> simulate_trips shortest_path G od = Raise ValueError) /\
  (od <> [] -> nodes G <> [] -> edges G = [] ->
   simulate_trips shortest_path G od = Raise IndexError) /\
  (od <> [] -> nodes G <> [] -> edges G <> [] ->
   exists home_nodes work_nodes paths,
     simulate_trips shortest_path G od = Ok (home_nodes, work_nodes, paths) /\
     Forall2 (row_route shortest_path G) od paths /\
     paths = map (fun p => shortest_path G (fst p) (snd p) "travel_time")
               (combine home_nodes work_nodes) /\
     List.length paths = List.length od /\
     map Some (solved paths) = filter is_solved paths /\
     (forall r, In r (solved paths) <-> In (Some r) paths /\ (2 <= List.length r)%nat) /\
     (List.length (solved paths) +
      List.length (filter (fun p => negb (is_solved p)) paths) = List.length od)%nat /\
     (List.length (solved paths) <= List.length od)%nat).
Proof.
  destruct (simulate_trips_raises G od) as [Hval Hidx].
  split.
  { intros results. split; [apply solved_filter|]. split; [apply solved_In|].
    pose proof (filter_partition_length is_solved results) as Hpart.
    rewrite <- solved_filter, length_map in Hpart. lia. }
  split; [exact Hval|]. split; [exact Hidx|].
  intros Hod Hne Hedges.
  destruct (simulate_trips_rows G od Hod Hne Hedges) as (home & work & Hsim & HFh & HFw).
  pose proof (rows_routed G od home work HFh HFw) as Hrouted.
  set (paths := map _ (combine home work)) in *.
  assert (Hlen : List.length paths = List.length od).
  { symmetry. eapply Forall2_length. exact Hrouted. }
  pose proof (solved_filter paths) as Hfilter.
  pose proof (filter_partition_length
                is_solved paths) as Hpart.
  rewrite <- Hfilter, length_map in Hpart.
  exists home, work, paths.
  split; [exact Hsim|]. split; [exact Hrouted|]. split; [reflexivity|].
  split; [exact Hlen|]. split; [exact Hfilter|].
  split; [apply solved_In|]. split; lia.
Qed.

(** C10.  On a table with rows, and with an edge left in the perturbed
    graph, both runs return, and each snaps the coordinates of every row to
    a nearest node of the graph it simulates: no node of that graph is
    nearer.  In the run on the perturbed graph every origin and destination
    is therefore a node that survived, so wherever the node found in the
    base graph was removed, the node found in the perturbed graph is a
    different one, for the same coordinates; the routes are asked of the
    oracle between the recomputed nodes. *)
Theorem C10_endpoints_recomputed_on_perturbed_graph
  (G : graph) (od : list od_row) (removed : list node) :
  let G_per := remove_nodes_from (copy G) removed in
  wf_graph G -> od <> [] -> edges G_per <> [] ->
  exists home_nodes work_nodes paths home_nodes_per work_nodes_per paths_per,
    simulate_trips shortest_path G od = Ok (home_nodes, work_nodes, paths) /\
    simulate_trips shortest_path G_per od
      = Ok (home_nodes_per, work_nodes_per, paths_per) /\
    Forall2 (fun row n => is_nearest G (home_lng row) (home_lat row) n) od home_nodes /\
    Forall2 (fun row n => is_nearest G (work_lng row) (work_lat row) n) od work_nodes /\
    Forall2 (fun row n => is_nearest G_per (home_lng row) (home_lat row) n)
      od home_nodes_per /\
    Forall2 (fun row n => is_nearest G_per (work_lng row) (work_lat row) n)
      od work_nodes_per /\
    Forall (fun n => In n (node_ids G) /\ ~ In n removed) home_nodes_per /\
    Forall (fun n => In n (node_ids G) /\ ~ In n removed) work_nodes_per /\
    Forall2 (fun a b => In a removed -> a <> b) home_nodes home_nodes_per /\
    Forall2 (fun a b => In a removed -> a <> b) work_nodes work_nodes_per /\
    Forall2 (row_route shortest_path G) od paths /\
    Forall2 (row_route shortest_path G_per) od paths_per /\
    paths_per = map (fun p => shortest_path G_per (fst p) (snd p) "travel_time")
                  (combine home_nodes_per work_nodes_per).
Proof.
  cbv zeta. rewrite copy_eq. intros [Hnd Hcl] Hod Hedges_per.
  assert (Hedges : edges G <> []).
  { intros E. apply Hedges_per. rewrite remove_nodes_from_edges by exact Hcl.
    now rewrite E. }
  assert (Hne_per : nodes (remove_nodes_from G removed) <> []).
  { destruct (edges (remove_nodes_from G removed)) as [|e es] eqn:E; [congruence|].
    pose proof (remove_nodes_from_closed removed G Hcl e) as He.
    rewrite E in He. destruct (He (in_eq e es)) as [Hu _].
    unfold node_ids in Hu. intros En. rewrite En in Hu. destruct Hu. }
  assert (Hne : nodes G <> []).
  { intros E. apply Hne_per. rewrite remove_nodes_from_nodes, E. reflexivity. }
  destruct (simulate_trips_rows G od Hod Hne Hedges) as (home & work & Hsim & HFh & HFw).
  destruct (simulate_trips_rows (remove_nodes_from G removed) od Hod Hne_per Hedges_per)
    as (home_per & work_per & Hsim_per & HFh_per & HFw_per).
  assert (Hsurv : forall X Y n,
             nearest_node (remove_nodes_from G removed) X Y = Ok n ->
             In n (node_ids G) /\ ~ In n removed).
  { intros X Y n Hn. apply nearest_node_In in Hn.
    rewrite remove_nodes_from_node_ids in Hn. apply filter_In in Hn.
    destruct Hn as [Hin Hb]. split; [exact Hin|].
    intros Hr. apply mem_In in Hr. rewrite Hr in Hb. discriminate. }
  assert (Hnear : forall g (fx fy : od_row -> R) ns,
             Forall2 (fun row n => nearest_node g (fx row) (fy row) = Ok n) od ns ->
             Forall2 (fun row n => is_nearest g (fx row) (fy row) n) od ns).
  { intros g fx fy ns. apply Forall2_weaken. intros row n.
    apply nearest_node_nearest. }
  do 2 eexists. eexists. do 2 eexists. eexists.
  split; [exact Hsim|]. split; [exact Hsim_per|].
  split; [now apply Hnear|]. split; [now apply Hnear|].
  split; [now apply Hnear|]. split; [now apply Hnear|].
  assert (Hh : Forall (fun n => In n (node_ids G) /\ ~ In n removed) home_per).
  { eapply Forall2_Forall_r; [|exact HFh_per]. intros row n. apply Hsurv. }
  assert (Hw : Forall (fun n => In n (node_ids G) /\ ~ In n removed) work_per).
  { eapply Forall2_Forall_r; [|exact HFw_per]. intros row n. apply Hsurv. }
  split; [exact Hh|]. split; [exact Hw|].
  split; [eapply Forall2_differ; [exact HFh | exact HFh_per |]|].
  { eapply Forall_impl; [|exact Hh]. intros n [_ Hn]. exact Hn. }
  split; [eapply Forall2_differ; [exact HFw | exact HFw_per |]|].
  { eapply Forall_impl; [|exact Hw]. intros n [_ Hn]. exact Hn. }
  split; [now apply rows_routed|]. split; [now apply rows_routed|].
  reflexivity.
Qed.

End Simulation.

Lemma square_graph_nonempty : nodes square_graph <> [].
Proof. discriminate. Qed.

Lemma square_graph_has_edges : edges square_graph <> [].
Proof. discriminate. Qed.

Lemma square_nearest_origin : nearest_node square_graph 0 0 = Ok 1.
Proof.
  unfold nearest_node, square_graph. cbn [nodes node_y node_x].
  now rewrite great_circle_same, nearest_from_zero.
Qed.

(** The theorem at the square with two origin-destination rows: the first
    row starts at node 1, and at most two trips are solved. *)
Lemma C8_witness :
  exists home_nodes work_nodes paths,
    simulate_trips direct_path square_graph [mk_od 0 0 1 1; mk_od 0 0 0 1]
      = Ok (home_nodes, work_nodes, paths) /\
    Forall2 (row_route direct_path square_graph) [mk_od 0 0 1 1; mk_od 0 0 0 1] paths /\
    (List.length (solved paths) <= 2)%nat.
Proof.
  destruct (proj2 (proj2 (proj2 (C8_solved_trips direct_path square_graph
                                   [mk_od 0 0 1 1; mk_od 0 0 0 1])))
              ltac:(discriminate) square_graph_nonempty square_graph_has_edges)
    as (home & work & paths & Hsim & Hrouted & _ & _ & _ & _ & _ & Hle).
  exists home, work, paths. split; [exact Hsim|]. split; [exact Hrouted | exact Hle].
Defined.

Lemma square_without_1_has_edges :
  edges (remove_nodes_from (copy square_graph) [1]) <> [].
Proof. discriminate. Qed.

(** The theorem at the square with node 1 removed: a home at node 1's
    coordinates is snapped to node 1 before and to another node after. *)
Lemma C10_witness :
  exists home_nodes home_nodes_per,
    Forall2 (fun row n => is_nearest square_graph (home_lng row) (home_lat row) n)
      [mk_od 0 0 1 1] home_nodes /\
    home_nodes = [1] /\
    Forall2 (fun a b => a <> b) home_nodes home_nodes_per.
Proof.
  destruct (C10_endpoints_recomputed_on_perturbed_graph direct_path square_graph
              [mk_od 0 0 1 1] [1] square_graph_wf ltac:(discriminate)
              square_without_1_has_edges)
    as (home & work & paths & home_per & work_per & paths_per &
        Hsim & _ & HFh & _ & _ & _ & _ & _ & Hdiff & _).
  exists home, home_per. split; [exact HFh|].
  assert (Hhome : home = [1]).
  { unfold simulate_trips, nearest_nodes in Hsim.
    cbn [map combine mapM home_lng home_lat work_lng work_lat square_graph nodes fst snd]
      in Hsim.
    fold square_graph in Hsim. rewrite square_nearest_origin in Hsim.
    cbn [bind] in Hsim.
    destruct (nearest_node square_graph 1 1) as [w|]; cbn [bind] in Hsim; [|discriminate].
    destruct (mapM _ _); cbn [bind] in Hsim; [|discriminate].
    now injection Hsim as <- _ _. }
  split; [exact Hhome|]. subst home.
  inversion Hdiff as [|a b xs ys Hab Hrest]; subst. inversion Hrest; subst.
  constructor; [|constructor]. apply Hab. now left.
Defined.

(** ** The store: copying and removing *)

Lemma update_last (h : heap) (o o' : obj) :
  update (h ++ [o]) (List.length h) o' = h ++ [o'].
Proof. induction h as [|a h IH]; simpl; [reflexivity | now rewrite IH]. Qed.

Lemma nth_error_old (h ext : heap) (l : loc) :
  (l < List.length h)%nat -> nth_error (h ++ ext) l = nth_error h l.
Proof. intros H. now apply nth_error_app1. Qed.

Lemma dict_at_old (h ext : heap) (l : loc) :
  (l < List.length h)%nat -> dict_at (h ++ ext) l = dict_at h l.
Proof. intros H. unfold dict_at. now rewrite nth_error_old. Qed.

Lemma nth_error_valid (h : heap) (l : loc) (o : obj) :
  nth_error h l = Some o -> (l < List.length h)%nat.
Proof. intros H. apply nth_error_Some. congruence. Qed.

Lemma copy_dicts_spec {K : Type} (items : list (K * loc)) :
  forall h : heap,
    Forall (fun p => is_dict h (snd p)) items ->
    exists ext items',
      copy_dicts h items = Some (h ++ ext, items') /\
      Forall2 (copied h (h ++ ext)) items items'.
Proof.
  induction items as [|[k l] rest IH]; intros h Hall; simpl.
  - exists [], []. rewrite app_nil_r. split; [reflexivity | constructor].
  - inversion Hall as [|? ? [entries Hl] Hrest]; subst. simpl in Hl. rewrite Hl.
    destruct (IH (h ++ [ODict entries])) as (ext & items' & Hc & HF).
    { eapply Forall_impl; [|exact Hrest]. intros p [en Hp]. exists en.
      rewrite nth_error_old; [exact Hp | eapply nth_error_valid; exact Hp]. }
    rewrite Hc. exists (ODict entries :: ext), ((k, List.length h) :: items').
    rewrite <- app_assoc in *. simpl in *. split; [reflexivity|].
    constructor.
    + unfold copied. simpl. split; [reflexivity|]. split.
      * rewrite length_app. simpl. lia.
      * unfold dict_at at 1. rewrite nth_error_app2 by lia.
        rewrite Nat.sub_diag. simpl. unfold dict_at. now rewrite Hl.
    + clear - HF Hrest.
      induction HF as [|p p' rest items' (Hk & Hb & Hd) _ IH']; [constructor|].
      inversion Hrest as [|? ? [en Hp] Hrest']; subst.
      constructor; [|now apply IH'].
      unfold copied. split; [exact Hk|]. rewrite length_app in Hb. simpl in Hb.
      split; [lia|]. rewrite Hd. apply dict_at_old. eapply nth_error_valid; exact Hp.
Qed.

Lemma copied_extend {K : Type} (h h2 ext : heap) (p p' : K * loc) :
  copied h h2 p p' -> copied h (h2 ++ ext) p p'.
Proof.
  intros (Hk & Hb & Hd). unfold copied. split; [exact Hk|].
  rewrite length_app. split; [lia|]. now rewrite dict_at_old by lia.
Qed.

Lemma copied_rebase {K : Type} (h e1 h2 : heap) (p p' : K * loc) :
  is_dict h (snd p) -> copied (h ++ e1) h2 p p' -> copied h h2 p p'.
Proof.
  intros [en Hp] (Hk & Hb & Hd). unfold copied. split; [exact Hk|].
  rewrite length_app in Hb. split; [lia|].
  rewrite Hd. apply dict_at_old. eapply nth_error_valid; exact Hp.
Qed.

Lemma store_copy_spec (h : heap) (G : loc) (ns : list (node * loc))
  (es : list (node * node * Z * loc)) :
  nth_error h G = Some (OGraph ns es) ->
  (forall l, In l (map snd ns ++ map snd es) -> is_dict h l) ->
  exists ext ns' es',
    store_copy h G = Some ((h ++ ext) ++ [OGraph ns' es'], List.length (h ++ ext)) /\
    Forall2 (copied h (h ++ ext)) ns ns' /\
    Forall2 (copied h (h ++ ext)) es es'.
Proof.
  intros HG Hd. unfold store_copy. rewrite HG.
  assert (Hns : Forall (fun p => is_dict h (snd p)) ns).
  { apply Forall_forall. intros p Hp. apply Hd. apply in_or_app. left. now apply in_map. }
  assert (Hes : Forall (fun p => is_dict h (snd p)) es).
  { apply Forall_forall. intros p Hp. apply Hd. apply in_or_app. right. now apply in_map. }
  destruct (copy_dicts_spec ns h Hns) as (e1 & ns' & Hc1 & HF1). rewrite Hc1.
  destruct (copy_dicts_spec es (h ++ e1)) as (e2 & es' & Hc2 & HF2).
  { eapply Forall_impl; [|exact Hes]. intros p [en Hp]. exists en.
    rewrite nth_error_old; [exact Hp | eapply nth_error_valid; exact Hp]. }
  rewrite Hc2. exists (e1 ++ e2), ns', es'. rewrite app_assoc.
  split; [reflexivity|]. split.
  - eapply Forall2_impl; [|exact HF1]. intros p p'. apply copied_extend.
  - clear - HF2 Hes. induction HF2 as [|p p' es es' Hc _ IH]; [constructor|].
    inversion Hes; subst. constructor; [|now apply IH].
    eapply copied_rebase; eauto.
Qed.

(** Removal on the graph object's tables and removal on the graph value
    agree, whatever the attributes are read from. *)
Lemma store_remove_node_view (vn : node * loc -> node * node_data)
  (ve : node * node * Z * loc -> edge) (g : list (node * loc) * list (node * node * Z * loc))
  (n : node) :
  (forall p, fst (vn p) = fst p) ->
  (forall e, edge_u (ve e) = fst (fst (fst e)) /\ edge_v (ve e) = snd (fst (fst e))) ->
  remove_node (mk_graph (map vn (fst g)) (map ve (snd g))) n =
    mk_graph (map vn (fst (store_remove_node g n))) (map ve (snd (store_remove_node g n))).
Proof.
  intros Hvn Hve. unfold remove_node, store_remove_node, node_ids. simpl.
  rewrite map_map. rewrite (map_ext _ fst Hvn).
  destruct (mem n (map fst (fst g))); [|reflexivity]. simpl. f_equal.
  - rewrite filter_map_swap. f_equal. apply filter_ext. intros p. now rewrite Hvn.
  - rewrite filter_map_swap. f_equal. apply filter_ext. intros e.
    destruct (Hve e) as [-> ->]. reflexivity.
Qed.

Lemma store_remove_nodes_view (vn : node * loc -> node * node_data)
  (ve : node * node * Z * loc -> edge) (removed : list node) :
  (forall p, fst (vn p) = fst p) ->
  (forall e, edge_u (ve e) = fst (fst (fst e)) /\ edge_v (ve e) = snd (fst (fst e))) ->
  forall g,
    remove_nodes_from (mk_graph (map vn (fst g)) (map ve (snd g))) removed =
      mk_graph (map vn (fst (fold_left store_remove_node removed g)))
        (map ve (snd (fold_left store_remove_node removed g))).
Proof.
  intros Hvn Hve. unfold remove_nodes_from.
  induction removed as [|n removed IH]; intros g; simpl; [reflexivity|].
  rewrite (store_remove_node_view vn ve g n Hvn Hve). apply IH.
Qed.

(** Removal only drops entries of the tables. *)
Lemma store_remove_nodes_incl (removed : list node) :
  forall g,
    incl (fst (fold_left store_remove_node removed g)) (fst g) /\
    incl (snd (fold_left store_remove_node removed g)) (snd g).
Proof.
  induction removed as [|n removed IH]; intros g; simpl.
  - split; apply incl_refl.
  - destruct (IH (store_remove_node g n)) as [H1 H2].
    assert (Hstep : incl (fst (store_remove_node g n)) (fst g) /\
                    incl (snd (store_remove_node g n)) (snd g)).
    { unfold store_remove_node. destruct (mem n (map fst (fst g))); simpl.
      - split; apply incl_filter.
      - split; apply incl_refl. }
    destruct Hstep as [S1 S2]. split; eapply incl_tran; eauto.
Qed.

Lemma Forall2_In_r {A B : Type} (P : A -> B -> Prop) (l : list A) (l' : list B) (b : B) :
  Forall2 P l l' -> In b l' -> exists a, In a l /\ P a b.
Proof.
  induction 1 as [|a b' l l' HP _ IH]; simpl; [tauto|].
  intros [<- | Hin]; [eauto|]. destruct (IH Hin) as (a' & Ha & HP'). eauto.
Qed.

Lemma Forall2_map_eq {A B C : Type} (f : A -> C) (g : B -> C) (l : list A) (l' : list B) :
  Forall2 (fun a b => g b = f a) l l' -> map g l' = map f l.
Proof. induction 1; simpl; congruence. Qed.

Section StoreFrame.

Variable rng : Type.
Variable rng_permutation : rng -> nat -> list nat * rng.

(** The run of the cell on a well-formed store, step by step: the sample,
    the copies appended to the store, the new graph object last. *)
Lemma perturb_store_run (h : heap) (G : loc) (frac : float) (st : rng) :
  wf_store h G -> Z.of_nat (List.length (nodes (view h G))) < 2 ^ 53 ->
  (0 <=? frac)%float = true -> (frac <=? 1)%float = true ->
  exists n removed st' ext ns es ns' es',
    nth_error h G = Some (OGraph ns es) /\
    sample_size (List.length ns) frac = Ok n /\
    sample_index rng_permutation (map fst ns) n st = Ok (removed, st') /\
    Forall2 (copied h (h ++ ext)) ns ns' /\
    Forall2 (copied h (h ++ ext)) es es' /\
    perturb_store rng_permutation h G frac st =
      Ok ((removed, List.length (h ++ ext),
           (h ++ ext) ++
           [OGraph (fst (fold_left store_remove_node removed (ns', es')))
                   (snd (fold_left store_remove_node removed (ns', es')))]), st').
Proof.
  intros ((ns & es & HG) & Hdicts & _) HN H0 H1.
  assert (Hlen : List.length (nodes (view h G)) = List.length ns).
  { unfold view. rewrite HG. simpl. apply length_map. }
  rewrite Hlen in HN.
  destruct (sample_size_in_range (List.length ns) frac HN H0 H1)
    as (n & lo & hi & Hn & _ & _ & Hbetween & _ & Hlo0 & HhiN).
  assert (Hs : exists removed st',
             sample_index rng_permutation (map fst ns) n st = Ok (removed, st')).
  { unfold sample_index, bindM, ret. rewrite length_map.
    rewrite sample_positions_ok by (try apply intp_covers_binary53; lia). eauto. }
  destruct Hs as (removed & st' & Hs).
  destruct (store_copy_spec h G ns es HG) as (ext & ns' & es' & Hcopy & HFn & HFe).
  { intros l Hl. apply Hdicts. unfold graph_dicts. now rewrite HG. }
  exists n, removed, st', ext, ns, es, ns', es'.
  split; [exact HG|]. split; [exact Hn|]. split; [exact Hs|].
  split; [exact HFn|]. split; [exact HFe|].
  unfold perturb_store. rewrite HG, Hn. cbn [bind]. rewrite Hs, Hcopy.
  unfold store_remove_nodes_from.
  rewrite nth_error_app2 by lia. rewrite Nat.sub_diag. cbn [nth_error].
  cbv beta iota. now rewrite update_last.
Qed.

(** C5, amended.  On a well-formed store and for a fraction in [0, 1] (the
    graph having fewer than [2^53] nodes, so that their count is exact in
    binary64) the cell returns, and: (1) every object that existed before is unchanged, so
    the base graph has the nodes, edges and attributes it had; (2) the graph
    value the cell leaves at [G_per] is the one the value-level cell
    computes; (3) the perturbed graph's own object and all its node and edge
    attribute dictionaries are new objects; (4) an object reached from both
    graphs is never a graph or an attribute dictionary: it is a list held as
    an attribute value by both, which the copy shares instead of copying. *)
Theorem C5_perturb_copies_tables_and_shares_values
  (h : heap) (G : loc) (frac : float) (st : rng) :
  wf_store h G -> Z.of_nat (List.length (nodes (view h G))) < 2 ^ 53 ->
  (0 <=? frac)%float = true -> (frac <=? 1)%float = true ->
  exists (removed : list node) (G_per : loc) (h' : heap) (st' : rng),
    perturb_store rng_permutation h G frac st = Ok ((removed, G_per, h'), st') /\
    (forall l, (l < List.length h)%nat -> nth_error h' l = nth_error h l) /\
    view h' G = view h G /\
    perturb rng_permutation (view h G) frac st = Ok ((removed, view h' G_per), st') /\
    (forall l, In l (G_per :: graph_dicts h' G_per) -> (List.length h <= l)%nat) /\
    (forall l, In l (reachable h' G) -> In l (reachable h' G_per) ->
               In l (graph_values h' G) /\ In l (graph_values h' G_per) /\
               exists items, nth_error h' l = Some (OList items)).
Proof.
  intros Hwf HN H0 H1.
  destruct (perturb_store_run h G frac st Hwf HN H0 H1)
    as (n & removed & st' & ext & ns & es & ns' & es' & HG & Hn & Hs & HFn & HFe & Hrun).
  destruct Hwf as (_ & Hdicts & Hvals).
  set (g := fold_left store_remove_node removed (ns', es')) in *.
  set (h' := (h ++ ext) ++ [OGraph (fst g) (snd g)]) in *.
  pose proof (nth_error_valid h G _ HG) as HGlt.
  assert (Hold : forall l, (l < List.length h)%nat -> nth_error h' l = nth_error h l).
  { intros l Hl. unfold h'. rewrite <- app_assoc. now apply nth_error_old. }
  assert (Hdold : forall l, (l < List.length h)%nat -> dict_at h' l = dict_at h l).
  { intros l Hl. unfold dict_at. now rewrite Hold. }
  assert (Hdmid : forall l, (l < List.length (h ++ ext))%nat ->
                            dict_at h' l = dict_at (h ++ ext) l).
  { intros l Hl. unfold h'. now apply dict_at_old. }
  assert (HdG : forall l, In l (map snd ns ++ map snd es) -> is_dict h l).
  { intros l Hl. apply Hdicts. unfold graph_dicts. now rewrite HG. }
  assert (HdGlt : forall l, In l (map snd ns ++ map snd es) -> (l < List.length h)%nat).
  { intros l Hl. destruct (HdG l Hl) as [en Hen]. eapply nth_error_valid; exact Hen. }
  assert (HGper : nth_error h' (List.length (h ++ ext)) = Some (OGraph (fst g) (snd g))).
  { unfold h'. rewrite nth_error_app2 by lia. now rewrite Nat.sub_diag. }
  (* the dictionaries of the copy, before and after the removal *)
  assert (Hcn : forall p', In p' ns' ->
              exists p, In p ns /\ copied h (h ++ ext) p p')
    by (intros p'; apply Forall2_In_r; exact HFn).
  assert (Hce : forall p', In p' es' ->
              exists p, In p es /\ copied h (h ++ ext) p p')
    by (intros p'; apply Forall2_In_r; exact HFe).
  destruct (store_remove_nodes_incl removed (ns', es')) as [Hin_n Hin_e].
  fold g in Hin_n, Hin_e. simpl in Hin_n, Hin_e.
  assert (Hper_dicts : forall l, In l (graph_dicts h' (List.length (h ++ ext))) ->
              (List.length h <= l < List.length (h ++ ext))%nat /\
              exists l0, In l0 (map snd ns ++ map snd es) /\ dict_at h' l = dict_at h l0).
  { intros l Hl. unfold graph_dicts in Hl. rewrite HGper in Hl.
    apply in_app_or in Hl. destruct Hl as [Hl | Hl]; apply in_map_iff in Hl;
      destruct Hl as (p' & <- & Hp').
    - destruct (Hcn p' (Hin_n p' Hp')) as (p & Hp & _ & Hb & Hd).
      split; [exact Hb|]. exists (snd p). split.
      + apply in_or_app. left. now apply in_map.
      + rewrite Hdmid by lia. exact Hd.
    - destruct (Hce p' (Hin_e p' Hp')) as (p & Hp & _ & Hb & Hd).
      split; [exact Hb|]. exists (snd p). split.
      + apply in_or_app. right. now apply in_map.
      + rewrite Hdmid by lia. exact Hd. }
  assert (Hview : view h' G = view h G).
  { unfold view. rewrite Hold, HG by exact HGlt. f_equal.
    - apply map_ext_in. intros p Hp. unfold view_node.
      rewrite Hdold; [reflexivity|]. apply HdGlt, in_or_app. left. now apply in_map.
    - apply map_ext_in. intros e He. unfold view_edge.
      rewrite Hdold; [reflexivity|]. apply HdGlt, in_or_app. right. now apply in_map. }
  assert (Hview_per : view h' (List.length (h ++ ext)) = remove_nodes_from (view h G) removed).
  { unfold view at 1. rewrite HGper. unfold g.
    rewrite <- (store_remove_nodes_view (view_node h') (view_edge h') removed
                  ltac:(reflexivity) ltac:(intros; split; reflexivity) (ns', es')).
    f_equal. unfold view. rewrite HG. simpl. f_equal.
    - apply Forall2_map_eq. eapply Forall2_impl; [|exact HFn].
      intros p p' (Hk & Hb & Hd). unfold view_node. rewrite Hdmid, Hd, Hk by lia.
      reflexivity.
    - apply Forall2_map_eq. eapply Forall2_impl; [|exact HFe].
      intros p p' (Hk & Hb & Hd). unfold view_edge. rewrite Hdmid, Hd, Hk by lia.
      reflexivity. }
  exists removed, (List.length (h ++ ext)), h', st'.
  split; [exact Hrun|]. split; [exact Hold|]. split; [exact Hview|].
  split; [|split].
  - assert (Hids : map fst (nodes (view h G)) = map fst ns).
    { unfold view. rewrite HG. simpl. rewrite map_map. reflexivity. }
    assert (Hlen : List.length (nodes (view h G)) = List.length ns).
    { unfold view. rewrite HG. simpl. apply length_map. }
    unfold perturb. rewrite Hlen, Hn. cbn [bind]. unfold bindM at 1, ret, node_ids.
    rewrite Hids, Hs, copy_eq, Hview_per. reflexivity.
  - intros l [<- | Hl]; [rewrite length_app; lia|].
    destruct (Hper_dicts l Hl) as [Hb _]. lia.
  - intros l HlG Hlper.
    (* what the base graph reaches lies in the old store *)
    assert (HvG : graph_values h' G = graph_values h G).
    { unfold graph_values, graph_dicts. rewrite Hold, HG by exact HGlt.
      rewrite !flat_map_concat_map. f_equal.
      apply map_ext_in. intros l0 Hl0. now rewrite Hdold by now apply HdGlt. }
    assert (HdG' : graph_dicts h' G = map snd ns ++ map snd es).
    { unfold graph_dicts. now rewrite Hold, HG by exact HGlt. }
    assert (Hlt : (l < List.length h)%nat).
    { destruct HlG as [<- | HlG]; [exact HGlt|].
      apply in_app_or in HlG. destruct HlG as [HlG | HlG].
      - rewrite HdG' in HlG. now apply HdGlt.
      - rewrite HvG in HlG. destruct (Hvals l HlG) as [items Hi].
        eapply nth_error_valid; exact Hi. }
    (* so, seen from the copy, it is a value *)
    assert (Hval_per : In l (graph_values h' (List.length (h ++ ext)))).
    { destruct Hlper as [<- | Hlper]; [rewrite length_app in Hlt; lia|].
      apply in_app_or in Hlper. destruct Hlper as [Hd | Hv]; [|exact Hv].
      destruct (Hper_dicts l Hd) as [Hb _]. lia. }
    assert (Hval : In l (graph_values h G)).
    { unfold graph_values in Hval_per. apply in_flat_map in Hval_per.
      destruct Hval_per as (l' & Hl' & Hin).
      destruct (Hper_dicts l' Hl') as [_ (l0 & Hl0 & Hd)].
      rewrite Hd in Hin. unfold graph_values, graph_dicts. rewrite HG.
      apply in_flat_map. exists l0. split; assumption. }
    split; [now rewrite HvG|]. split; [exact Hval_per|].
    destruct (Hvals l Hval) as [items Hi]. exists items. now rewrite Hold.
Qed.

End StoreFrame.

Lemma shared_heap_wf : wf_store shared_heap shared_G.
Proof.
  split; [do 2 eexists; reflexivity|]. split.
  - intros l Hl. simpl in Hl.
    repeat (destruct Hl as [<- | Hl]; [eexists; reflexivity|]). destruct Hl.
  - intros l Hl. simpl in Hl.
    repeat (destruct Hl as [<- | Hl]; [eexists; reflexivity|]). destruct Hl.
Qed.

(** C5, as stated, fails in its last part.  The edge of the base graph holds
    a list (its ["osmid"]) at [shared_list].  After the cell has run, here with
    fraction 0, the perturbed graph is a different object, and yet the list
    is reached from both graphs: it is one mutable object that the copy
    shares with the base graph. *)
Lemma C5_counterexample :
  wf_store shared_heap shared_G /\
  exists G_per h' st',
    perturb_store rot_permutation shared_heap shared_G 0 0%nat = Ok (([], G_per, h'), st') /\
    G_per <> shared_G /\
    In shared_list (reachable h' shared_G) /\
    In shared_list (reachable h' G_per) /\
    nth_error h' shared_list = Some (OList [101; 102]).
Proof.
  split; [exact shared_heap_wf|].
  exists 8%nat. eexists. eexists. split.
  - unfold perturb_store. cbn [nth_error shared_heap shared_G List.length].
    change (sample_size 2 0) with (Ok 0 : result Z). reflexivity.
  - split; [discriminate|]. split; [|split]; [| |reflexivity].
    + right. right. right. right. left. reflexivity.
    + right. right. right. right. left. reflexivity.
Qed.

(** The theorem at the store with the shared list, for the fraction 0.5. *)
Lemma C5_witness :
  exists removed G_per h' st',
    perturb_store rot_permutation shared_heap shared_G 0.5 0%nat
      = Ok ((removed, G_per, h'), st') /\
    view h' shared_G = view shared_heap shared_G.
Proof.
  destruct (C5_perturb_copies_tables_and_shares_values nat rot_permutation
              shared_heap shared_G 0.5 0%nat shared_heap_wf
              eq_refl eq_refl eq_refl)
    as (removed & G_per & h' & st' & Hrun & _ & Hview & _).
  exists removed, G_per, h', st'. split; [exact Hrun | exact Hview].
Defined.

(** * Further properties of the cells *)

(** ** The perturbed graph as a graph *)

Lemma remove_nodes_from_wf (ns : list node) (G : graph) :
  wf_graph G -> wf_graph (remove_nodes_from G ns).
Proof.
  intros [Hnd Hcl]. split.
  - rewrite remove_nodes_from_node_ids. now apply NoDup_filter.
  - now apply remove_nodes_from_closed.
Qed.

Lemma removed_node_gone (ns : list node) (G : graph) (n : node) :
  In n ns -> ~ In n (node_ids (remove_nodes_from G ns)).
Proof.
  intros Hn Hin. rewrite remove_nodes_from_node_ids in Hin.
  apply filter_In in Hin. destruct Hin as [_ Hb].
  apply mem_In in Hn. rewrite Hn in Hb. discriminate.
Qed.

(** Whatever the cell returns, the perturbed graph is the base graph
    without the removed nodes. *)
Lemma perturb_result (rng : Type) (rng_permutation : rng -> nat -> list nat * rng)
  (G : graph) (frac : float) (st st' : rng) (removed : list node) (G_per : graph) :
  perturb rng_permutation G frac st = Ok ((removed, G_per), st') ->
  G_per = remove_nodes_from G removed.
Proof.
  unfold perturb. destruct (sample_size (List.length (nodes G)) frac) as [n | e];
    cbn [bind]; [|discriminate].
  unfold bindM, sample_index, bindM, ret.
  destruct (sample_positions rng_permutation (List.length (node_ids G)) n st)
    as [[positions st''] | e]; [|discriminate].
  rewrite copy_eq. now intros [= <- <- _].
Qed.

(** X1.  The perturbed graph is again a graph networkx could hold, and a part of
    the base graph: whenever the cell returns, for whatever fraction, the
    node identifiers of the perturbed graph are distinct, each of its edges
    joins two of its own nodes, and all its nodes and edges (with their
    attributes) are nodes and edges of the base graph.  For a fraction in
    [0, 1] (on fewer than [2^53] nodes) the cell does return. *)
Theorem perturbed_graph_is_well_formed_subgraph
  (rng : Type) (rng_permutation : rng -> nat -> list nat * rng)
  (G : graph) (frac : float) (st : rng) :
  wf_graph G ->
  (forall removed G_per st',
     perturb rng_permutation G frac st = Ok ((removed, G_per), st') ->
     wf_graph G_per /\
     incl (nodes G_per) (nodes G) /\
     incl (edges G_per) (edges G)) /\
  (Z.of_nat (List.length (nodes G)) < 2 ^ 53 ->
   (0 <=? frac)%float = true -> (frac <=? 1)%float = true ->
   exists removed G_per st',
     perturb rng_permutation G frac st = Ok ((removed, G_per), st') /\
     wf_graph G_per /\
     incl (nodes G_per) (nodes G) /\
     incl (edges G_per) (edges G)).
Proof.
  intros Hwf.
  assert (Hpart : forall removed G_per st',
            perturb rng_permutation G frac st = Ok ((removed, G_per), st') ->
            wf_graph G_per /\ incl (nodes G_per) (nodes G) /\ incl (edges G_per) (edges G)).
  { intros removed G_per st' Hrun. apply perturb_result in Hrun. subst G_per.
    split; [now apply remove_nodes_from_wf|]. split.
    - rewrite remove_nodes_from_nodes. apply incl_filter.
    - rewrite remove_nodes_from_edges by exact (proj2 Hwf). apply incl_filter. }
  split; [exact Hpart|]. intros HN H0 H1.
  destruct (sample_size_in_range (List.length (nodes G)) frac HN H0 H1)
    as (n & lo & hi & Hn & _ & _ & Hbetween & _ & Hlo0 & HhiN).
  pose proof (perturb_run rng rng_permutation G frac n st Hn ltac:(lia)
                (intp_covers_binary53 n ltac:(lia))) as Hrun.
  cbv zeta in Hrun. do 3 eexists. split; [exact Hrun|]. exact (Hpart _ _ _ Hrun).
Qed.

(** The theorem at the square, half of whose nodes are removed. *)
Lemma perturbed_graph_is_well_formed_subgraph_witness :
  exists removed G_per st',
    perturb rot_permutation square_graph 0.5 1%nat = Ok ((removed, G_per), st') /\
    wf_graph G_per.
Proof.
  destruct (proj2 (perturbed_graph_is_well_formed_subgraph nat rot_permutation
                     square_graph 0.5 1%nat square_graph_wf) eq_refl eq_refl eq_refl)
    as (removed & G_per & st' & Hrun & Hwf & _).
  exists removed, G_per, st'. split; [exact Hrun | exact Hwf].
Defined.

(** ** Efficiency on the perturbed graph *)

Lemma mapM_ext_in {A B : Type} (f g : A -> result B) (l : list A) :
  (forall a, In a l -> f a = g a) -> mapM f l = mapM g l.
Proof.
  induction l as [|a l IH]; intros H; simpl; [reflexivity|].
  rewrite (H a) by now left. rewrite IH; [reflexivity|].
  intros b Hb. apply H. now right.
Qed.

Lemma mapM_raises {A B : Type} (f : A -> result B) (l : list A) (a : A) (e : exn) :
  In a l -> f a = Raise e -> exists e', mapM f l = Raise e'.
Proof.
  induction l as [|b l IH]; simpl; [tauto|].
  intros [-> | Hin] Ha.
  - rewrite Ha. simpl. eauto.
  - destruct (f b) as [y|e0]; simpl; [|eauto].
    destruct (IH Hin Ha) as [e' ->]. simpl. eauto.
Qed.

Lemma not_mem (n : node) (l : list node) : ~ In n l -> mem n l = false.
Proof.
  intros H. destruct (mem n l) eqn:E; [|reflexivity]. apply mem_In in E. contradiction.
Qed.

Lemma subgraph_edges_off_removed (G : graph) (removed : list node) (r : route) :
  edges_closed G -> (forall n, In n r -> ~ In n removed) ->
  subgraph_edges (remove_nodes_from G removed) r = subgraph_edges G r.
Proof.
  intros Hcl Hoff. unfold subgraph_edges.
  rewrite remove_nodes_from_edges by exact Hcl. rewrite filter_filter.
  apply filter_ext. intros e.
  destruct (mem (edge_u e) r) eqn:Eu; [|now rewrite andb_false_r].
  destruct (mem (edge_v e) r) eqn:Ev; [|now rewrite andb_false_r].
  apply mem_In in Eu. apply mem_In in Ev.
  now rewrite (not_mem _ _ (Hoff _ Eu)), (not_mem _ _ (Hoff _ Ev)).
Qed.

Lemma parallel_edges_off_removed (G : graph) (removed : list node) (u v : node) :
  edges_closed G -> ~ In u removed -> ~ In v removed ->
  parallel_edges (remove_nodes_from G removed) u v = parallel_edges G u v.
Proof.
  intros Hcl Hu Hv. unfold parallel_edges.
  rewrite remove_nodes_from_edges by exact Hcl. rewrite filter_filter.
  apply filter_ext. intros e.
  destruct (edge_u e =? u) eqn:Eu; [|now rewrite andb_false_r].
  destruct (edge_v e =? v) eqn:Ev; [|now rewrite andb_false_r].
  apply Z.eqb_eq in Eu. apply Z.eqb_eq in Ev. rewrite Eu, Ev.
  now rewrite (not_mem _ _ Hu), (not_mem _ _ Hv).
Qed.

Lemma get_node_off_removed (removed : list node) (n : node)
  (l : list (node * node_data)) :
  ~ In n removed ->
  get_node n (filter (fun p => negb (mem (fst p) removed)) l) = get_node n l.
Proof.
  intros Hn. induction l as [|[m d] l IH]; simpl; [reflexivity|].
  destruct (mem m removed) eqn:Em; simpl.
  - destruct (n =? m) eqn:E; [|exact IH].
    apply Z.eqb_eq in E. subst m. apply mem_In in Em. contradiction.
  - now rewrite IH.
Qed.

Lemma route_last_In (r : route) (n : node) : route_last r = Ok n -> In n r.
Proof.
  destruct r as [|a r]; simpl; [discriminate|]. intros [= <-].
  induction r as [|b r IH]; [now left|].
  destruct r as [|c r']; [right; now left|].
  change (last (b :: c :: r') a) with (last (c :: r') a).
  destruct IH as [IH | IH]; [now left | right; now right].
Qed.

(** X2.  The perturbation leaves the efficiency of a route that avoids the removed
    nodes as it was: on the perturbed graph [calc_efficiency] returns the
    same value, or raises the same exception, as on the base graph, and so
    does the trip distance.  A change of a trip's efficiency after the
    perturbation therefore comes from the route having changed. *)
Theorem efficiency_unchanged_off_removed_nodes
  (G : graph) (removed : list node) (r : route) (attr : string) :
  wf_graph G -> (forall n, In n r -> ~ In n removed) ->
  trip_distance (remove_nodes_from (copy G) removed) r attr = trip_distance G r attr /\
  calc_efficiency (remove_nodes_from (copy G) removed) r attr = calc_efficiency G r attr.
Proof.
  intros [_ Hcl] Hoff. rewrite copy_eq.
  assert (Htrip : trip_distance (remove_nodes_from G removed) r attr
                  = trip_distance G r attr).
  { unfold trip_distance, route_to_gdf, column.
    rewrite (subgraph_edges_off_removed G removed r Hcl Hoff).
    rewrite (mapM_ext_in (pick_edge (remove_nodes_from G removed) "length")
               (pick_edge G "length")); [reflexivity|].
    intros uv Huv. apply pairs_in_route in Huv. destruct Huv as [Hu Hv].
    unfold pick_edge. now rewrite parallel_edges_off_removed by auto. }
  split; [exact Htrip|].
  unfold calc_efficiency. rewrite Htrip.
  destruct (trip_distance G r attr) as [td|e]; [|reflexivity]. simpl.
  destruct (route_first r) as [n0|e] eqn:E0; [|reflexivity]. simpl.
  assert (Hn0 : In n0 r) by (destruct r; [discriminate | injection E0 as <-; now left]).
  assert (Hg : forall n, In n r ->
             G_nodes (remove_nodes_from G removed) n = G_nodes G n).
  { intros n Hn. unfold G_nodes. rewrite remove_nodes_from_nodes.
    now rewrite get_node_off_removed by auto. }
  rewrite (Hg n0 Hn0).
  destruct (G_nodes G n0) as [d0|e]; [|reflexivity]. simpl.
  destruct (route_last r) as [n1|e] eqn:E1; [|reflexivity]. simpl.
  now rewrite (Hg n1 (route_last_In r n1 E1)).
Qed.

(** The theorem at the square with node 4 removed, for the route 1-2-3. *)
Lemma efficiency_unchanged_off_removed_nodes_witness :
  calc_efficiency (remove_nodes_from (copy square_graph) [4]) [1; 2; 3] "length"
  = calc_efficiency square_graph [1; 2; 3] "length".
Proof.
  apply (efficiency_unchanged_off_removed_nodes square_graph [4] [1; 2; 3] "length").
  - exact square_graph_wf.
  - intros n Hn Hr. simpl in Hn, Hr. lia.
Defined.

(** X3.  On the perturbed graph a route through a removed node is never given an
    efficiency: [calc_efficiency] raises, whatever the route and the
    attribute. *)
Theorem efficiency_raises_through_removed_node
  (G : graph) (removed : list node) (r : route) (attr : string) (n : node) :
  wf_graph G -> In n r -> In n removed ->
  exists e, calc_efficiency (remove_nodes_from (copy G) removed) r attr = Raise e.
Proof.
  intros [_ Hcl] Hnr Hrem. rewrite copy_eq.
  set (G' := remove_nodes_from G removed).
  assert (Hcl' : edges_closed G') by now apply remove_nodes_from_closed.
  assert (Hgone : ~ In n (node_ids G')) by now apply removed_node_gone.
  assert (Hno : forall e, In e (edges G') -> edge_u e <> n /\ edge_v e <> n).
  { intros e He. destruct (Hcl' e He) as [Hu Hv]. split; intros E; subst n; contradiction. }
  assert (Htrip : exists e, trip_distance G' r attr = Raise e).
  { unfold trip_distance, route_to_gdf.
    destruct (subgraph_edges G' r) as [|e0 l0] eqn:Es; [simpl; eauto|].
    assert (Hlen : (2 <= List.length r)%nat).
    { destruct r as [|a [|b r']]; simpl; try lia; [destruct Hnr|].
      destruct Hnr as [<- | []].
      assert (He0 : In e0 (subgraph_edges G' [a])) by (rewrite Es; now left).
      unfold subgraph_edges in He0. apply filter_In in He0. destruct He0 as [He0 Hb].
      apply andb_true_iff in Hb. destruct Hb as [Hu _]. apply mem_In in Hu.
      destruct Hu as [Hu | []]. destruct (Hno e0 He0) as [Hne _]. congruence. }
    destruct (route_node_in_pair r n Hlen Hnr) as (uv & Huv & Hends).
    assert (Hpick : pick_edge G' "length" uv = Raise KeyError).
    { unfold pick_edge.
      destruct (parallel_edges G' (fst uv) (snd uv)) as [|e l] eqn:Ep; [reflexivity|].
      assert (He : In e (parallel_edges G' (fst uv) (snd uv))) by (rewrite Ep; now left).
      apply parallel_edges_In in He. destruct He as (He & Hu & Hv).
      destruct (Hno e He) as [Hnu Hnv]. destruct Hends; congruence. }
    destruct (mapM_raises _ _ _ _ Huv Hpick) as [e' He']. rewrite He'. simpl. eauto. }
  destruct Htrip as [e He]. exists e. unfold calc_efficiency. now rewrite He.
Qed.

(** The theorem at the square with node 2 removed, for the route 1-2-3. *)
Lemma efficiency_raises_through_removed_node_witness :
  exists e, calc_efficiency (remove_nodes_from (copy square_graph) [2]) [1; 2; 3] "length"
            = Raise e.
Proof.
  apply (efficiency_raises_through_removed_node square_graph [2] [1; 2; 3] "length" 2).
  - exact square_graph_wf.
  - simpl. auto.
  - simpl. auto.
Defined.

(** ** The efficiency series of the solved trips *)

Lemma Rsum_pos (l : list R) :
  l <> [] -> Forall (fun x => (0 < x)%R) l -> (0 < Rsum l)%R.
Proof.
  intros Hne Hall. destruct l as [|a l]; [congruence|]. clear Hne.
  inversion Hall as [|? ? Ha Hl]; subst. simpl.
  assert (H0 : (0 <= Rsum l)%R).
  { clear - Hl. induction Hl as [|b l Hb _ IH]; simpl; lra. }
  lra.
Qed.

Lemma Rsum_nonneg (l : list R) : Forall (fun x => (0 <= x)%R) l -> (0 <= Rsum l)%R.
Proof. induction 1 as [|a l Ha _ IH]; simpl; lra. Qed.

Lemma Forall2_Fin_values {A : Type} (Q : R -> Prop) (l : list A) (bs : list float64) :
  Forall2 (fun _ b => exists x, b = Fin x /\ Q x) l bs ->
  exists xs, bs = map Fin xs /\ List.length xs = List.length l /\ Forall Q xs.
Proof.
  induction 1 as [|a b l bs (x & -> & Hx) _ (xs & -> & Hlen & HQ)].
  - exists []. repeat split; constructor.
  - exists (x :: xs). simpl. rewrite Hlen. repeat split; constructor; assumption.
Qed.

Lemma pd_mean_Fin (xs : list R) :
  xs <> [] -> pd_mean (map Fin xs) = Fin (Rsum xs / INR (List.length xs)).
Proof.
  intros Hne. unfold pd_mean.
  assert (Hf : filter (fun a => negb (is_nan a)) (map Fin xs) = map Fin xs).
  { apply forallb_filter_id. apply forallb_forall. intros a Ha.
    apply in_map_iff in Ha. destruct Ha as (x & <- & _). reflexivity. }
  rewrite Hf. destruct xs as [|x xs']; [congruence|].
  change (map Fin (x :: xs')) with (Fin x :: map Fin xs') at 1.
  cbv iota beta. rewrite py_sum_Fin, length_map.
  apply f_div_Fin. apply not_0_INR. discriminate.
Qed.

(** A route along edges that all carry a length is valid. *)
Lemma follows_edges_valid (G : graph) (r : route) :
  (forall e, In e (edges G) -> has_length e) ->
  (2 <= List.length r)%nat -> follows_edges G r -> valid_route G r.
Proof.
  intros Hlen H2 Hfol. split; [exact H2|].
  eapply Forall_impl; [|exact Hfol]. intros uv Hne. split; [exact Hne|].
  apply Forall_forall. intros e He. apply parallel_edges_In in He. apply Hlen, He.
Qed.


Lemma square_positive_lengths (e : edge) :
  In e (edges square_graph) ->
  exists l, get_attr "length" (edge_data e) = Some l /\ (0 < l)%R.
Proof.
  simpl. intros He.
  repeat (destruct He as [<- | He]; [exists 1%R; split; [reflexivity | lra]|]).
  destruct He.
Qed.


(** ** Boundary fractions of the perturbation *)

(** The notebook's fraction on fewer than ten nodes. *)
Lemma tenth_of_few_nodes (N : nat) : (N < 10)%nat -> sample_size N 0.10 = Ok 0.
Proof.
  intros HN. do 10 (destruct N as [|N]; [reflexivity|]). lia.
Qed.

(** The cell at sample size 0: nothing is removed, the graph is copied as it
    is, and a permutation has been drawn all the same. *)
Lemma perturb_nothing (rng : Type) (rng_permutation : rng -> nat -> list nat * rng)
  (G : graph) (frac : float) (st : rng) :
  sample_size (List.length (nodes G)) frac = Ok 0 ->
  perturb rng_permutation G frac st
  = Ok (([], G), snd (rng_permutation st (List.length (nodes G)))).
Proof.
  intros Hn.
  pose proof (perturb_run rng rng_permutation G frac 0 st Hn ltac:(lia)
                ltac:(unfold intp_max; lia)) as Hrun.
  exact Hrun.
Qed.

(** X5.  A fraction too small for the graph removes nothing.  When the
    binary64 product [node_count * frac] lies strictly between -1 and 1 the
    sample size truncates to 0: the cell returns no node to remove and a
    perturbed graph equal to the base graph, and the random state has
    advanced by one permutation all the same.  The notebook's fraction 0.10
    leaves every graph of fewer than ten nodes as it is. *)
Theorem small_fraction_removes_nothing
  (rng : Type) (rng_permutation : rng -> nat -> list nat * rng)
  (G : graph) (st : rng) :
  (forall (frac x : float),
     py_float (Z.of_nat (List.length (nodes G))) = Ok x ->
     (-1 <? x * frac)%float = true -> (x * frac <? 1)%float = true ->
     perturb rng_permutation G frac st
     = Ok (([], G), snd (rng_permutation st (List.length (nodes G))))) /\
  ((List.length (nodes G) < 10)%nat ->
   perturb rng_permutation G 0.10 st
   = Ok (([], G), snd (rng_permutation st (List.length (nodes G))))).
Proof.
  split.
  - intros frac x Hx Hlo Hhi. apply perturb_nothing.
    unfold sample_size. rewrite Hx. cbn [bind]. now apply py_int_small.
  - intros HN. apply perturb_nothing. now apply tenth_of_few_nodes.
Qed.

(** The theorem at the square, four nodes: for the fraction 0.2, whose
    product 0.8 is below 1, and for the notebook's fraction. *)
Lemma small_fraction_removes_nothing_witness :
  perturb rot_permutation square_graph 0.2 0%nat
  = Ok (([], square_graph),
        snd (rot_permutation 0%nat (List.length (nodes square_graph)))) /\
  perturb rot_permutation square_graph 0.10 0%nat
  = Ok (([], square_graph),
        snd (rot_permutation 0%nat (List.length (nodes square_graph)))).
Proof.
  split.
  - apply (proj1 (small_fraction_removes_nothing nat rot_permutation square_graph 0%nat)
             0.2%float 4%float); reflexivity.
  - apply (proj2 (small_fraction_removes_nothing nat rot_permutation square_graph 0%nat)).
    simpl. lia.
Defined.

(** X6.  The fraction 1 removes everything, and the next cell fails.  With a
    random state whose permutations are permutations, the cell run with
    [frac = 1] (on fewer than [2^53] nodes, whose count is exact in binary64)
    removes every node of the graph; the perturbed graph has no node and no
    edge left, and the routing cells raise [ValueError] on it, whatever the
    oracle and the origin-destination rows. *)
Theorem full_fraction_removes_everything
  (rng : Type) (rng_permutation : rng -> nat -> list nat * rng)
  (G : graph) (st : rng) :
  (forall st n, Permutation (fst (rng_permutation st n)) (seq 0 n)) ->
  wf_graph G -> Z.of_nat (List.length (nodes G)) < 2 ^ 53 ->
  exists removed G_per st',
    perturb rng_permutation G 1 st = Ok ((removed, G_per), st') /\
    Permutation removed (node_ids G) /\
    nodes G_per = [] /\ edges G_per = [] /\
    forall (shortest_path : graph -> node -> node -> string -> option route)
           (od : list od_row),
      simulate_trips shortest_path G_per od = Raise ValueError.
Proof.
  intros Hperm [Hnd Hcl] HN.
  pose proof (sample_size_one (List.length (nodes G)) HN) as Hn.
  assert (Hlen : List.length (node_ids G) = List.length (nodes G))
    by (unfold node_ids; apply length_map).
  destruct (perturb_removes rng rng_permutation Hperm G 1 (Z.of_nat (List.length (nodes G)))
              st (conj Hnd Hcl) Hn ltac:(lia) (intp_covers_binary53 _ HN))
    as (removed & G_per & st' & Hrun & -> & Hrlen & Hrnd & Hrincl & _).
  apply Nat2Z.inj in Hrlen.
  assert (Hall : incl (node_ids G) removed).
  { apply NoDup_length_incl; [exact Hrnd | lia | exact Hrincl]. }
  assert (Hnodes : nodes (remove_nodes_from G removed) = []).
  { rewrite remove_nodes_from_nodes.
    destruct (filter _ (nodes G)) as [|p l] eqn:E; [reflexivity|].
    assert (Hp : In p (filter (fun p => negb (mem (fst p) removed)) (nodes G)))
      by (rewrite E; now left).
    apply filter_In in Hp. destruct Hp as [Hp Hb].
    assert (Hr : In (fst p) removed) by (apply Hall; unfold node_ids; now apply in_map).
    apply mem_In in Hr. rewrite Hr in Hb. discriminate. }
  assert (Hedges : edges (remove_nodes_from G removed) = []).
  { rewrite remove_nodes_from_edges by exact Hcl.
    destruct (filter _ (edges G)) as [|e l] eqn:E; [reflexivity|].
    assert (He : In e (filter (fun e => negb (mem (edge_u e) removed) &&
                                        negb (mem (edge_v e) removed)) (edges G)))
      by (rewrite E; now left).
    apply filter_In in He. destruct He as [He Hb].
    destruct (Hcl e He) as [Hu _]. apply Hall, mem_In in Hu.
    rewrite Hu in Hb. discriminate. }
  exists removed, (remove_nodes_from G removed), st'.
  split; [|split; [|split; [exact Hnodes|split; [exact Hedges|]]]].
  - exact Hrun.
  - apply NoDup_Permutation; [exact Hrnd | exact Hnd |].
    intros x. split; [apply Hrincl | apply Hall].
  - intros shortest_path od.
    apply (proj1 (simulate_trips_raises shortest_path _ od)). now right.
Qed.

(** The theorem at the square, with the rotating stand-in for the random
    state. *)
Lemma full_fraction_removes_everything_witness :
  exists removed G_per st',
    perturb rot_permutation square_graph 1 0%nat = Ok ((removed, G_per), st') /\
    nodes G_per = [].
Proof.
  destruct (full_fraction_removes_everything nat rot_permutation square_graph 0%nat
              rot_permutation_spec square_graph_wf eq_refl)
    as (removed & G_per & st' & Hrun & _ & Hnodes & _).
  exists removed, G_per, st'. split; [exact Hrun | exact Hnodes].
Defined.

(** ** The range of the share of unsolvable trips *)

(** X7.  With at least one trip solved before, the share [1 - len(paths_per) /
    len(paths)] is a number, at most 1, and 1 exactly when no trip is solved
    after the perturbation.  It is not negative exactly when at most as many
    trips are solved after as before, which the cells do not enforce (the
    endpoints are looked up anew on the perturbed graph): with more trips
    solved after than before the share is below 0. *)
Theorem fraction_unsolvable_range (paths_per paths : list route) :
  (0 < List.length paths)%nat ->
  exists v : R,
    fraction_unsolvable paths_per paths = Ok (Fin v) /\
    (v <= 1)%R /\
    (v = 1%R <-> paths_per = []) /\
    ((0 <= v)%R <-> (List.length paths_per <= List.length paths)%nat).
Proof.
  intros Hpos.
  set (a := INR (List.length paths_per)). set (b := INR (List.length paths)).
  assert (Ha : (0 <= a)%R) by apply pos_INR.
  assert (Hb : (0 < b)%R) by now apply lt_0_INR.
  assert (Hq : (a / b * b = a)%R) by (field; lra).
  assert (Hq0 : (0 <= a / b)%R).
  { apply Rmult_le_reg_r with b; [exact Hb | lra]. }
  exists (1 - a / b)%R. split; [|split; [lra|split]].
  - unfold fraction_unsolvable, py_truediv.
    destruct (Z.of_nat (List.length paths) =? 0) eqn:E; [apply Z.eqb_eq in E; lia|].
    simpl. rewrite <- !INR_IZR_INZ. reflexivity.
  - split.
    + intros Hv. assert (Ha0 : a = 0%R) by nra.
      unfold a in Ha0. destruct paths_per; [reflexivity|].
      apply INR_eq with (m := 0%nat) in Ha0. discriminate.
    + intros ->. unfold a. simpl. lra.
  - split.
    + intros Hv. apply INR_le. fold a b. nra.
    + intros Hle. apply le_INR in Hle. fold a b in Hle.
      assert (a / b <= 1)%R; [|lra].
      apply Rmult_le_reg_r with b; [exact Hb | lra].
Qed.

(** The theorem at two trips solved after and one before: the share is
    below 0. *)
Lemma fraction_unsolvable_range_witness :
  exists v : R,
    fraction_unsolvable [[1; 2]; [2; 3]] [[1; 2]] = Ok (Fin v) /\ ~ (0 <= v)%R.
Proof.
  destruct (fraction_unsolvable_range [[1; 2]; [2; 3]] [[1; 2]] ltac:(simpl; lia))
    as (v & Hrun & _ & _ & Hsign).
  exists v. split; [exact Hrun|].
  intros Hv. apply Hsign in Hv. simpl in Hv. lia.
Defined.

(** ** The table behind the before/after plot *)

Lemma combine_app_same {A B : Type} (l1 l2 : list A) (r1 r2 : list B) :
  List.length l1 = List.length r1 ->
  combine (l1 ++ l2) (r1 ++ r2) = combine l1 r1 ++ combine l2 r2.
Proof.
  revert r1. induction l1 as [|a l1 IH]; intros [|b r1] H; simpl in *; try discriminate.
  - reflexivity.
  - f_equal. apply IH. lia.
Qed.

Lemma combine_repeat {A B : Type} (l : list A) (c : B) :
  combine l (repeat c (List.length l)) = map (fun a => (a, c)) l.
Proof. induction l as [|a l IH]; simpl; [reflexivity | now rewrite IH]. Qed.

Lemma combine_repeat_n {A B : Type} (l : list A) (c : B) (n : nat) :
  List.length l = n -> combine l (repeat c n) = map (fun a => (a, c)) l.
Proof. intros <-. apply combine_repeat. Qed.

Lemma map_nth_seq {A : Type} (d : A) (l : list A) :
  map (fun i => nth i l d) (seq 0 (List.length l)) = l.
Proof.
  induction l as [|a l IH]; simpl; [reflexivity|]. f_equal.
  rewrite <- seq_shift, map_map. exact IH.
Qed.

(** Taking the rows at the positions of a permutation of all positions
    succeeds and rearranges the rows. *)
Lemma take_permutation {A : Type} (d : A) (rows : list A) (perm : list nat) :
  Permutation perm (seq 0 (List.length rows)) ->
  exists taken,
    mapM (fun i => match nth_error rows i with
                   | Some a => Ok a
                   | None => Raise IndexError
                   end) perm = Ok taken /\
    Permutation taken rows.
Proof.
  intros Hperm.
  assert (Hlt : forall i, In i perm -> (i < List.length rows)%nat).
  { intros i Hi. apply (Permutation_in _ Hperm) in Hi. apply in_seq in Hi. lia. }
  exists (map (fun i => nth i rows d) perm). split.
  - clear Hperm. induction perm as [|i perm IH]; simpl; [reflexivity|].
    rewrite (nth_error_nth' rows d) by (apply Hlt; now left). simpl.
    rewrite IH; [reflexivity|]. intros j Hj. apply Hlt. now right.
  - eapply Permutation_trans; [apply Permutation_map; exact Hperm|].
    rewrite map_nth_seq. apply Permutation_refl.
Qed.

(** X8.  The plotting cell builds its table only when both runs solved at least
    [n] trips.  Then the table holds, in a random order, the first [n] routes
    of the base run each with the colour ["c"] and the first [n] routes of
    the perturbed run each with the colour ["y"]: the shuffle never separates
    a route from its colour.  With fewer than [n] solved trips in either run
    the two columns differ in length and the cell raises [ValueError]. *)
Theorem routes_table_needs_enough_trips
  (rng : Type) (rng_permutation : rng -> nat -> list nat * rng)
  (n : nat) (paths paths_per : list route) (st : rng) :
  (forall st n, Permutation (fst (rng_permutation st n)) (seq 0 n)) ->
  ((n <= List.length paths)%nat /\ (n <= List.length paths_per)%nat ->
   exists rows st',
     routes_table rng_permutation n paths paths_per st = Ok (rows, st') /\
     Permutation rows
       (map (fun p => (p, "c"%string)) (firstn n paths) ++
        map (fun p => (p, "y"%string)) (firstn n paths_per))) /\
  ((List.length paths < n)%nat \/ (List.length paths_per < n)%nat ->
   routes_table rng_permutation n paths paths_per st = Raise ValueError).
Proof.
  intros Hperm. split.
  - intros [H1 H2].
    assert (L1 : List.length (firstn n paths) = n) by (rewrite length_firstn; lia).
    assert (L2 : List.length (firstn n paths_per) = n) by (rewrite length_firstn; lia).
    unfold routes_table, pd_DataFrame.
    rewrite !length_app, !repeat_length, L1, L2, Nat.eqb_refl.
    rewrite combine_app_same by now rewrite repeat_length.
    rewrite (combine_repeat_n _ "c"%string n L1), (combine_repeat_n _ "y"%string n L2).
    set (table := _ ++ _). unfold sample_all.
    pose proof (Hperm st (List.length table)) as Hp.
    destruct (rng_permutation st (List.length table)) as [perm st']. simpl in Hp.
    destruct (take_permutation (A := route * string) ([], EmptyString) table perm Hp)
      as (taken & Ht & HP).
    exists taken, st'. rewrite Ht. split; [reflexivity | exact HP].
  - intros Hshort. unfold routes_table, pd_DataFrame.
    rewrite !length_app, !repeat_length, !length_firstn.
    destruct (_ =? _)%nat eqn:E; [|reflexivity].
    apply Nat.eqb_eq in E. lia.
Qed.

(** The theorem for a table of one route per run, and for a run that solved
    nothing. *)
Lemma routes_table_needs_enough_trips_witness :
  (exists rows st',
     routes_table rot_permutation 1 [[1; 2]] [[1; 4; 3]] 0%nat = Ok (rows, st')) /\
  routes_table rot_permutation 1 [[1; 2]] [] 0%nat = Raise ValueError.
Proof.
  split.
  - destruct (proj1 (routes_table_needs_enough_trips nat rot_permutation 1
                       [[1; 2]] [[1; 4; 3]] 0%nat rot_permutation_spec))
      as (rows & st' & Hrun & _); [simpl; lia|].
    eauto.
  - apply (proj2 (routes_table_needs_enough_trips nat rot_permutation 1
                    [[1; 2]] [] 0%nat rot_permutation_spec)).
    right. simpl. lia.
Defined.

(** ** Travel times at the walking speed *)

Lemma get_attr_set_same (k : string) (v : R) (d : attrs) :
  get_attr k (set_attr k v d) = Some v.
Proof.
  induction d as [|[k' v'] d IH]; simpl.
  - now rewrite String.eqb_refl.
  - destruct (String.eqb k k') eqn:E; simpl; rewrite E; [reflexivity | exact IH].
Qed.

Lemma get_attr_set_other (k k' : string) (v : R) (d : attrs) :
  String.eqb k' k = false -> get_attr k' (set_attr k v d) = get_attr k' d.
Proof.
  intros Hne. induction d as [|[k0 v0] d IH]; simpl.
  - now rewrite Hne.
  - destruct (String.eqb k k0) eqn:E; simpl.
    + apply String.eqb_eq in E. subst k0. now rewrite Hne.
    + destruct (String.eqb k' k0); [reflexivity | exact IH].
Qed.

Lemma map_by_key {A B C : Type} (k : A -> option B) (F : A -> C) (g : B -> C)
  (l : list A) (bs : list B) :
  map k l = map Some bs ->
  (forall a b, k a = Some b -> F a = g b) ->
  map F l = map g bs.
Proof.
  intros Hk HF. revert bs Hk.
  induction l as [|a l IH]; intros [|b bs] Hk; simpl in Hk; try discriminate;
    [reflexivity|].
  injection Hk as Ha Hrest. simpl. now rewrite (HF a b Ha), (IH bs Hrest).
Qed.

(** X9.  After the loop that sets the walking speed on every edge, the travel
    time of an edge depends on its length alone.  On a graph with at least
    one edge, all edges carrying a ["length"], the travel times are computed
    (nothing is raised) and each is 0.8 seconds per metre of the edge,
    whatever speed the edge carried before; so an edge can be walked within
    [maxdist] (20 minutes) exactly when it is at most 1500 metres long. *)
Theorem walk_travel_times_proportional_to_length (G : graph) (lens : list R) :
  edges G <> [] ->
  map (fun e => get_attr "length" (edge_data e)) (edges G) = map Some lens ->
  edge_travel_times (set_walk_speed G) = Ok (map (fun l => Fin (l * 8 / 10)) lens) /\
  Forall (fun l => (l * 8 / 10 <= IZR maxdist)%R <-> (l <= 1500)%R) lens.
Proof.
  intros Hne Hlens. split.
  - unfold edge_travel_times, set_walk_speed. cbn [edges].
    assert (Hlen : forall e, In e (edges G) ->
               exists l, get_attr "length" (edge_data e) = Some l).
    { intros e He. apply (in_map (fun e => get_attr "length" (edge_data e))) in He.
      rewrite Hlens in He. apply in_map_iff in He. destruct He as (l & <- & _). eauto. }
    set (es' := map _ (edges G)).
    assert (Hes' : forall e', In e' es' ->
               has_attr "length" e' = true /\ has_attr "speed_kph" e' = true).
    { intros e' He'. unfold es' in He'. apply in_map_iff in He'.
      destruct He' as (e & <- & He). unfold has_attr. cbn [edge_data].
      rewrite get_attr_set_same, get_attr_set_other by reflexivity.
      destruct (Hlen e He) as [l ->]. auto. }
    assert (Hne' : es' <> []).
    { unfold es'. destruct (edges G); [congruence | discriminate]. }
    destruct es' as [|e0 rest] eqn:Ees; [congruence|]. rewrite <- Ees in *.
    assert (Hex : existsb (has_attr "length") es' && existsb (has_attr "speed_kph") es' = true).
    { apply andb_true_iff. split; apply existsb_exists; exists e0;
        (split; [rewrite Ees; now left | apply Hes'; rewrite Ees; now left]). }
    assert (Hall : forallb (has_attr "length") es' && forallb (has_attr "speed_kph") es' = true).
    { apply andb_true_iff. split; apply forallb_forall; intros e' He'; now apply Hes'. }
    rewrite Hex, Hall. cbn [negb]. f_equal. unfold es'. rewrite map_map.
    apply (map_by_key (fun e => get_attr "length" (edge_data e))); [exact Hlens|].
    intros e l Hl. cbn [edge_data].
    rewrite get_attr_set_same, get_attr_set_other, Hl by reflexivity.
    unfold walk_speed. rewrite f_div_Fin by lra. f_equal. lra.
  - apply Forall_forall. intros l _.
    replace (IZR maxdist) with 1200%R by reflexivity. split; intros H; lra.
Qed.

(** The theorem at the square, whose edges are one metre long. *)
Lemma walk_travel_times_proportional_to_length_witness :
  edge_travel_times (set_walk_speed square_graph)
  = Ok (map (fun l => Fin (l * 8 / 10)) (repeat 1%R 8)).
Proof.
  apply (walk_travel_times_proportional_to_length square_graph (repeat 1%R 8)).
  - discriminate.
  - reflexivity.
Defined.

(** ** The social distances of the first notebook *)

(** X10.  Every edge of the social network gets one distance, and it is a number
    between 1/99 and 1.  With a [randint] that returns [size] integers in
    [low, high), the counts are at least 1, so that the inverse never meets
    a zero: no distance is infinite or [nan], none is zero or negative, and
    the distances follow the edges in order. *)
Theorem social_distances_between_0_and_1
  (rng : Type) (rng_randint : rng -> Z -> Z -> nat -> list Z * rng)
  (G_edges : list (node * node)) (st : rng) :
  (forall st low high size, low < high ->
     List.length (fst (rng_randint st low high size)) = size /\
     Forall (fun c => low <= c < high) (fst (rng_randint st low high size))) ->
  exists distances st',
    social_distances rng_randint G_edges st = Ok (distances, st') /\
    map fst distances = G_edges /\
    Forall (fun d => exists x, snd d = Fin x /\ (1 / 99 <= x <= 1)%R) distances.
Proof.
  intros Hrand. unfold social_distances.
  destruct (Hrand st 1 100 (List.length G_edges) ltac:(lia)) as [Hlen Hrange].
  destruct (rng_randint st 1 100 (List.length G_edges)) as [counts st'].
  simpl in Hlen, Hrange.
  eexists. exists st'. split; [reflexivity|]. split.
  - rewrite map_map. simpl. clear Hrange. revert counts Hlen.
    induction G_edges as [|e es IH]; intros [|c counts] Hlen; simpl in *;
      try discriminate; [reflexivity|].
    f_equal. apply IH. lia.
  - apply Forall_forall. intros d Hd. apply in_map_iff in Hd.
    destruct Hd as ([e c] & <- & Hin). simpl.
    apply in_combine_r in Hin. rewrite Forall_forall in Hrange.
    destruct (Hrange c Hin) as [Hlo Hhi].
    assert (H1 : (1 <= IZR c)%R) by now apply IZR_le.
    assert (H99 : (IZR c <= 99)%R) by (apply IZR_le; lia).
    exists (1 / IZR c)%R. split; [apply f_div_Fin; lra|].
    split.
    + apply Rmult_le_reg_r with (IZR c * 99)%R; [lra|].
      field_simplify; lra.
    + apply Rmult_le_reg_r with (IZR c); [lra|].
      unfold Rdiv. rewrite Rmult_assoc, Rinv_l by lra. lra.
Qed.

Lemma const_randint_spec (st : nat) (low high : Z) (size : nat) :
  low < high ->
  List.length (fst (const_randint st low high size)) = size /\
  Forall (fun c => low <= c < high) (fst (const_randint st low high size)).
Proof.
  intros Hlt. unfold const_randint. simpl. split; [apply repeat_length|].
  apply Forall_forall. intros c Hc. apply repeat_spec in Hc. subst c.
  pose proof (Z.mod_pos_bound (Z.of_nat st) (high - low) ltac:(lia)). lia.
Qed.

(** The theorem at a triangle of three people. *)
Lemma social_distances_between_0_and_1_witness :
  exists distances st',
    social_distances const_randint [(0, 1); (1, 2); (0, 2)] 7%nat = Ok (distances, st') /\
    map fst distances = [(0, 1); (1, 2); (0, 2)].
Proof.
  destruct (social_distances_between_0_and_1 nat const_randint
              [(0, 1); (1, 2); (0, 2)] 7%nat const_randint_spec)
    as (distances & st' & Hrun & Hkeys & _).
  exists distances, st'. split; [exact Hrun | exact Hkeys].
Defined.

(** ** Special values in the efficiency series *)

Lemma py_sum_with_infinity (xs ys : list R) (acc : R) :
  fold_left f_add (map Fin xs ++ PInf :: map Fin ys) (Fin acc) = PInf.
Proof.
  rewrite fold_left_app, py_sum_from. simpl.
  induction ys as [|y ys IH]; simpl; [reflexivity | exact IH].
Qed.

(** X11.  What the mean does with the special values [calc_efficiency] can
    return.  A [nan] efficiency (a trip of distance zero between coincident
    ends) drops out of the mean.  An infinite efficiency (a trip of distance
    zero between distinct ends) does not: if the base run's series holds one
    among numbers, its mean is infinite, and the relative degradation comes
    out as exactly 1 whatever the perturbed run's mean is, as long as that is
    a number. *)
Theorem infinite_efficiency_forces_degradation_to_one
  (eff_per : list float64) (xs ys : list R) (ma : R) :
  pd_mean eff_per = Fin ma ->
  pd_mean (NaN :: map Fin xs) = pd_mean (map Fin xs) /\
  pd_mean (map Fin xs ++ PInf :: map Fin ys) = PInf /\
  efficiency_degradation eff_per (map Fin xs ++ PInf :: map Fin ys) = Fin 1.
Proof.
  intros Hma.
  assert (Hmean : pd_mean (map Fin xs ++ PInf :: map Fin ys) = PInf).
  { unfold pd_mean.
    assert (Hf : filter (fun a => negb (is_nan a)) (map Fin xs ++ PInf :: map Fin ys)
                 = map Fin xs ++ PInf :: map Fin ys).
    { apply forallb_filter_id. apply forallb_forall. intros a Ha.
      apply in_app_or in Ha. destruct Ha as [Ha | [<- | Ha]]; [|reflexivity|];
        apply in_map_iff in Ha; destruct Ha as (x & <- & _); reflexivity. }
    rewrite Hf. unfold py_sum. rewrite py_sum_with_infinity.
    destruct (map Fin xs ++ PInf :: map Fin ys) as [|a l] eqn:E.
    - destruct (map Fin xs); discriminate.
    - unfold f_div, inf_of_sign.
      destruct (Rlt_dec (INR (List.length (a :: l))) 0) as [Hneg|_]; [|reflexivity].
      pose proof (pos_INR (List.length (a :: l))). lra. }
  split; [reflexivity|]. split; [exact Hmean|].
  unfold efficiency_degradation. rewrite Hmean, Hma.
  unfold f_div, f_sub. simpl. f_equal. lra.
Qed.

(** The theorem at a perturbed run of mean 1/2 and a base run holding an
    infinity between two numbers. *)
Lemma infinite_efficiency_forces_degradation_to_one_witness :
  efficiency_degradation [Fin (1 / 2)]
    (map Fin [(1 / 2)%R] ++ PInf :: map Fin [(1 / 4)%R])
  = Fin 1.
Proof.
  apply (infinite_efficiency_forces_degradation_to_one
           [Fin (1 / 2)] [(1 / 2)%R] [(1 / 4)%R] ((0 + 1 / 2) / 1)
           (pd_mean_single (1 / 2))).
Defined.
